(** * MiniDB-on-Crypto: a shallow embedding of the core and its properties

    The development follows the layering of the repository:

    - [indexing.py]  : the AVL tree map ([AVLTreeMap] over
                       [BalanceableBinaryTree]);
    - [storage.py]   : the record store [CryptoDB] with its three indexes;
    - [graph.py]     : the wallet graph [CryptoGraph];
    - [app.py]       : the streaming analytics [amount_usd_analytics].

    Python exceptions are modelled by [None] in an [option] result. *)

From Stdlib Require Import ZArith Bool Lia String Ascii.
From Stdlib Require Import PrimFloat.
From Stdlib Require Uint63.
From stdpp Require Import base option list sorting gmap strings.

Open Scope Z_scope.

(** ** Keys

    The tree compares keys with Python's [==], [<] and [<=].  The indexes of
    the store use integer keys (timestamps) and string keys (tokens and
    wallets); both are totally ordered.  [kcmp] is the three-way comparison
    those operators are derived from. *)

Class KeyOrd (K : Type) := {
  kcmp : K -> K -> comparison;
  kcmp_eq : forall a b, kcmp a b = Eq -> a = b;
  kcmp_refl : forall a, kcmp a a = Eq;
  kcmp_antisym : forall a b, kcmp b a = CompOpp (kcmp a b);
  kcmp_trans : forall a b c, kcmp a b = Lt -> kcmp b c = Lt -> kcmp a c = Lt
}.

(** Python [a == b], [a < b], [a <= b] on keys. *)
Definition key_eqb {K} `{KeyOrd K} (a b : K) : bool :=
  match kcmp a b with Eq => true | _ => false end.
Definition key_ltb {K} `{KeyOrd K} (a b : K) : bool :=
  match kcmp a b with Lt => true | _ => false end.
Definition key_leb {K} `{KeyOrd K} (a b : K) : bool :=
  match kcmp a b with Gt => false | _ => true end.

Lemma string_compare_refl (s : string) : String.compare s s = Eq.
Proof.
  induction s as [|c s IH]; simpl; [reflexivity|].
  unfold Ascii.compare. rewrite N.compare_refl. exact IH.
Qed.

Lemma string_compare_trans (a b c : string) :
  String.compare a b = Lt -> String.compare b c = Lt -> String.compare a c = Lt.
Proof.
  revert b c. induction a as [|x a IH]; intros [|y b] [|z c]; simpl;
    try congruence.
  unfold Ascii.compare.
  destruct (N.compare_spec (N_of_ascii x) (N_of_ascii y)) as [E1|L1|G1];
    try congruence;
    destruct (N.compare_spec (N_of_ascii y) (N_of_ascii z)) as [E2|L2|G2];
    try congruence; intros H1 H2.
  - rewrite E1, E2, N.compare_refl. eauto.
  - rewrite E1. apply N.compare_lt_iff in L2. rewrite L2. reflexivity.
  - rewrite <- E2. apply N.compare_lt_iff in L1. rewrite L1. reflexivity.
  - assert (Hlt : (N_of_ascii x < N_of_ascii z)%N) by (eapply N.lt_trans; eauto).
    apply N.compare_lt_iff in Hlt. rewrite Hlt. reflexivity.
Qed.

Lemma Z_compare_trans (a b c : Z) :
  Z.compare a b = Lt -> Z.compare b c = Lt -> Z.compare a c = Lt.
Proof. rewrite !Z.compare_lt_iff. lia. Qed.

#[export] Instance Z_KeyOrd : KeyOrd Z :=
  {| kcmp := Z.compare;
     kcmp_eq := Z.compare_eq;
     kcmp_refl := Z.compare_refl;
     kcmp_antisym := fun a b => Z.compare_antisym a b;
     kcmp_trans := Z_compare_trans |}.

#[export] Instance string_KeyOrd : KeyOrd string :=
  {| kcmp := String.compare;
     kcmp_eq := String.compare_eq_iff;
     kcmp_refl := string_compare_refl;
     kcmp_antisym := fun a b => String.compare_antisym b a;
     kcmp_trans := string_compare_trans |}.

(** ** indexing.py *)

Module Indexing.

Inductive dir := L | R.

Definition dir_eqb (a b : dir) : bool :=
  match a, b with L, L | R, R => true | _, _ => false end.

Section Tree.
Context {K V : Type} `{KeyOrd K}.

(** A [_BSTNode]: left child, entry (key and value), the auxiliary field
    [_aux] holding the cached height, right child.  [Leaf] is Python's
    [None] child. *)
Inductive tree :=
| Leaf
| Node (l : tree) (k : K) (v : V) (aux : Z) (r : tree).

(** The parent pointers: a position is a subtree together with the chain of
    its ancestors, nearest first.  [Frame d k v aux sib] is an ancestor whose
    [d]-child is the position below and whose other child is [sib]. *)
Inductive frame := Frame (d : dir) (k : K) (v : V) (aux : Z) (sib : tree).
Definition path := list frame.

Definition attach (f : frame) (c : tree) : tree :=
  match f with
  | Frame L k v a s => Node c k v a s
  | Frame R k v a s => Node s k v a c
  end.

(** The whole tree seen from a position: ancestors are left as they are. *)
Fixpoint plug (c : tree) (up : path) : tree :=
  match up with
  | [] => c
  | f :: up' => plug (attach f c) up'
  end.

Definition child (d : dir) (t : tree) : tree :=
  match t with
  | Leaf => Leaf
  | Node l _ _ _ r => match d with L => l | R => r end
  end.

(** [BalanceableBinaryTree._get_height] *)
Definition _get_height (p : tree) : Z :=
  match p with Leaf => 0 | Node _ _ _ a _ => a end.

(** [BalanceableBinaryTree._update_height]; [_validate] rejects [None]. *)
Definition _update_height (p : tree) : option tree :=
  match p with
  | Leaf => None
  | Node l k v _ r =>
      Some (Node l k v (1 + Z.max (_get_height l) (_get_height r)) r)
  end.

(** [BalanceableBinaryTree._is_balanced] *)
Definition _is_balanced (p : tree) : option bool :=
  match p with
  | Leaf => None
  | Node l _ _ _ r => Some (Z.abs (_get_height l - _get_height r) <=? 1)
  end.

(** [BalanceableBinaryTree._taller_child]: the side of the taller child,
    the left one on a tie. *)
Definition _taller_child (p : tree) : option dir :=
  match p with
  | Leaf => None
  | Node l _ _ _ r =>
      let h_left := _get_height l in
      let h_right := _get_height r in
      Some (if h_left >? h_right then L
            else if h_right >? h_left then R
            else L)
  end.

(** [BalanceableBinaryTree.rotate] applied to the [d]-child [x] of the root
    [y] of [t]: [x] takes the place of [y], [y] becomes a child of [x], and
    the middle subtree changes parent.  The [_aux] fields are not touched. *)
Definition rotate (d : dir) (t : tree) : option tree :=
  match d, t with
  | L, Node (Node a xk xv xa b) yk yv ya c =>
      Some (Node a xk xv xa (Node b yk yv ya c))
  | R, Node a yk yv ya (Node b xk xv xa c) =>
      Some (Node (Node a yk yv ya b) xk xv xa c)
  | _, _ => None
  end.

Definition set_child (d : dir) (t c : tree) : option tree :=
  match t with
  | Leaf => None
  | Node l k v a r =>
      Some (match d with L => Node c k v a r | R => Node l k v a c end)
  end.

(** [BalanceableBinaryTree.restructure] on the grandchild [x] of [z], where
    [y] is the [d1]-child of [z] and [x] the [d2]-child of [y]: one rotation
    of [y] when the two sides agree, two rotations of [x] otherwise. *)
Definition restructure (d1 d2 : dir) (z : tree) : option tree :=
  if dir_eqb d1 d2 then rotate d1 z
  else
    y' ← rotate d2 (child d1 z);
    z' ← set_child d1 z y';
    rotate d1 z'.

(** One round of the loop of [_rebalance_avl] at node [p], up to the test
    of the height against [old_height]. *)
Definition rebalance_node (p : tree) : option tree :=
  p1 ← _update_height p;
  b ← _is_balanced p1;
  if (b : bool) then Some p1
  else
    d1 ← _taller_child p1;
    d2 ← _taller_child (child d1 p1);
    match child d2 (child d1 p1) with
    | Leaf => None
    | Node _ _ _ _ _ =>
        q ← restructure d1 d2 p1;
        ql ← _update_height (child L q);
        q1 ← set_child L q ql;
        qr ← _update_height (child R q1);
        q2 ← set_child R q1 qr;
        _update_height q2
    end.

(** [BalanceableBinaryTree._rebalance_avl] started at the node [p] whose
    ancestors are [up]: the loop stops at the first node whose height did
    not change, leaving the remaining ancestors as they are. *)
Fixpoint _rebalance_avl (p : tree) (up : path) {struct up} : option tree :=
  let old_height := _get_height p in
  p' ← rebalance_node p;
  if _get_height p' =? old_height then Some (plug p' up)
  else
    match up with
    | [] => Some p'
    | f :: up' => _rebalance_avl (attach f p') up'
    end.

(** [_rebalance_avl(parent)] where [parent] is the parent of the position
    holding [c] ([None] when [c] is the root). *)
Definition _rebalance_avl_parent (c : tree) (up : path) : option tree :=
  match up with
  | [] => Some c
  | f :: up' => _rebalance_avl (attach f c) up'
  end.

(** [AVLTreeMap._find_position]: the position of key [k], or the empty
    position where the walk fell off the tree (whose parent is the last node
    visited). *)
Fixpoint _find_position (k : K) (walk : tree) (up : path) : tree * path :=
  match walk with
  | Leaf => (Leaf, up)
  | Node l k' v a r =>
      match kcmp k k' with
      | Eq => (walk, up)
      | Lt => _find_position k l (Frame L k' v a r :: up)
      | Gt => _find_position k r (Frame R k' v a l :: up)
      end
  end.

(** [AVLTreeMap._subtree_first_position] *)
Fixpoint _subtree_first_position (walk : tree) (up : path) : tree * path :=
  match walk with
  | Leaf => (walk, up)
  | Node l k v a r =>
      match l with
      | Leaf => (walk, up)
      | Node _ _ _ _ _ => _subtree_first_position l (Frame L k v a r :: up)
      end
  end.

(** [AVLTreeMap]: the tree with its root and size, and the map's own size
    counter. *)
Record AVLTreeMap := {
  tree_root : tree;
  tree_size : Z;
  map_size : Z
}.

Definition empty_map : AVLTreeMap :=
  {| tree_root := Leaf; tree_size := 0; map_size := 0 |}.

(** [AVLTreeMap.get] *)
Definition get (k : K) (m : AVLTreeMap) : option V :=
  if tree_size m =? 0 then None
  else
    match _find_position k (tree_root m) [] with
    | (Node _ _ v _ _, _) => Some v
    | (Leaf, _) => None
    end.

(** [AVLTreeMap.put]: the new map and the old value.  A position that is
    not empty where a node is to be added, or a missing parent, raises. *)
Definition put (k : K) (v : V) (m : AVLTreeMap) : option (AVLTreeMap * option V) :=
  if tree_size m =? 0 then
    match tree_root m with
    | Leaf =>
        t ← _rebalance_avl (Node Leaf k v 0 Leaf) [];
        Some ({| tree_root := t; tree_size := 1; map_size := map_size m + 1 |},
              None)
    | Node _ _ _ _ _ => None
    end
  else
    match _find_position k (tree_root m) [] with
    | (Node l _ old a r, up) =>
        Some ({| tree_root := plug (Node l k v a r) up;
                 tree_size := tree_size m;
                 map_size := map_size m |}, Some old)
    | (Leaf, []) => None
    | (Leaf, Frame d pk pv pa sib :: up) =>
        let parent := attach (Frame d pk pv pa sib) Leaf in
        let side := if key_ltb k pk then L else R in
        match child side parent with
        | Node _ _ _ _ _ => None
        | Leaf =>
            t ← _rebalance_avl (Node Leaf k v 0 Leaf)
                  (Frame side pk pv pa (child (if key_ltb k pk then R else L) parent) :: up);
            Some ({| tree_root := t;
                     tree_size := tree_size m + 1;
                     map_size := map_size m + 1 |}, None)
        end
    end.

(** [LinkedBinaryTree.remove] of the node at a position: the node is
    replaced by its only child, if any; a node with two children raises. *)
Definition tree_remove (p : tree) : option (tree * V) :=
  match p with
  | Leaf => None
  | Node (Node _ _ _ _ _) _ _ _ (Node _ _ _ _ _) => None
  | Node l _ v _ r =>
      Some (match l with Leaf => r | Node _ _ _ _ _ => l end, v)
  end.

(** [AVLTreeMap.remove] *)
Definition remove (k : K) (m : AVLTreeMap) : option (AVLTreeMap * option V) :=
  if tree_size m =? 0 then Some (m, None)
  else
    match _find_position k (tree_root m) [] with
    | (Leaf, _) => Some (m, None)
    | ((Node l pk pv pa r) as p, up) =>
        '(p', up') ←
          match l, r with
          | Node _ _ _ _ _, Node _ _ _ _ _ =>
              let '(successor, inner) := _subtree_first_position r [] in
              match successor with
              | Leaf => None
              | Node _ sk sv _ _ =>
                  Some (successor, inner ++ Frame R sk sv pa l :: up)
              end
          | _, _ => Some (p, up)
          end;
        '(c, old_value) ← tree_remove p';
        t ← _rebalance_avl_parent c up';
        Some ({| tree_root := t;
                 tree_size := tree_size m - 1;
                 map_size := map_size m - 1 |}, Some old_value)
    end.

(** In-order sequence of the entries of a subtree
    ([AbstractBinaryTree._subtree_inorder]). *)
Fixpoint inorder (t : tree) : list (K * V) :=
  match t with
  | Leaf => []
  | Node l k v _ r => inorder l ++ (k, v) :: inorder r
  end.

(** [AVLTreeMap.__iter__]: the keys, in order. *)
Definition iter (m : AVLTreeMap) : list K :=
  if tree_size m =? 0 then [] else (inorder (tree_root m)).*1.

(** [AVLTreeMap.values]: the values, in key order. *)
Definition values (m : AVLTreeMap) : list V :=
  if tree_size m =? 0 then [] else (inorder (tree_root m)).*2.

(** The first loop of [AVLTreeMap.sub_map]: the position of the least key
    [k] with [k1 <= k], if any. *)
Fixpoint sub_map_first (k1 : K) (walk : tree) (up : path)
    (current : option (tree * path)) : option (tree * path) :=
  match walk with
  | Leaf => current
  | Node l k v a r =>
      if key_leb k1 k
      then sub_map_first k1 l (Frame L k v a r :: up) (Some (walk, up))
      else sub_map_first k1 r (Frame R k v a l :: up) current
  end.

(** The inner loop of [sub_map]: climb while the current node is the right
    child of its parent, and stop at that parent.  [_Node.__eq__] compares
    the key of the entry and the chain of parents; keys being distinct in
    the tree, it tells whether the two nodes are the same, which the side
    recorded in the frame answers. *)
Fixpoint sub_map_climb (current : tree) (up : path) : option (tree * path) :=
  match up with
  | [] => None
  | Frame R k v a s :: up' => sub_map_climb (Node s k v a current) up'
  | Frame L k v a s :: up' => Some (Node current k v a s, up')
  end.

(** One step of the second loop of [sub_map]: the in-order successor. *)
Definition sub_map_next (current : tree) (up : path) : option (tree * path) :=
  match current with
  | Leaf => None
  | Node l k v a r =>
      match r with
      | Node _ _ _ _ _ =>
          Some (_subtree_first_position r (Frame R k v a l :: up))
      | Leaf => sub_map_climb current up
      end
  end.

(** The second loop of [sub_map], with a bound on the number of rounds;
    [None] when the bound is reached before the loop ends. *)
Fixpoint sub_map_loop (fuel : nat) (k2 : K) (current : option (tree * path))
    : option (list V) :=
  match current with
  | None => Some []
  | Some (Leaf, _) => None
  | Some ((Node _ k v _ _) as c, up) =>
      if key_ltb k k2 then
        match fuel with
        | O => None
        | S fuel' =>
            rest ← sub_map_loop fuel' k2 (sub_map_next c up);
            Some (v :: rest)
        end
      else Some []
  end.

(** [AVLTreeMap.sub_map]; the loop takes at most one round per node. *)
Definition sub_map (k1 k2 : K) (m : AVLTreeMap) : option (list V) :=
  sub_map_loop (length (inorder (tree_root m))) k2
    (sub_map_first k1 (tree_root m) [] None).

(** The keys of the half-open interval from [k1] to [k2]. *)
Definition in_range (k1 k2 k : K) : bool := key_leb k1 k && key_ltb k k2.

(** Sequences of [put] and [remove]. *)
Inductive op :=
| Put (k : K) (v : V)
| Remove (k : K).

Definition apply_op (o : op) (m : AVLTreeMap) : option AVLTreeMap :=
  match o with
  | Put k v => fst <$> put k v m
  | Remove k => fst <$> remove k m
  end.

Fixpoint run (ops : list op) (m : AVLTreeMap) : option AVLTreeMap :=
  match ops with
  | [] => Some m
  | o :: ops' => m' ← apply_op o m; run ops' m'
  end.

(** The keys that a sequence of operations leaves in the map. *)
Fixpoint live (ops : list op) (init : K -> bool) (k : K) : bool :=
  match ops with
  | [] => init k
  | Put k' _ :: ops' => live ops' (fun x => key_eqb x k' || init x) k
  | Remove k' :: ops' => live ops' (fun x => negb (key_eqb x k') && init x) k
  end.

(** *** Invariants *)

(** The height of a subtree, counted in nodes as the [_aux] field does. *)
Fixpoint height (t : tree) : Z :=
  match t with
  | Leaf => 0
  | Node l _ _ _ r => 1 + Z.max (height l) (height r)
  end.

(** The AVL condition at every node, with the cached height equal to the
    height. *)
Fixpoint avl (t : tree) : bool :=
  match t with
  | Leaf => true
  | Node l _ _ a r =>
      (Z.abs (height l - height r) <=? 1) && (a =? height t)
      && avl l && avl r
  end.

(** Every cached height is the height of its subtree. *)
Fixpoint heights_ok (t : tree) : Prop :=
  match t with
  | Leaf => True
  | Node l _ _ a r =>
      a = 1 + Z.max (height l) (height r) /\ heights_ok l /\ heights_ok r
  end.

(** The ancestors of a position whose subtree has height [h]: every sibling
    subtree has its heights cached, and so has every ancestor. *)
Fixpoint path_ok (up : path) (h : Z) : Prop :=
  match up with
  | [] => True
  | Frame _ _ _ a s :: up' =>
      heights_ok s /\ a = 1 + Z.max h (height s) /\ path_ok up' a
  end.

(** The entries of the ancestors that come before, and after, a position. *)
Fixpoint before (up : path) : list (K * V) :=
  match up with
  | [] => []
  | Frame L _ _ _ _ :: up' => before up'
  | Frame R k v _ s :: up' => before up' ++ inorder s ++ [(k, v)]
  end.

Fixpoint after (up : path) : list (K * V) :=
  match up with
  | [] => []
  | Frame L k v _ s :: up' => (k, v) :: inorder s ++ after up'
  | Frame R _ _ _ _ :: up' => after up'
  end.

Definition key_lt (a b : K) : Prop := kcmp a b = Lt.

(** Binary search tree: the keys are strictly increasing in order. *)
Definition bst (t : tree) : Prop := StronglySorted key_lt (inorder t).*1.

(** The state of a map between two operations. *)
Definition valid (m : AVLTreeMap) : Prop :=
  bst (tree_root m) /\ heights_ok (tree_root m)
  /\ tree_size m = Z.of_nat (length (inorder (tree_root m)))
  /\ map_size m = tree_size m.

(** The value bound to a key in a sequence of entries. *)
Fixpoint assoc (k : K) (es : list (K * V)) : option V :=
  match es with
  | [] => None
  | (k', v) :: es' => if key_eqb k k' then Some v else assoc k es'
  end.

End Tree.

Arguments tree : clear implicits.
Arguments frame : clear implicits.
Arguments path : clear implicits.
Arguments AVLTreeMap : clear implicits.

End Indexing.

(** ** storage.py *)

Module Storage.
Import Indexing.

(** A record is a Python dict.  Its fields are the keys the core reads; a
    field that is [None] is a key that is absent or bound to [None].  The
    two are kept apart for [volume], which [build_graph_from_db] reads with
    a default that only an absent key takes: there [None] is an absent key,
    [Some None] a key bound to [None] and [Some (Some x)] a float.  The
    store holds the dict it was given: the model takes every inserted dict
    to be owned by the store, as the dicts built by [ingest_data] and by the
    request handlers are. *)
Record record := {
  timestamp : option Z;
  token : option string;
  price : option float;
  volume : option (option float);
  wallet_from : option string;
  wallet_to : option string;
  status : option string;
  deleted_flag : bool
}.

(** The dict of updates given to [update_record]: [None] is an absent key.
    For the fields that may themselves be [None], the inner option is the
    value. *)
Record updates := {
  u_timestamp : option Z;
  u_token : option (option string);
  u_price : option (option float);
  u_volume : option (option float);
  u_wallet_from : option (option string);
  u_wallet_to : option (option string);
  u_status : option (option string);
  u_deleted_flag : option bool
}.

Record CryptoDB := {
  data_store : list (option record);
  timestamp_index : AVLTreeMap Z (list Z);
  token_index : AVLTreeMap string (list Z);
  wallet_from_index : AVLTreeMap string (list Z);
  next_record_id : Z;
  active_records : Z
}.

(** [CryptoDB.__init__] *)
Definition empty_db : CryptoDB :=
  {| data_store := [];
     timestamp_index := empty_map;
     token_index := empty_map;
     wallet_from_index := empty_map;
     next_record_id := 0;
     active_records := 0 |}.

(** [list.remove]: drops the first occurrence; [None] is [ValueError]. *)
Fixpoint list_remove (x : Z) (l : list Z) : option (list Z) :=
  match l with
  | [] => None
  | y :: l' => if y =? x then Some l' else (y ::.) <$> list_remove x l'
  end.

(** [CryptoDB._add_to_timestamp_index] *)
Definition _add_to_timestamp_index (index : AVLTreeMap Z (list Z))
    (timestamp : Z) (record_id : Z) : option (AVLTreeMap Z (list Z)) :=
  match get timestamp index with
  | None => fst <$> put timestamp [record_id] index
  | Some bucket => fst <$> put timestamp (bucket ++ [record_id]) index
  end.

(** [CryptoDB._remove_from_timestamp_index] *)
Definition _remove_from_timestamp_index (index : AVLTreeMap Z (list Z))
    (timestamp : Z) (record_id : Z) : option (AVLTreeMap Z (list Z)) :=
  match get timestamp index with
  | None => Some index
  | Some bucket =>
      match list_remove record_id bucket with
      | None => Some index
      | Some ((_ :: _) as bucket') => fst <$> put timestamp bucket' index
      | Some [] => fst <$> remove timestamp index
      end
  end.

(** [CryptoDB._add_to_index] *)
Definition _add_to_index (index : AVLTreeMap string (list Z))
    (key : option string) (record_id : Z) : option (AVLTreeMap string (list Z)) :=
  match key with
  | None => Some index
  | Some key =>
      match get key index with
      | None => fst <$> put key [record_id] index
      | Some bucket => fst <$> put key (bucket ++ [record_id]) index
      end
  end.

(** [CryptoDB._remove_from_index] *)
Definition _remove_from_index (index : AVLTreeMap string (list Z))
    (key : option string) (record_id : Z) : option (AVLTreeMap string (list Z)) :=
  match key with
  | None => Some index
  | Some key =>
      match get key index with
      | None => Some index
      | Some bucket =>
          match list_remove record_id bucket with
          | None => Some index
          | Some ((_ :: _) as bucket') => fst <$> put key bucket' index
          | Some [] => fst <$> remove key index
          end
      end
  end.

(** [CryptoDB.insert_record]: the new store and the id of the record.  A
    record without timestamp raises [ValueError] before anything changes. *)
Definition insert_record (rec : record) (db : CryptoDB) : option (CryptoDB * Z) :=
  record_ts ← timestamp rec;
  let record_id := next_record_id db in
  ti ← _add_to_timestamp_index (timestamp_index db) record_ts record_id;
  tk ← _add_to_index (token_index db) (token rec) record_id;
  wf ← _add_to_index (wallet_from_index db) (wallet_from rec) record_id;
  Some ({| data_store := data_store db ++ [Some rec];
           timestamp_index := ti;
           token_index := tk;
           wallet_from_index := wf;
           next_record_id := record_id + 1;
           active_records := active_records db + 1 |}, record_id).

(** [0 <= record_id < len(self.data_store)] *)
Definition in_store (record_id : Z) (db : CryptoDB) : bool :=
  (0 <=? record_id) && (record_id <? Z.of_nat (length (data_store db))).

(** [CryptoDB.delete_record] *)
Definition delete_record (record_id : Z) (db : CryptoDB) : option (CryptoDB * bool) :=
  if negb (in_store record_id db) then Some (db, false)
  else
    slot ← data_store db !! Z.to_nat record_id;
    match slot with
    | None => Some (db, false)
    | Some rec =>
        ts ← timestamp rec;
        ti ← _remove_from_timestamp_index (timestamp_index db) ts record_id;
        tk ← _remove_from_index (token_index db) (token rec) record_id;
        wf ← _remove_from_index (wallet_from_index db) (wallet_from rec) record_id;
        Some ({| data_store := <[Z.to_nat record_id := None]> (data_store db);
                 timestamp_index := ti;
                 token_index := tk;
                 wallet_from_index := wf;
                 next_record_id := next_record_id db;
                 active_records := Z.max 0 (active_records db - 1) |}, true)
    end.

(** [dict.update] followed by the three assignments of [update_record]. *)
Definition updated_record (rec : record) (u : updates)
    (new_ts : Z) (new_token new_wallet_from : option string) : record :=
  {| timestamp := Some new_ts;
     token := new_token;
     price := default (price rec) (u_price u);
     volume := from_option Some (volume rec) (u_volume u);
     wallet_from := new_wallet_from;
     wallet_to := default (wallet_to rec) (u_wallet_to u);
     status := default (status rec) (u_status u);
     deleted_flag := default (deleted_flag rec) (u_deleted_flag u) |}.

(** [CryptoDB.update_record] *)
Definition update_record (record_id : Z) (u : updates) (db : CryptoDB)
    : option (CryptoDB * bool) :=
  if negb (in_store record_id db) then Some (db, false)
  else
    slot ← data_store db !! Z.to_nat record_id;
    match slot with
    | None => Some (db, false)
    | Some rec =>
        let old_ts := default 0 (timestamp rec) in
        let old_token := token rec in
        let old_wallet_from := wallet_from rec in
        let new_ts := default old_ts (u_timestamp u) in
        let new_token := default old_token (u_token u) in
        let new_wallet_from := default old_wallet_from (u_wallet_from u) in
        let rec' := updated_record rec u new_ts new_token new_wallet_from in
        ti ← (if bool_decide (new_ts <> old_ts) then
                i ← _remove_from_timestamp_index (timestamp_index db) old_ts record_id;
                _add_to_timestamp_index i new_ts record_id
              else Some (timestamp_index db));
        tk ← (if bool_decide (new_token <> old_token) then
                i ← _remove_from_index (token_index db) old_token record_id;
                _add_to_index i new_token record_id
              else Some (token_index db));
        wf ← (if bool_decide (new_wallet_from <> old_wallet_from) then
                i ← _remove_from_index (wallet_from_index db) old_wallet_from record_id;
                _add_to_index i new_wallet_from record_id
              else Some (wallet_from_index db));
        Some ({| data_store := <[Z.to_nat record_id := Some rec']> (data_store db);
                 timestamp_index := ti;
                 token_index := tk;
                 wallet_from_index := wf;
                 next_record_id := next_record_id db;
                 active_records := active_records db |}, true)
    end.

(** Sequences of mutations.  An [insert_record] that raises [ValueError]
    has not changed the store, and the sequence goes on from the same
    store. *)
Inductive op :=
| Insert (rec : record)
| Update (record_id : Z) (u : updates)
| Delete (record_id : Z).

Definition apply_op (o : op) (db : CryptoDB) : option CryptoDB :=
  match o with
  | Insert rec =>
      match timestamp rec with
      | None => Some db
      | Some _ => fst <$> insert_record rec db
      end
  | Update record_id u => fst <$> update_record record_id u db
  | Delete record_id => fst <$> delete_record record_id db
  end.

Fixpoint run (ops : list op) (db : CryptoDB) : option CryptoDB :=
  match ops with
  | [] => Some db
  | o :: ops' => db' ← apply_op o db; run ops' db'
  end.

(** *** Invariants *)

(** The bucket of a key: the ids listed under it, none when the key is not
    in the index. *)
Definition bucket {K} `{KeyOrd K} (index : AVLTreeMap K (list Z)) (key : K) : list Z :=
  default [] (get key index).

(** The number of times an id is listed in a bucket. *)
Definition occurrences (record_id : Z) (b : list Z) : nat :=
  length (filter (fun x => x = record_id) b).

(** The record of a slot that is in the store and not a tombstone. *)
Definition live_record (ds : list (option record)) (record_id : Z) : option record :=
  if 0 <=? record_id then mjoin (ds !! Z.to_nat record_id) else None.

(** The number of slots that are not tombstones. *)
Definition live_count (ds : list (option record)) : Z :=
  Z.of_nat (length (filter is_Some ds)).

(** The bodies shared by the helpers of the timestamp index and of the
    secondary indexes. *)
Definition add_to_bucket {K} `{KeyOrd K} (index : AVLTreeMap K (list Z))
    (key : K) (record_id : Z) : option (AVLTreeMap K (list Z)) :=
  match get key index with
  | None => fst <$> put key [record_id] index
  | Some b => fst <$> put key (b ++ [record_id]) index
  end.

Definition remove_from_bucket {K} `{KeyOrd K} (index : AVLTreeMap K (list Z))
    (key : K) (record_id : Z) : option (AVLTreeMap K (list Z)) :=
  match get key index with
  | None => Some index
  | Some b =>
      match list_remove record_id b with
      | None => Some index
      | Some ((_ :: _) as b') => fst <$> put key b' index
      | Some [] => fst <$> remove key index
      end
  end.

(** The same for the keys of the secondary indexes, which may be [None]. *)
Definition add_opt {K} `{KeyOrd K} (index : AVLTreeMap K (list Z))
    (okey : option K) (record_id : Z) : option (AVLTreeMap K (list Z)) :=
  match okey with
  | None => Some index
  | Some key => add_to_bucket index key record_id
  end.

Definition remove_opt {K} `{KeyOrd K} (index : AVLTreeMap K (list Z))
    (okey : option K) (record_id : Z) : option (AVLTreeMap K (list Z)) :=
  match okey with
  | None => Some index
  | Some key => remove_from_bucket index key record_id
  end.

(** What [list.remove] leaves of a bucket, the bucket itself when the id is
    not listed. *)
Definition without (id : Z) (b : list Z) : list Z :=
  default b (list_remove id b).

(** An index agrees with an assignment of keys to ids: the bucket of a key
    lists once the ids the key is assigned to, and no other id. *)
Definition index_ok {K} `{KeyOrd K} `{!EqDecision K}
    (ka : Z -> option K) (index : AVLTreeMap K (list Z)) : Prop :=
  valid index /\
  forall key id,
    occurrences id (bucket index key)
    = if bool_decide (ka id = Some key) then 1%nat else 0%nat.

(** The key that a field gives to the id of a live record. *)
Definition key_at {K} (field : record -> option K)
    (ds : list (option record)) (record_id : Z) : option K :=
  live_record ds record_id ≫= field.

(** The state of a store between two mutations. *)
Definition store_ok (db : CryptoDB) : Prop :=
  next_record_id db = Z.of_nat (length (data_store db))
  /\ active_records db = live_count (data_store db)
  /\ (forall id rec, live_record (data_store db) id = Some rec ->
        is_Some (timestamp rec))
  /\ index_ok (key_at timestamp (data_store db)) (timestamp_index db)
  /\ index_ok (key_at token (data_store db)) (token_index db)
  /\ index_ok (key_at wallet_from (data_store db)) (wallet_from_index db).

End Storage.

(** ** graph.py *)

Module Graph.
Import Storage.

(** Python dicts with string keys, in insertion order: binding a new key
    appends it, binding a key again keeps its place. *)
Section Dict.
Context {V : Type}.

Fixpoint dict_get (k : string) (d : list (string * V)) : option V :=
  match d with
  | [] => None
  | (k', v) :: d' => if bool_decide (k' = k) then Some v else dict_get k d'
  end.

Fixpoint dict_set (k : string) (v : V) (d : list (string * V)) : list (string * V) :=
  match d with
  | [] => [(k, v)]
  | (k', v') :: d' =>
      if bool_decide (k' = k) then (k, v) :: d' else (k', v') :: dict_set k v d'
  end.

(** [d[k]] on a [defaultdict]: the value, the default when [k] is new. *)
Definition dict_default (zero : V) (k : string) (d : list (string * V)) : V :=
  default zero (dict_get k d).

Definition dict_keys (d : list (string * V)) : list string := d.*1.

End Dict.

(** The statistics of an edge: [{"count": _, "total_volume": _}]. *)
Record edge_stats := { count : Z; total_volume : float }.

Record CryptoGraph := {
  graph : list (string * list (string * edge_stats));
  wallet_token_counts : list (string * list (string * Z));
  wallet_token_volume : list (string * list (string * float))
}.

(** [CryptoGraph.__init__], and the state after the three [clear()]. *)
Definition empty_graph : CryptoGraph :=
  {| graph := []; wallet_token_counts := []; wallet_token_volume := [] |}.

(** [d[w][token] += x] on a [defaultdict] of [defaultdict]s. *)
Definition nested_add {V} (zero : V) (add : V -> V) (w token : string)
    (d : list (string * list (string * V))) : list (string * list (string * V)) :=
  let inner := dict_default [] w d in
  dict_set w (dict_set token (add (dict_default zero token inner)) inner) d.

(** Python's [not s] for a wallet: [None] and the empty string are false. *)
Definition present (s : option string) : option string :=
  match s with
  | Some w => if bool_decide (w = ""%string) then None else Some w
  | None => None
  end.

(** [float(rec.get("volume", 0.0))]: [dict.get] takes the default for an
    absent key only, and [float(None)] raises [TypeError], which is [None]
    here. *)
Definition volume_of (rec : record) : option float :=
  match Storage.volume rec with
  | None => Some 0%float
  | Some None => None
  | Some (Some x) => Some x
  end.

Section Build.
(** [str.strip] *)
Variable strip : string -> string.

(** The body of the loop of [build_graph_from_db] for one record.  The
    volume is read before the wallets are tested, so a record whose volume
    is bound to [None] raises [TypeError] whatever its wallets are. *)
Definition add_record (g : CryptoGraph) (rec : record) : option CryptoGraph :=
  let token := strip (default ""%string (Storage.token rec)) in
  volume ← volume_of rec;
  Some match present (wallet_from rec), present (wallet_to rec) with
  | Some u, Some v =>
      let counts := nested_add 0 (fun n => n + 1) u token (wallet_token_counts g) in
      let counts := nested_add 0 (fun n => n + 1) v token counts in
      let volumes := nested_add 0%float (fun x => (x + volume)%float) u token
                       (wallet_token_volume g) in
      let volumes := nested_add 0%float (fun x => (x + volume)%float) v token volumes in
      let gu := dict_default [] u (graph g) in
      let gu := match dict_get v gu with
                | None => dict_set v {| count := 0; total_volume := 0%float |} gu
                | Some _ => gu
                end in
      let e := dict_default {| count := 0; total_volume := 0%float |} v gu in
      let e := {| count := count e + 1; total_volume := total_volume e |} in
      let e := {| count := count e; total_volume := (total_volume e + volume)%float |} in
      {| graph := dict_set u (dict_set v e gu) (graph g);
         wallet_token_counts := counts;
         wallet_token_volume := volumes |}
  | _, _ => g
  end.

(** The loop of [build_graph_from_db]: tombstones are skipped, and the
    loop stops at the first record that raises. *)
Fixpoint add_records (g : CryptoGraph) (slots : list (option record))
    : option CryptoGraph :=
  match slots with
  | [] => Some g
  | None :: slots' => add_records g slots'
  | Some rec :: slots' => g' ← add_record g rec; add_records g' slots'
  end.

(** [CryptoGraph.build_graph_from_db]: the graph [self] is cleared, then
    every slot of the store that is not a tombstone is added.  [None] is
    the [TypeError] of a volume bound to [None]. *)
Definition build_graph_from_db (self : CryptoGraph) (db : CryptoDB)
    : option CryptoGraph :=
  add_records empty_graph (data_store db).

End Build.

(** [CryptoGraph.neighbors] *)
Definition neighbors (g : CryptoGraph) (node : string) : list (string * edge_stats) :=
  dict_default [] node (graph g).

(** The statistics of the edge from [u] to [v], if there is one. *)
Definition edge (g : CryptoGraph) (u v : string) : option edge_stats :=
  dict_get u (graph g) ≫= dict_get v.

(** The body of the inner loop of [bfs]. *)
Definition bfs_visit (acc : gset string * list string) (v : string)
    : gset string * list string :=
  if bool_decide (v ∈ acc.1) then acc else ({[v]} ∪ acc.1, acc.2 ++ [v]).

(** The outer loop of [bfs], with a bound on the number of rounds; [None]
    when the bound is reached before the queue is empty. *)
Fixpoint bfs_loop (fuel : nat) (g : CryptoGraph) (visited : gset string)
    (queue order : list string) : option (list string) :=
  match queue with
  | [] => Some order
  | u :: queue' =>
      match fuel with
      | O => None
      | S fuel' =>
          let '(visited', queue'') :=
            foldl bfs_visit (visited, queue')
              (dict_keys (dict_default [] u (graph g))) in
          bfs_loop fuel' g visited' queue'' (order ++ [u])
      end
  end.

(** All the wallets that some edge of the graph leads to. *)
Definition targets (g : CryptoGraph) : list string :=
  concat ((fun kv => dict_keys kv.2) <$> graph g).

(** [CryptoGraph.bfs]; the loop takes one round per wallet it reaches. *)
Definition bfs (g : CryptoGraph) (start : string) : option (list string) :=
  match dict_get start (graph g) with
  | None => Some [start]
  | Some _ => bfs_loop (S (length (targets g))) g {[start]} [start] []
  end.

(** Modelled from the spec: [CryptoGraph.shortest_path], which app.py calls
    ([g.shortest_path(src, dst)], [None] when no path is found) and graph.py
    does not define.  The spec has it as an unweighted breadth-first search
    over outgoing edges only, returning the minimal-hop path in discovery
    order and failing when [dst] is unreachable or [src] has no outgoing
    edge recorded.  It is written here as the sibling [bfs] is: the same
    test on [src], the same visited set and queue, each queued wallet
    carrying the path that discovered it. *)
Definition path_visit (u : string) (prefix : list string)
    (acc : gset string * list (string * list string)) (v : string)
    : gset string * list (string * list string) :=
  if bool_decide (v ∈ acc.1) then acc
  else ({[v]} ∪ acc.1, acc.2 ++ [(v, prefix ++ [u])]).

(** The loop of [shortest_path], with a bound on the number of rounds: the
    outer [None] is the bound reached, the inner one is not-found. *)
Fixpoint shortest_path_loop (fuel : nat) (g : CryptoGraph) (dst : string)
    (visited : gset string) (queue : list (string * list string))
    : option (option (list string)) :=
  match queue with
  | [] => Some None
  | (u, prefix) :: queue' =>
      if bool_decide (u = dst) then Some (Some (prefix ++ [u]))
      else
        match fuel with
        | O => None
        | S fuel' =>
            let '(visited', queue'') :=
              foldl (path_visit u prefix) (visited, queue')
                (dict_keys (dict_default [] u (graph g))) in
            shortest_path_loop fuel' g dst visited' queue''
        end
  end.

Definition shortest_path (g : CryptoGraph) (src dst : string)
    : option (option (list string)) :=
  match dict_get src (graph g) with
  | None => Some None
  | Some _ => shortest_path_loop (S (length (targets g))) g dst {[src]} [(src, [])]
  end.

(** There is an edge from [u] to [v]: [v] is a key of [graph[u]]. *)
Definition edge_to (g : CryptoGraph) (u v : string) : Prop :=
  v ∈ dict_keys (dict_default [] u (graph g)).

(** Each wallet of the sequence has an edge to the next one. *)
Fixpoint chain (g : CryptoGraph) (p : list string) : Prop :=
  match p with
  | u :: ((v :: _) as rest) => edge_to g u v /\ chain g rest
  | _ => True
  end.

(** [p] is a path from [src] to [dst] along outgoing edges; it has
    [length p - 1] hops. *)
Definition is_path (g : CryptoGraph) (src dst : string) (p : list string) : Prop :=
  head p = Some src /\ last p = Some dst /\ chain g p.

(** [y] is reached from [src] in [m] hops. *)
Fixpoint reach_in (g : CryptoGraph) (src : string) (m : nat) (y : string) : Prop :=
  match m with
  | O => y = src
  | S m' => exists z, reach_in g src m' z /\ edge_to g z y
  end.

(** The state of the loop of [shortest_path]: the wallets [taken] that were
    taken from the queue, and the queue.  Queued paths are paths from [src];
    their lengths go up along the queue, by one at most in all; no wallet is
    taken or queued twice; the edges of the wallets taken lead to visited
    wallets; [dst] was not taken; and a wallet that is reached in no more
    hops than the first queued path has is taken, or queued with no more
    hops. *)
Record path_inv (g : CryptoGraph) (src dst : string) (taken : list string)
    (visited : gset string) (queue : list (string * list string)) : Prop := {
  inv_paths : forall u prefix, (u, prefix) ∈ queue -> is_path g src u (prefix ++ [u]);
  inv_sorted : StronglySorted (fun e1 e2 => (length e1.2 <= length e2.2)%nat) queue;
  inv_close : forall e1 e2, head queue = Some e1 -> e2 ∈ queue ->
                (length e2.2 <= S (length e1.2))%nat;
  inv_nodup : NoDup (taken ++ queue.*1);
  inv_visited : forall x, x ∈ visited <-> x ∈ taken ++ queue.*1;
  inv_targets : forall x, x ∈ taken ++ queue.*1 -> x ∈ src :: targets g;
  inv_closed : forall x y, x ∈ taken -> edge_to g x y -> y ∈ visited;
  inv_src : src ∈ visited;
  inv_dst : dst ∉ taken;
  inv_reached : forall e1 y m, head queue = Some e1 -> (m <= length e1.2)%nat ->
                  reach_in g src m y ->
                  y ∈ taken \/ exists prefix, (y, prefix) ∈ queue /\ (length prefix <= m)%nat
}.

(** *** What a store says about a graph *)

(** The transfers of a store: sender, receiver, stripped token and volume
    (0.0 when the record has no [volume] key) of every record that is not a
    tombstone and has both wallets. *)
Record transfer := {
  t_from : string; t_to : string; t_token : string; t_volume : float
}.

Definition transfer_of (strip : string -> string) (rec : record) : option transfer :=
  match present (wallet_from rec), present (wallet_to rec) with
  | Some u, Some v =>
      Some {| t_from := u; t_to := v;
              t_token := strip (default ""%string (Storage.token rec));
              t_volume := default 0%float (volume_of rec) |}
  | _, _ => None
  end.

Definition transfers (strip : string -> string) (db : CryptoDB) : list transfer :=
  omap (fun slot => slot ≫= transfer_of strip) (data_store db).

(** The sum of a sequence of floats, added in order from [0.0]. *)
Definition float_sum (xs : list float) : float :=
  foldl (fun acc x => (acc + x)%float) 0%float xs.

(** The edge that a sequence of transfers gives from [u] to [v]. *)
Definition edge_of (ts : list transfer) (u v : string) : option edge_stats :=
  match filter (fun t => t_from t = u /\ t_to t = v) ts with
  | [] => None
  | (_ :: _) as ms =>
      Some {| count := Z.of_nat (length ms);
              total_volume := float_sum (t_volume <$> ms) |}
  end.

(** The volumes that a transfer contributes to the counter of wallet [w]
    and token [tok]: one as sender, one as receiver. *)
Definition contributions (w tok : string) (t : transfer) : list float :=
  (if bool_decide (t_from t = w /\ t_token t = tok) then [t_volume t] else [])
  ++ (if bool_decide (t_to t = w /\ t_token t = tok) then [t_volume t] else []).

(** A quantity of the contributions, [None] when there is none. *)
Definition of_contributions {V} (measure : list float -> V) (cs : list float) : option V :=
  match cs with
  | [] => None
  | _ :: _ => Some (measure cs)
  end.

Definition all_contributions (ts : list transfer) (w tok : string) : list float :=
  concat (contributions w tok <$> ts).

Definition counter (d : list (string * list (string * Z))) (w tok : string) : option Z :=
  dict_get w d ≫= dict_get tok.

Definition volume_counter (d : list (string * list (string * float))) (w tok : string)
    : option float :=
  dict_get w d ≫= dict_get tok.

Definition zero_edge : edge_stats := {| count := 0; total_volume := 0%float |}.

(** A counter after one more contribution. *)
Definition bump {V} (zero : V) (add : V -> V) (b : bool) (c : option V) : option V :=
  if b then Some (add (default zero c)) else c.

Definition matches (u v : string) (t : transfer) : Prop := t_from t = u /\ t_to t = v.

Definition count_measure (cs : list float) : Z := Z.of_nat (length cs).

(** What the loop of [build_graph_from_db] has built after the slots that
    hold the transfers [ts]. *)
Definition built (g : CryptoGraph) (ts : list transfer) : Prop :=
  (forall u v, edge g u v = edge_of ts u v)
  /\ (forall u, NoDup (dict_keys (neighbors g u)))
  /\ (forall u nb, dict_get u (graph g) = Some nb -> nb <> [])
  /\ (forall w tok, counter (wallet_token_counts g) w tok
                    = of_contributions count_measure (all_contributions ts w tok))
  /\ (forall w tok, volume_counter (wallet_token_volume g) w tok
                    = of_contributions float_sum (all_contributions ts w tok)).

(** The total of the edge from [u] to [v] read as a total of amounts: the
    sum of the [price] field, the amount of a record, over the records that
    are not tombstones and go from [u] to [v]. *)
Definition amount_total (db : CryptoDB) (u v : string) : float :=
  float_sum
    (omap (fun slot : option record =>
             rec ← slot;
             if bool_decide (present (wallet_from rec) = Some u
                             /\ present (wallet_to rec) = Some v)
             then Some (default 0%float (price rec)) else None)
          (data_store db)).

(** The state of the loop of [bfs] started at [start]: no wallet is twice
    in the order and the queue, these are the visited wallets, and each of
    them is [start] or the target of an edge. *)
Definition bfs_inv (g : CryptoGraph) (start : string)
    (visited : gset string) (queue order : list string) : Prop :=
  NoDup (order ++ queue)
  /\ (forall x, x ∈ visited <-> x ∈ order ++ queue)
  /\ (forall x, x ∈ order ++ queue -> x ∈ start :: targets g).

End Graph.

(** ** app.py: streaming analytics *)

Module Analytics.
Import Storage Graph.

(** The values of the dict that [amount_usd_analytics] returns. *)
#[warnings="-register-all"]
Inductive value :=
| VNone
| VInt (n : Z)
| VFloat (x : float)
| VStr (s : string)
| VDict (d : list (string * value)).

Definition optional_float (x : option float) : value :=
  match x with Some x => VFloat x | None => VNone end.

(** The four optional equality filters. *)
Record filters := {
  f_symbol : option string;
  f_status : option string;
  f_sender_wallet : option string;
  f_receiver_wallet : option string
}.

(** The state of the single pass: count, Welford mean and sum of squared
    deviations, sum, extrema, reservoir and generator. *)
Record pass_state {rng : Type} := {
  n : Z;
  mean : float;
  M2 : float;
  s : float;
  vmin : option float;
  vmax : option float;
  sample : list float;
  gen : rng
}.
Arguments pass_state : clear implicits.

(** [int] to [float], as the division [delta / n] converts [n]; the count
    of the records of a store is below [2^63]. *)
Definition float_of_int (n : Z) : float := PrimFloat.of_uint63 (Uint63.of_Z n).

(** [min(a, b)] and [max(a, b)] on floats: the second argument only when it
    is strictly less, or strictly greater. *)
Definition py_min (a b : float) : float := if (b <? a)%float then b else a.
Definition py_max (a b : float) : float := if (a <? b)%float then b else a.

(** [math.sqrt], which raises [ValueError] below zero. *)
Definition math_sqrt (x : float) : option float :=
  if (x <? 0)%float then None else Some (PrimFloat.sqrt x).

(** [l[i] = x], with Python's negative indices; [None] is [IndexError]. *)
Definition list_assign (i : Z) (x : float) (l : list float) : option (list float) :=
  let len := Z.of_nat (length l) in
  if (0 <=? i) && (i <? len) then Some (<[Z.to_nat i := x]> l)
  else if (- len <=? i) && (i <? 0) then Some (<[Z.to_nat (len + i) := x]> l)
  else None.

Section Builtins.
(** [str.strip]; the generator [random.Random] with its constructor from a
    seed and its method [randint]; [sorted]; [round] to an [int]; and the
    format [:,] of an [int]. *)
Variable strip : string -> string.
Variable rng : Type.
Variable Random : Z -> rng.
Variable randint : rng -> Z -> Z -> Z * rng.
Variable sorted : list float -> list float.
Variable round : float -> Z.
Variable format_thousands : Z -> string.

(** [(symbol or "").strip()] *)
Definition cleaned (filter : option string) : string :=
  strip (default ""%string filter).

(** [if sym and rec.get(field) != sym: continue], negated. *)
Definition passes_one (filter : string) (field : option string) : bool :=
  bool_decide (filter = ""%string) || bool_decide (field = Some filter).

Definition passes (f : filters) (rec : record) : bool :=
  passes_one (cleaned (f_symbol f)) (token rec)
  && passes_one (cleaned (f_status f)) (status rec)
  && passes_one (cleaned (f_sender_wallet f)) (wallet_from rec)
  && passes_one (cleaned (f_receiver_wallet f)) (wallet_to rec).

(** [_iter_amounts]: the prices of the records that are not deleted and
    pass the filters, in the order of the store. *)
Definition _iter_amounts (f : filters) (db : CryptoDB) : list float :=
  omap (fun slot : option record =>
          rec ← slot;
          if deleted_flag rec then None
          else if passes f rec then price rec else None)
       (data_store db).

(** The state before the pass. *)
Definition initial : pass_state rng :=
  {| n := 0; mean := 0%float; M2 := 0%float; s := 0%float;
     vmin := None; vmax := None; sample := []; gen := Random 1337 |}.

(** The body of the loop of [amount_usd_analytics] for the value [x]. *)
Definition observe (sample_size : Z) (st : pass_state rng) (x : float)
    : option (pass_state rng) :=
  let n := n st + 1 in
  let s := (s st + x)%float in
  let vmin := match vmin st with None => x | Some m => py_min m x end in
  let vmax := match vmax st with None => x | Some m => py_max m x end in
  let delta := (x - mean st)%float in
  let mean := (mean st + delta / float_of_int n)%float in
  let delta2 := (x - mean)%float in
  let M2 := (M2 st + delta * delta2)%float in
  '(sample, gen) ←
    (if Z.of_nat (length (sample st)) <? sample_size
     then Some (sample st ++ [x], gen st)
     else
       let '(j, gen) := randint (gen st) 1 n in
       if j <=? sample_size
       then sample ← list_assign (j - 1) x (sample st); Some (sample, gen)
       else Some (sample st, gen));
  Some {| n := n; mean := mean; M2 := M2; s := s;
          vmin := Some vmin; vmax := Some vmax;
          sample := sample; gen := gen |}.

(** The whole loop over the values [xs]. *)
Fixpoint pass (sample_size : Z) (st : pass_state rng) (xs : list float)
    : option (pass_state rng) :=
  match xs with
  | [] => Some st
  | x :: xs' => st' ← observe sample_size st x; pass sample_size st' xs'
  end.

(** The reservoir after one more value [x], from the state [st] to [st']. *)
Definition reservoir_step (sample_size : Z) (st : pass_state rng) (x : float)
    (st' : pass_state rng) : Prop :=
  if Z.of_nat (length (sample st)) <? sample_size
  then sample st' = sample st ++ [x] /\ gen st' = gen st
  else
    1 <= (randint (gen st) 1 (n st + 1)).1 <= n st + 1
    /\ gen st' = (randint (gen st) 1 (n st + 1)).2
    /\ sample st'
       = if (randint (gen st) 1 (n st + 1)).1 <=? sample_size
         then <[Z.to_nat ((randint (gen st) 1 (n st + 1)).1 - 1) := x]> (sample st)
         else sample st.

(** The dict of the filters, as it is echoed in the result. *)
Definition filters_dict (f : filters) : value :=
  VDict [("crypto_symbol"%string, VStr (default ""%string (f_symbol f)));
         ("status"%string, VStr (default ""%string (f_status f)));
         ("sender_wallet"%string, VStr (default ""%string (f_sender_wallet f)));
         ("receiver_wallet"%string, VStr (default ""%string (f_receiver_wallet f)))].

(** The nested function [q] of [amount_usd_analytics]. *)
Definition q (sample_sorted : list float) (p : float) : float :=
  match sample_sorted with
  | [] => 0%float
  | _ :: _ =>
      let last := Z.of_nat (length sample_sorted) - 1 in
      let idx := round (float_of_int last * p)%float in
      let idx := Z.max 0 (Z.min last idx) in
      default 0%float (sample_sorted !! Z.to_nat idx)
  end.

(** [amount_usd_analytics]; the percentiles are 0.50, 0.90, 0.95 and 0.99
    as binary64 values. *)
Definition amount_usd_analytics (f : filters) (sample_size : Z) (db : CryptoDB)
    : option (list (string * value)) :=
  st ← pass sample_size initial (_iter_amounts f db);
  if n st =? 0 then
    Some [("count"%string, VInt 0);
          ("filters"%string, filters_dict f);
          ("message"%string, VStr "No matching records.")]
  else
    let variance_pop :=
      if 0 <? n st then (M2 st / float_of_int (n st))%float else 0%float in
    std_pop ← math_sqrt variance_pop;
    let sample_sorted := sorted (sample st) in
    Some [("count"%string, VInt (n st));
          ("sum"%string, VFloat (s st));
          ("min"%string, optional_float (vmin st));
          ("max"%string, optional_float (vmax st));
          ("mean"%string, VFloat (mean st));
          ("std_pop"%string, VFloat std_pop);
          ("approx_percentiles"%string,
           VDict [("p50"%string, VFloat (q sample_sorted 0x1p-1%float));
                  ("p90"%string, VFloat (q sample_sorted 0x1.ccccccccccccdp-1%float));
                  ("p95"%string, VFloat (q sample_sorted 0x1.e666666666666p-1%float));
                  ("p99"%string, VFloat (q sample_sorted 0x1.fae147ae147aep-1%float))]);
          ("approx_note"%string,
           VStr ("Percentiles are estimated from a reservoir sample (size="
                 ++ format_thousands (Z.of_nat (length sample_sorted)) ++ ")"));
          ("filters"%string, filters_dict f)].

End Builtins.

(** The least and the greatest of a sequence of floats, by [py_min] and
    [py_max] from the first value on. *)
Definition min_of (xs : list float) : option float :=
  match xs with
  | [] => None
  | x :: xs' => Some (foldl py_min x xs')
  end.

Definition max_of (xs : list float) : option float :=
  match xs with
  | [] => None
  | x :: xs' => Some (foldl py_max x xs')
  end.

(** What the pass has computed after the values [xs]. *)
Definition passed {rng} (Random : Z -> rng) (sample_size : Z)
    (xs : list float) (st : pass_state rng) : Prop :=
  n st = Z.of_nat (length xs)
  /\ s st = float_sum xs
  /\ vmin st = min_of xs
  /\ vmax st = max_of xs
  /\ Z.of_nat (length (sample st)) = Z.min (Z.of_nat (length xs)) sample_size
  /\ (Z.of_nat (length xs) <= sample_size -> sample st = xs /\ gen st = Random 1337).

End Analytics.

(** ** indexing.py: the size of the map and the recursive search *)

Module MapAccess.
Import Indexing.

Section Tree.
Context {K V : Type} `{KeyOrd K}.

(** [AVLTreeMap.__len__] *)
Definition len (m : AVLTreeMap K V) : Z := map_size m.

(** [AVLTreeMap._tree_search]: the position of key [k] in the subtree at the
    position [p], whose ancestors are [up]. *)
Fixpoint _tree_search (p : tree K V) (up : path K V) (k : K)
    : option (tree K V * path K V) :=
  match p with
  | Leaf => None
  | Node l k' v a r =>
      match kcmp k k' with
      | Eq => Some (p, up)
      | Lt => _tree_search l (Frame L k' v a r :: up) k
      | Gt => _tree_search r (Frame R k' v a l :: up) k
      end
  end.

End Tree.

End MapAccess.

(** ** storage.py and query_engine.py: the queries *)

Module Queries.
Import Indexing Storage.

(** [CryptoDB.__len__] *)
Definition len (db : CryptoDB) : Z := active_records db.

(** The loop of the queries over the ids of a bucket: the records of the ids
    that are in the store and not tombstones, in the order of the bucket.
    The values of the indexes are lists, which the test [isinstance] leaves
    as they are. *)
Fixpoint collect (ds : list (option record)) (record_ids : list Z) : list record :=
  match record_ids with
  | [] => []
  | rid :: rest =>
      if (0 <=? rid) && (rid <? Z.of_nat (length ds)) then
        match ds !! Z.to_nat rid with
        | Some (Some record) => record :: collect ds rest
        | _ => collect ds rest
        end
      else collect ds rest
  end.

(** The same loop in [get_record_by_timestamp], which returns at the first
    record. *)
Fixpoint first_record (ds : list (option record)) (record_ids : list Z) : option record :=
  match record_ids with
  | [] => None
  | rid :: rest =>
      if (0 <=? rid) && (rid <? Z.of_nat (length ds)) then
        match ds !! Z.to_nat rid with
        | Some (Some record) => Some record
        | _ => first_record ds rest
        end
      else first_record ds rest
  end.

(** [CryptoDB.get_record_by_timestamp] *)
Definition get_record_by_timestamp (timestamp : Z) (db : CryptoDB) : option record :=
  match get timestamp (timestamp_index db) with
  | None => None
  | Some record_ids => first_record (data_store db) record_ids
  end.

(** [CryptoDB.get_records_by_timestamp] *)
Definition get_records_by_timestamp (timestamp : Z) (db : CryptoDB) : list record :=
  match get timestamp (timestamp_index db) with
  | None => []
  | Some record_ids => collect (data_store db) record_ids
  end.

(** [CryptoDB._collect_by_index] *)
Definition _collect_by_index (index : AVLTreeMap string (list Z)) (key : string)
    (db : CryptoDB) : list record :=
  match get key index with
  | None => []
  | Some record_ids => collect (data_store db) record_ids
  end.

(** [CryptoDB.get_records_by_token] *)
Definition get_records_by_token (token : string) (db : CryptoDB) : list record :=
  _collect_by_index (token_index db) token db.

(** [CryptoDB.get_records_by_wallet_sender] *)
Definition get_records_by_wallet_sender (wallet_id : string) (db : CryptoDB)
    : list record :=
  _collect_by_index (wallet_from_index db) wallet_id db.

(** [CryptoDB.range_query_by_timestamp]: the records that the generator
    yields, in order; [None] when [sub_map] does not return. *)
Definition range_query_by_timestamp (start_ts end_ts : Z) (db : CryptoDB)
    : option (list record) :=
  buckets ← sub_map start_ts end_ts (timestamp_index db);
  Some (concat (collect (data_store db) <$> buckets)).

(** query_engine.py: [QueryEngine], whose methods pass their arguments on to
    the store [self.db]. *)
Definition range_by_time (db : CryptoDB) (start_ts end_ts : Z) : option (list record) :=
  range_query_by_timestamp start_ts end_ts db.

Definition by_token (db : CryptoDB) (token : string) : list record :=
  get_records_by_token token db.

Definition by_sender (db : CryptoDB) (wallet : string) : list record :=
  get_records_by_wallet_sender wallet db.

(** The records [rs] are those of the slots that are not tombstones and
    satisfy [P], each slot once: they are the records of a sequence of
    distinct ids. *)
Definition lists_exactly (ds : list (option record)) (P : record -> Prop)
    (rs : list record) : Prop :=
  exists ids,
    NoDup ids
    /\ Forall2 (fun id rec => live_record ds id = Some rec) ids rs
    /\ forall id, id ∈ ids <-> exists rec, live_record ds id = Some rec /\ P rec.

(** The records come in ascending order of timestamp. *)
Definition ts_le (r1 r2 : record) : Prop :=
  match timestamp r1, timestamp r2 with
  | Some t1, Some t2 => t1 <= t2
  | _, _ => False
  end.

(** The record that [update_record] leaves in the slot. *)
Definition updated (rec : record) (u : updates) : record :=
  updated_record rec u
    (default (default 0 (timestamp rec)) (u_timestamp u))
    (default (token rec) (u_token u))
    (default (wallet_from rec) (u_wallet_from u)).

End Queries.

(** ** graph.py: depth-first traversal and top tokens *)

Module Traversal.
Import Storage Graph.

(** The nested function [_dfs] of [CryptoGraph.dfs], on the visited set and
    the order that it shares with [dfs].  [depth] is the number of nested
    calls that the interpreter still allows; [None] is [RecursionError]. *)
Fixpoint _dfs (depth : nat) (g : CryptoGraph) (u : string)
    (st : gset string * list string) : option (gset string * list string) :=
  match depth with
  | O => None
  | S depth' =>
      foldl (fun acc v =>
               st' ← acc;
               if bool_decide (v ∈ st'.1) then Some st' else _dfs depth' g v st')
        (Some ({[u]} ∪ st.1, st.2 ++ [u]))
        (dict_keys (dict_default [] u (graph g)))
  end.

(** [CryptoGraph.dfs] *)
Definition dfs (depth : nat) (g : CryptoGraph) (start : string) : option (list string) :=
  snd <$> _dfs depth g start (∅, []).

(** [l[:k]]: the first [k] items, all but the last [-k] when [k] is
    negative. *)
Definition slice_to {A} (k : Z) (l : list A) : list A :=
  if 0 <=? k then take (Z.to_nat k) l
  else take (Z.to_nat (Z.of_nat (length l) + k)) l.

Section Sorted.
(** [sorted(items, key=lambda kv: kv[1], reverse=True)] *)
Variable sorted_by_volume : list (string * float) -> list (string * float).

(** [CryptoGraph.top_tokens_for_wallet] *)
Definition top_tokens_for_wallet (g : CryptoGraph) (wallet : string) (top_k : Z)
    : list (string * float) :=
  let stats := dict_default [] wallet (wallet_token_volume g) in
  slice_to top_k (sorted_by_volume stats).

End Sorted.

(** [x] is reached from [start] in no more hops than [y] is. *)
Definition closer (g : CryptoGraph) (start x y : string) : Prop :=
  forall m, reach_in g start m y ->
            exists m', (m' <= m)%nat /\ reach_in g start m' x.

End Traversal.

(** * Properties *)

(** ** The AVL tree map *)

Module IndexingFacts.
Import Indexing.

Section Facts.
Context {K V : Type} `{KeyOrd K}.
Implicit Types (t l r p z q : tree K V) (up : path K V) (f : frame K V) (k : K) (v : V).

Lemma inorder_plug (c : tree K V) up :
  inorder (plug c up) = before up ++ inorder c ++ after up.
Proof.
  revert c. induction up as [|[[] k v a s] up IH]; intros c; simpl.
  - by rewrite app_nil_r.
  - rewrite IH. simpl. by rewrite <- !app_assoc.
  - rewrite IH. simpl. by rewrite <- !app_assoc.
Qed.

Lemma before_app up1 up2 : before (up1 ++ up2) = before up2 ++ before up1.
Proof.
  induction up1 as [|[[] k v a s] up1 IH]; simpl.
  - by rewrite app_nil_r.
  - done.
  - rewrite IH. by rewrite <- !app_assoc.
Qed.

Lemma after_app up1 up2 : after (up1 ++ up2) = after up1 ++ after up2.
Proof.
  induction up1 as [|[[] k v a s] up1 IH]; simpl.
  - done.
  - rewrite IH. by rewrite <- !app_assoc.
  - done.
Qed.

Lemma rotate_inorder d t t' : rotate d t = Some t' -> inorder t' = inorder t.
Proof.
  destruct d, t as [|[|a xk xv xa b] yk yv ya [|b' xk' xv' xa' c]]; simpl;
    intros; simplify_eq; simpl; by rewrite <- ?app_assoc.
Qed.

Lemma update_height_inorder t t' : _update_height t = Some t' -> inorder t' = inorder t.
Proof. destruct t; simpl; intros; by simplify_eq. Qed.

Lemma set_child_inorder_L t (c : tree K V) t' :
  set_child L t c = Some t' -> inorder c = inorder (child L t) -> inorder t' = inorder t.
Proof. destruct t; simpl; intros ? Hc; simplify_eq; simpl. by rewrite Hc. Qed.

Lemma set_child_inorder_R t (c : tree K V) t' :
  set_child R t c = Some t' -> inorder c = inorder (child R t) -> inorder t' = inorder t.
Proof. destruct t; simpl; intros ? Hc; simplify_eq; simpl. by rewrite Hc. Qed.

Lemma restructure_inorder d1 d2 z q : restructure d1 d2 z = Some q -> inorder q = inorder z.
Proof.
  unfold restructure. destruct (dir_eqb d1 d2).
  - apply rotate_inorder.
  - intros Hq. apply bind_Some in Hq as (y' & Hy & Hq).
    apply bind_Some in Hq as (z' & Hz & Hq).
    apply rotate_inorder in Hq, Hy. rewrite Hq.
    destruct d1.
    + eapply set_child_inorder_L; eauto.
    + eapply set_child_inorder_R; eauto.
Qed.

Lemma rebalance_node_inorder p p' : rebalance_node p = Some p' -> inorder p' = inorder p.
Proof.
  unfold rebalance_node. intros Hp.
  apply bind_Some in Hp as (p1 & H1 & Hp).
  apply bind_Some in Hp as (b & Hb & Hp).
  apply update_height_inorder in H1. rewrite <- H1.
  destruct b; [by simplify_eq|].
  apply bind_Some in Hp as (d1 & Hd1 & Hp).
  apply bind_Some in Hp as (d2 & Hd2 & Hp).
  destruct (child d2 (child d1 p1)); [done|].
  apply bind_Some in Hp as (q & Hq & Hp).
  apply bind_Some in Hp as (ql & Hql & Hp).
  apply bind_Some in Hp as (q1 & Hq1 & Hp).
  apply bind_Some in Hp as (qr & Hqr & Hp).
  apply bind_Some in Hp as (q2 & Hq2 & Hp).
  apply update_height_inorder in Hp, Hql, Hqr.
  apply restructure_inorder in Hq.
  apply set_child_inorder_L in Hq1; [|done].
  apply set_child_inorder_R in Hq2; [|done].
  congruence.
Qed.

Lemma rebalance_avl_inorder up : forall p t,
  _rebalance_avl p up = Some t -> inorder t = inorder (plug p up).
Proof.
  induction up as [|f up IH]; intros p t; simpl; intros Ht;
    apply bind_Some in Ht as (p' & Hp' & Ht);
    pose proof (rebalance_node_inorder _ _ Hp') as Hin.
  - destruct (_ =? _); by simplify_eq.
  - destruct (_ =? _).
    + simplify_eq. rewrite !inorder_plug. destruct f as [[] ? ? ? ?]; simpl; by rewrite Hin.
    + apply IH in Ht. rewrite Ht, !inorder_plug.
      destruct f as [[] ? ? ? ?]; simpl; by rewrite Hin.
Qed.


(** *** Cached heights *)

Lemma heights_ok_aux t : heights_ok t -> _get_height t = height t.
Proof. destruct t; simpl; [done|]. by intros [-> _]. Qed.

Lemma height_nonneg t : 0 <= height t.
Proof. induction t; simpl; lia. Qed.

Lemma height_pos_node t : 0 < height t -> exists l k v a r, t = Node l k v a r.
Proof. destruct t; simpl; [lia|eauto 10]. Qed.

Lemma heights_ok_plug up : forall c : tree K V,
  heights_ok (plug c up) <-> heights_ok c /\ path_ok up (height c).
Proof.
  induction up as [|[[] k v a s] up IH]; intros c; simpl.
  - tauto.
  - rewrite IH. simpl. split.
    + intros [(-> & ? & ?) ?]. done.
    + intros (? & ? & -> & ?). done.
  - rewrite IH. simpl. rewrite (Z.max_comm (height s)). split.
    + intros [(-> & ? & ?) ?]. done.
    + intros (? & ? & -> & ?). done.
Qed.

(** A round of the loop succeeds on a node whose subtrees have their
    heights cached, and leaves a subtree with its heights cached. *)
Lemma rebalance_node_ok l k v a r :
  heights_ok l -> heights_ok r ->
  exists p', rebalance_node (Node l k v a r) = Some p' /\ heights_ok p'
             /\ exists l' k' v' a' r', p' = Node l' k' v' a' r'.
Proof.
  intros Hl Hr. unfold rebalance_node. simpl.
  rewrite (heights_ok_aux l Hl), (heights_ok_aux r Hr).
  destruct (Z.abs (height l - height r) <=? 1) eqn:Hbal; simpl.
  { eexists; split; [done|]. split; [simpl; eauto|eauto 10]. }
  apply Z.leb_gt in Hbal.
  pose proof (height_nonneg l) as Hl0. pose proof (height_nonneg r) as Hr0.
  destruct (Z.gtb_spec (height l) (height r)) as [Hlr|Hlr]; simpl.
  - (* the left child is taller *)
    destruct l as [|ll lk lv la lr]; simpl in *; [lia|].
    destruct Hl as (-> & Hll & Hlr').
    rewrite (heights_ok_aux ll Hll), (heights_ok_aux lr Hlr').
    pose proof (height_nonneg ll). pose proof (height_nonneg lr).
    destruct (Z.gtb_spec (height ll) (height lr)) as [E1|E1]; simpl;
      [|destruct (Z.gtb_spec (height lr) (height ll)) as [E2|E2]; simpl].
    + destruct ll as [|x1 x2 x3 x4 x5]; simpl in *; [lia|].
      destruct Hll as (-> & ? & ?).
      eexists; split; [done|]. simpl. rewrite !heights_ok_aux by done.
      split; [|eauto 10]. simpl. done.
    + destruct lr as [|x1 x2 x3 x4 x5]; simpl in *; [lia|].
      destruct Hlr' as (-> & ? & ?).
      eexists; split; [done|]. simpl. rewrite !heights_ok_aux by done.
      split; [|eauto 10]. simpl. done.
    + destruct ll as [|x1 x2 x3 x4 x5]; simpl in *; [lia|].
      destruct Hll as (-> & ? & ?).
      eexists; split; [done|]. simpl. rewrite !heights_ok_aux by done.
      split; [|eauto 10]. simpl. done.
  - destruct (Z.gtb_spec (height r) (height l)) as [Hrl|Hrl]; simpl; [|lia].
    destruct r as [|rl rk rv ra rr]; simpl in *; [lia|].
    destruct Hr as (-> & Hrl'' & Hrr).
    rewrite (heights_ok_aux rl Hrl''), (heights_ok_aux rr Hrr).
    pose proof (height_nonneg rl). pose proof (height_nonneg rr).
    destruct (Z.gtb_spec (height rl) (height rr)) as [E1|E1]; simpl;
      [|destruct (Z.gtb_spec (height rr) (height rl)) as [E2|E2]; simpl].
    + destruct rl as [|x1 x2 x3 x4 x5]; simpl in *; [lia|].
      destruct Hrl'' as (-> & ? & ?).
      eexists; split; [done|]. simpl. rewrite !heights_ok_aux by done.
      split; [|eauto 10]. simpl. done.
    + destruct rr as [|x1 x2 x3 x4 x5]; simpl in *; [lia|].
      destruct Hrr as (-> & ? & ?).
      eexists; split; [done|]. simpl. rewrite !heights_ok_aux by done.
      split; [|eauto 10]. simpl. done.
    + destruct rl as [|x1 x2 x3 x4 x5]; simpl in *; [lia|].
      destruct Hrl'' as (-> & ? & ?).
      eexists; split; [done|]. simpl. rewrite !heights_ok_aux by done.
      split; [|eauto 10]. simpl. done.
Qed.


Lemma rebalance_avl_ok up : forall l k v a r,
  heights_ok l -> heights_ok r -> path_ok up a ->
  exists t, _rebalance_avl (Node l k v a r) up = Some t /\ heights_ok t.
Proof.
  induction up as [|f up IH]; intros l k v a r Hl Hr Hup;
    destruct (rebalance_node_ok l k v a r Hl Hr)
      as (p' & Hp' & Hok & l' & k' & v' & a' & r' & ->);
    simpl _rebalance_avl; rewrite Hp'; simpl.
  - destruct (a' =? a); eauto.
  - destruct (Z.eqb_spec a' a) as [->|Hne].
    + eexists; split; [done|].
      change (heights_ok (plug (Node l' k' v' a r') (f :: up))).
      apply heights_ok_plug. split; [done|].
      destruct Hok as (-> & _). exact Hup.
    + destruct f as [d fk fv fa s]. destruct Hup as (Hs & -> & Hup).
      destruct d; simpl; by apply IH.
Qed.

(** *** The order of keys *)

Lemma key_lt_irrefl k : ~ key_lt k k.
Proof. unfold key_lt. by rewrite kcmp_refl. Qed.

Lemma key_lt_trans a b c : key_lt a b -> key_lt b c -> key_lt a c.
Proof. apply kcmp_trans. Qed.

Lemma kcmp_Gt a b : kcmp a b = Gt <-> key_lt b a.
Proof.
  unfold key_lt. rewrite (kcmp_antisym a b).
  destruct (kcmp a b); simpl; split; congruence.
Qed.

Lemma kcmp_Eq a b : kcmp a b = Eq <-> a = b.
Proof. split; [apply kcmp_eq|intros ->; apply kcmp_refl]. Qed.

Lemma key_eqb_true a b : key_eqb a b = true <-> a = b.
Proof.
  unfold key_eqb. rewrite <- kcmp_Eq. destruct (kcmp a b); split; congruence.
Qed.

Lemma key_eqb_false a b : key_eqb a b = false <-> a <> b.
Proof. rewrite <- key_eqb_true. destruct (key_eqb a b); split; congruence. Qed.

Lemma key_eqb_refl a : key_eqb a a = true.
Proof. by apply key_eqb_true. Qed.

Lemma key_ltb_true a b : key_ltb a b = true <-> key_lt a b.
Proof. unfold key_ltb, key_lt. destruct (kcmp a b); split; congruence. Qed.

Lemma key_leb_false a b : key_leb a b = false <-> key_lt b a.
Proof.
  rewrite <- kcmp_Gt. unfold key_leb. destruct (kcmp a b); split; congruence.
Qed.

Lemma key_lt_ne a b : key_lt a b -> a <> b.
Proof. intros Hlt ->. by apply key_lt_irrefl in Hlt. Qed.

#[local] Instance key_lt_transitive : Transitive (key_lt (K:=K)).
Proof. intros a b c. apply key_lt_trans. Qed.

(** *** Searching *)

Definition all_lt (es : list (K * V)) (k : K) : Prop :=
  forall x, x ∈ es.*1 -> key_lt x k.
Definition all_gt (es : list (K * V)) (k : K) : Prop :=
  forall x, x ∈ es.*1 -> key_lt k x.

Lemma bst_node l k v a r :
  bst (Node l k v a r) <->
  bst l /\ bst r /\ all_lt (inorder l) k /\ all_gt (inorder r) k
  /\ (forall x y, x ∈ (inorder l).*1 -> y ∈ (inorder r).*1 -> key_lt x y).
Proof.
  unfold bst, all_lt, all_gt. simpl. rewrite fmap_app. simpl.
  rewrite StronglySorted_app, StronglySorted_cons, Forall_forall.
  split.
  - intros (H1 & H2 & H3 & H4). repeat split; try done.
    + intros x Hx. apply H1; [done|]. by left.
    + intros x y Hx Hy. apply H1; [done|]. by right.
  - intros (H1 & H2 & H3 & H4 & H5). repeat split; try done.
    intros x y Hx [->|Hy]%elem_of_cons; eauto.
Qed.

Lemma find_position_spec k : forall t up p up',
  _find_position k t up = (p, up') ->
  plug p up' = plug t up /\
  (p = Leaf \/ exists l v a r, p = Node l k v a r) /\
  exists ml mr,
    before up' = before up ++ ml /\ after up' = mr ++ after up /\
    inorder t = ml ++ inorder p ++ mr /\
    (bst t -> all_lt ml k /\ all_gt mr k).
Proof.
  induction t as [|l IHl k' v a r IHr]; intros up p up'; simpl.
  - intros [= <- <-]. split; [done|]. split; [by left|].
    exists [], []. rewrite app_nil_r. repeat split; try done;
      intros x Hx; by apply elem_of_nil in Hx.
  - destruct (kcmp k k') eqn:Hc.
    + intros [= <- <-]. apply kcmp_eq in Hc as <-.
      split; [done|]. split; [right; eauto|].
      exists [], []. rewrite !app_nil_r. repeat split; try done;
        intros x Hx; by apply elem_of_nil in Hx.
    + intros Hf. apply IHl in Hf as (Hplug & Hp & ml & mr & Hb & Ha & Hin & Hs).
      split; [done|]. split; [done|].
      exists ml, (mr ++ (k', v) :: inorder r). simpl in *.
      rewrite Hb, Ha, Hin, <- !app_assoc. repeat split; try done.
      * apply bst_node in H0 as (Hl & _). by apply Hs.
      * apply bst_node in H0 as (Hl & Hr & Hlt & Hgt & _).
        intros x. rewrite fmap_app, elem_of_app. simpl. rewrite elem_of_cons.
        intros [Hx|[->|Hx]].
        -- by apply Hs.
        -- done.
        -- eapply key_lt_trans; [exact Hc|]. by apply Hgt.
    + intros Hf. apply IHr in Hf as (Hplug & Hp & ml & mr & Hb & Ha & Hin & Hs).
      split; [done|]. split; [done|].
      exists (inorder l ++ (k', v) :: ml), mr. simpl in *.
      rewrite Hb, Ha, Hin, <- !app_assoc. simpl. repeat split; try done.
      * apply bst_node in H0 as (Hl & Hr & Hlt & Hgt & _).
        apply kcmp_Gt in Hc.
        intros x. rewrite fmap_app, elem_of_app. simpl. rewrite elem_of_cons.
        intros [Hx|[->|Hx]].
        -- eapply key_lt_trans; [|exact Hc]. by apply Hlt.
        -- done.
        -- by apply Hs.
      * apply bst_node in H0 as (Hl & Hr & _). by apply Hs.
Qed.


(** *** Entries bound to keys *)

Implicit Types (es : list (K * V)) (m : AVLTreeMap K V).

Definition sorted_entries (es : list (K * V)) : Prop :=
  StronglySorted key_lt es.*1.

Lemma assoc_None k es : assoc k es = None <-> k ∉ es.*1.
Proof.
  induction es as [|[k' v] es IH]; simpl.
  - split; [intros _; apply not_elem_of_nil|done].
  - rewrite not_elem_of_cons. destruct (key_eqb k k') eqn:E.
    + apply key_eqb_true in E. split; [done|]. intros [? _]. done.
    + apply key_eqb_false in E. rewrite IH. tauto.
Qed.

Lemma assoc_is_Some k es : is_Some (assoc k es) <-> k ∈ es.*1.
Proof.
  induction es as [|[k' v] es IH]; simpl.
  - rewrite elem_of_nil. split; [by intros [? ?]|done].
  - rewrite elem_of_cons. destruct (key_eqb k k') eqn:E.
    + apply key_eqb_true in E. split; [by left|eauto].
    + apply key_eqb_false in E. rewrite IH. tauto.
Qed.

Lemma sorted_entries_app es1 es2 :
  sorted_entries (es1 ++ es2) <->
  (forall x y, x ∈ es1.*1 -> y ∈ es2.*1 -> key_lt x y)
  /\ sorted_entries es1 /\ sorted_entries es2.
Proof. unfold sorted_entries. rewrite fmap_app. apply StronglySorted_app. Qed.

Lemma sorted_entries_cons k v es :
  sorted_entries ((k, v) :: es) <->
  (forall y, y ∈ es.*1 -> key_lt k y) /\ sorted_entries es.
Proof.
  unfold sorted_entries. simpl. by rewrite StronglySorted_cons, Forall_forall.
Qed.

(** Looking a key up after an entry was inserted in, replaced in, or
    removed from a sorted sequence. *)
Lemma assoc_mid k' k v es1 es2 :
  sorted_entries (es1 ++ (k, v) :: es2) ->
  assoc k' (es1 ++ (k, v) :: es2)
  = if key_eqb k' k then Some v else assoc k' (es1 ++ es2).
Proof.
  intros Hs. apply sorted_entries_app in Hs as (Hlt & _ & _).
  induction es1 as [|[k1 v1] es1 IH]; simpl.
  - done.
  - destruct (key_eqb k' k1) eqn:E1.
    + apply key_eqb_true in E1 as ->.
      assert (key_lt k1 k) as Hk by (apply Hlt; simpl; [by left|by left]).
      apply key_lt_ne, key_eqb_false in Hk. by rewrite Hk.
    + apply IH. intros x y Hx Hy. apply Hlt; [by right|done].
Qed.

Lemma assoc_removed k' k v es1 es2 :
  sorted_entries (es1 ++ (k, v) :: es2) ->
  assoc k' (es1 ++ es2)
  = if key_eqb k' k then None else assoc k' (es1 ++ (k, v) :: es2).
Proof.
  intros Hs. rewrite (assoc_mid k' k v) by done.
  destruct (key_eqb k' k) eqn:E; [|done].
  apply key_eqb_true in E as ->. apply assoc_None.
  apply sorted_entries_app in Hs as (Hlt & _ & Hs2).
  apply sorted_entries_cons in Hs2 as (Hgt & _).
  rewrite fmap_app, elem_of_app. intros [Hx|Hx].
  - eapply key_lt_irrefl, Hlt; [done|by left].
  - eapply key_lt_irrefl, Hgt; done.
Qed.

Lemma sorted_entries_insert k v es1 es2 :
  sorted_entries (es1 ++ es2) -> all_lt es1 k -> all_gt es2 k ->
  sorted_entries (es1 ++ (k, v) :: es2).
Proof.
  rewrite !sorted_entries_app, sorted_entries_cons.
  intros (Hlt & H1 & H2) Hl Hg. repeat split; try done.
  intros x y Hx [->|Hy]%elem_of_cons; eauto.
Qed.

Lemma sorted_entries_remove k v es1 es2 :
  sorted_entries (es1 ++ (k, v) :: es2) -> sorted_entries (es1 ++ es2).
Proof.
  rewrite !sorted_entries_app, sorted_entries_cons.
  intros (Hlt & H1 & H2 & H3). repeat split; try done.
  intros x y Hx Hy. apply Hlt; [done|by right].
Qed.

Lemma sorted_entries_replace k v v' es1 es2 :
  sorted_entries (es1 ++ (k, v) :: es2) -> sorted_entries (es1 ++ (k, v') :: es2).
Proof. unfold sorted_entries. by rewrite !fmap_app. Qed.

(** *** The map operations on a valid map *)

Definition entries (m : AVLTreeMap K V) : list (K * V) := inorder (tree_root m).

Lemma valid_empty : valid (empty_map (K:=K) (V:=V)).
Proof. repeat split; simpl; try done. constructor. Qed.

Lemma length_zero_leaf t : length (inorder t) = 0%nat -> t = Leaf.
Proof. destruct t; simpl; [done|]. rewrite length_app. simpl. lia. Qed.

Lemma get_spec k m : valid m -> get k m = assoc k (entries m).
Proof.
  intros (Hbst & _ & Hsz & _). unfold get, entries.
  destruct (Z.eqb_spec (tree_size m) 0) as [E|E].
  - rewrite (length_zero_leaf (tree_root m)) by lia. done.
  - destruct (_find_position k (tree_root m) []) as [p up] eqn:Hf.
    apply find_position_spec in Hf as (_ & Hp & ml & mr & _ & _ & Hin & Hs).
    destruct (Hs Hbst) as [Hl Hg]. unfold bst in Hbst. rewrite Hin in *.
    destruct Hp as [->|(l & v & a & r & ->)]; simpl in *.
    + symmetry. apply assoc_None. rewrite fmap_app, elem_of_app.
      intros [Hx|Hx]; [apply Hl in Hx|apply Hg in Hx]; by apply key_lt_irrefl in Hx.
    + rewrite <- app_assoc in *. simpl in *. rewrite app_assoc in *.
      rewrite (assoc_mid k k v) by done. by rewrite key_eqb_refl.
Qed.

Lemma rebalance_avl_parent_ok (c : tree K V) up h :
  heights_ok c -> path_ok up h ->
  exists t, _rebalance_avl_parent c up = Some t /\ heights_ok t
            /\ inorder t = inorder (plug c up).
Proof.
  intros Hc Hup. destruct up as [|[d fk fv fa s] up]; simpl.
  - eauto.
  - destruct Hup as (Hs & _ & Hup).
    destruct d; simpl.
    + destruct (rebalance_avl_ok up c fk fv fa s Hc Hs Hup) as (t & Ht & Hok).
      exists t. repeat split; try done. by apply rebalance_avl_inorder in Ht.
    + destruct (rebalance_avl_ok up s fk fv fa c Hs Hc Hup) as (t & Ht & Hok).
      exists t. repeat split; try done. by apply rebalance_avl_inorder in Ht.
Qed.

Lemma path_ok_entry_irrelevant up1 up2 d k v k' v' a s h :
  path_ok (up1 ++ Frame d k v a s :: up2) h ->
  path_ok (up1 ++ Frame d k' v' a s :: up2) h.
Proof.
  revert h. induction up1 as [|[d1 k1 v1 a1 s1] up1 IH]; intros h; simpl.
  - done.
  - intros (? & ? & ?). eauto.
Qed.

Lemma subtree_first_position_spec : forall t up l k v a r,
  t = Node l k v a r ->
  exists sk sv sa sr inner,
    _subtree_first_position t up = (Node Leaf sk sv sa sr, inner ++ up)
    /\ plug (Node Leaf sk sv sa sr) inner = t
    /\ before inner = []
    /\ inorder t = (sk, sv) :: inorder sr ++ after inner.
Proof.
  induction t as [|l IHl k v a r _]; intros up l0 k0 v0 a0 r0 [=]; subst.
  destruct l0 as [|ll lk lv la lr].
  - exists k0, v0, a0, r0, []. simpl. by rewrite app_nil_r.
  - destruct (IHl (Frame L k0 v0 a0 r0 :: up) _ _ _ _ _ eq_refl)
      as (sk & sv & sa & sr & inner & Hf & Hplug & Hb & Hin).
    exists sk, sv, sa, sr, (inner ++ [Frame L k0 v0 a0 r0]).
    change (_subtree_first_position (Node (Node ll lk lv la lr) k0 v0 a0 r0) up)
      with (_subtree_first_position (Node ll lk lv la lr) (Frame L k0 v0 a0 r0 :: up)).
    rewrite Hf, <- app_assoc. split; [done|]. split; [|split].
    + clear -Hplug. revert Hplug. generalize (Node Leaf sk sv sa sr).
      induction inner as [|f inner IH]; simpl; intros c Hc; [by subst|by apply IH].
    + by rewrite before_app, Hb.
    + change (inorder (Node (Node ll lk lv la lr) k0 v0 a0 r0))
        with (inorder (Node ll lk lv la lr) ++ (k0, v0) :: inorder r0).
      rewrite Hin, after_app. simpl. by rewrite app_nil_r, <- !app_assoc.
Qed.


Lemma get_of_entries k' m m' (f : option V -> option V) :
  valid m -> valid m' ->
  assoc k' (entries m') = f (assoc k' (entries m)) ->
  get k' m' = f (get k' m).
Proof. intros Hm Hm' Heq. by rewrite !get_spec. Qed.

Lemma put_spec k v m :
  valid m ->
  exists m', put k v m = Some (m', get k m) /\ valid m'
    /\ forall k', get k' m' = if key_eqb k' k then Some v else get k' m.
Proof.
  intros Hm. pose proof Hm as (Hbst & Hh & Hsz & Hms).
  cut (exists m', put k v m = Some (m', get k m) /\ valid m'
        /\ forall k', assoc k' (entries m')
                      = if key_eqb k' k then Some v else assoc k' (entries m)).
  { intros (m' & Hput & Hm' & Hget). exists m'. split_and!; try done.
    intros k'. rewrite !get_spec by done. apply Hget. }
  rewrite (get_spec k m Hm). unfold put, entries.
  destruct (Z.eqb_spec (tree_size m) 0) as [E|E].
  - assert (tree_root m = Leaf) as Hroot by (apply length_zero_leaf; lia).
    rewrite Hroot.
    destruct (rebalance_avl_ok [] Leaf k v 0 Leaf I I I) as (t & Ht & Hok).
    rewrite Ht. simpl. apply rebalance_avl_inorder in Ht. simpl in Ht.
    eexists; split; [done|]. split.
    + split_and!; simpl; try done.
      * unfold bst. rewrite Ht. simpl. repeat constructor.
      * by rewrite Ht.
      * lia.
    + intros k'. simpl. by rewrite Ht.
  - destruct (_find_position k (tree_root m) []) as [p up] eqn:Hf.
    apply find_position_spec in Hf
      as (Hplug & Hp & ml & mr & Hb & Ha & Hin & Hs).
    destruct (Hs Hbst) as [Hl Hg]. simpl in Hb, Ha, Hplug. rewrite app_nil_r in Ha.
    rewrite <- Hplug in Hh. apply heights_ok_plug in Hh as [Hhp Hhup].
    unfold bst in Hbst. rewrite Hin in *.
    destruct Hp as [->|(l & old & a & r & ->)].
    + (* the key is new *)
      simpl in Hin, Hhp, Hbst, Hsz.
      destruct up as [|[d pk pv pa sib] up]; simpl in Hb, Ha, Hhup.
      { subst ml mr. simpl in Hsz. lia. }
      cbv beta iota zeta.
      assert ((if key_ltb k pk then L else R) = d
              /\ (child d (attach (Frame d pk pv pa sib) Leaf)) = Leaf
              /\ child (if key_ltb k pk then R else L)
                   (attach (Frame d pk pv pa sib) Leaf) = sib) as (Hside & Hc & Hsib).
      { destruct d; simpl.
        - assert (key_lt k pk) as Hk by (apply Hg; rewrite <- Ha; simpl; by left).
          apply key_ltb_true in Hk. by rewrite Hk.
        - assert (key_lt pk k) as Hk.
          { apply Hl. rewrite <- Hb, !fmap_app, !elem_of_app. right. right.
            simpl. by left. }
          assert (key_ltb k pk = false) as ->; [|done].
          destruct (key_ltb k pk) eqn:E'; [|done].
          apply key_ltb_true in E'.
          destruct (key_lt_irrefl k). by eapply key_lt_trans. }
      rewrite Hside, Hc, Hsib.
      destruct (rebalance_avl_ok (Frame d pk pv pa sib :: up) Leaf k v 0 Leaf I I)
        as (t & Ht & Hok); [done|].
      rewrite Ht. simpl.
      apply rebalance_avl_inorder in Ht. rewrite inorder_plug in Ht.
      simpl inorder in Ht. simpl before in Ht. simpl after in Ht.
      rewrite ?Hb, ?Ha in Ht.
      assert (sorted_entries (ml ++ (k, v) :: mr)) as Hsorted.
      { apply sorted_entries_insert; done. }
      assert (assoc k (ml ++ mr) = None) as ->.
      { apply assoc_None. rewrite fmap_app, elem_of_app.
        intros [Hx|Hx]; [apply Hl in Hx|apply Hg in Hx];
          by apply key_lt_irrefl in Hx. }
      eexists; split; [done|]. split.
      * split_and!; simpl; try done.
        -- unfold bst. by rewrite Ht.
        -- rewrite Ht, Hsz, !length_app. simpl. lia.
        -- lia.
      * intros k'. simpl. rewrite Ht. by apply assoc_mid.
    + (* the key is bound: its entry is replaced *)
      simpl in *. rewrite <- !app_assoc in *. simpl in *. rewrite !app_assoc in *.
      rewrite (assoc_mid k k old) by done. rewrite key_eqb_refl.
      eexists; split; [done|].
      assert (inorder (plug (Node l k v a r) up)
              = (ml ++ inorder l) ++ (k, v) :: inorder r ++ mr) as Hnew.
      { rewrite inorder_plug, Hb, Ha. simpl. by rewrite <- !app_assoc. }
      split.
      * split_and!; simpl; try done.
        -- unfold bst. rewrite Hnew. by eapply sorted_entries_replace.
        -- apply heights_ok_plug. done.
        -- rewrite Hnew, Hsz, !length_app. simpl. by rewrite !length_app.
      * intros k'. simpl. rewrite Hnew.
        rewrite (assoc_mid k' k v) by (by eapply sorted_entries_replace).
        rewrite (assoc_mid k' k old) by done.
        by destruct (key_eqb k' k).
Qed.

Lemma path_ok_app inner up : forall c : tree K V,
  path_ok inner (height c) -> path_ok up (height (plug c inner)) ->
  path_ok (inner ++ up) (height c).
Proof.
  induction inner as [|[d fk fv fa s] inner IH]; intros c; simpl; [done|].
  intros (Hs & Hfa & Hin) Hup. split_and!; try done.
  assert (fa = height (attach (Frame d fk fv fa s) c)) as Heq.
  { rewrite Hfa. destruct d; simpl; [done|by rewrite Z.max_comm]. }
  rewrite Heq. apply IH; [by rewrite <- Heq|done].
Qed.

Lemma remove_finish m k pv (c : tree K V) up h es1 es2 (old : V) :
  valid m -> entries m = es1 ++ (k, pv) :: es2 ->
  heights_ok c -> path_ok up h -> inorder (plug c up) = es1 ++ es2 ->
  exists m',
    (_rebalance_avl_parent c up ≫= fun t =>
       Some ({| tree_root := t; tree_size := tree_size m - 1;
                map_size := map_size m - 1 |}, Some old))
    = Some (m', Some old)
    /\ valid m'
    /\ forall k', assoc k' (entries m')
                  = if key_eqb k' k then None else assoc k' (entries m).
Proof.
  intros (Hbst & Hh & Hsz & Hms) Hes Hc Hup Hin.
  destruct (rebalance_avl_parent_ok c up h Hc Hup) as (t & Ht & Hok & Hint).
  rewrite Ht. simpl. eexists; split; [done|].
  unfold entries, bst in *. rewrite Hes in *. rewrite Hin in Hint.
  split.
  - split_and!; simpl; try done.
    + unfold bst. rewrite Hint. by eapply sorted_entries_remove.
    + rewrite Hint, Hsz, !length_app. simpl. lia.
    + lia.
  - intros k'. simpl. rewrite Hint. by apply assoc_removed.
Qed.

Lemma remove_spec k m :
  valid m ->
  exists m' old, remove k m = Some (m', old) /\ valid m'
    /\ (forall k', get k' m' = if key_eqb k' k then None else get k' m)
    /\ (is_Some old <-> is_Some (get k m)).
Proof.
  intros Hm. pose proof Hm as (Hbst & Hh & Hsz & Hms).
  cut (exists m' old, remove k m = Some (m', old) /\ valid m'
        /\ (forall k', assoc k' (entries m')
                      = if key_eqb k' k then None else assoc k' (entries m))
        /\ (is_Some old <-> is_Some (assoc k (entries m)))).
  { intros (m' & old & Hrm & Hm' & Hget & Hold). exists m', old.
    split_and!; try done.
    - intros k'. rewrite !get_spec by done. apply Hget.
    - by rewrite get_spec. }
  assert (forall es, k ∉ es.*1 ->
            forall k', assoc k' es = if key_eqb k' k then None else assoc k' es)
    as Hsame.
  { intros es Hk k'. destruct (key_eqb k' k) eqn:E; [|done].
    apply key_eqb_true in E as ->. by apply assoc_None. }
  unfold remove.
  destruct (Z.eqb_spec (tree_size m) 0) as [E|E].
  { assert (tree_root m = Leaf) as Hroot by (apply length_zero_leaf; lia).
    exists m, None. unfold entries. rewrite Hroot. simpl.
    split_and!; [done|done|intros k'; by destruct (key_eqb k' k)|].
    split; by intros [? ?]. }
  destruct (_find_position k (tree_root m) []) as [p up] eqn:Hf.
  apply find_position_spec in Hf
    as (Hplug & Hp & ml & mr & Hb & Ha & Hin & Hs).
  destruct (Hs Hbst) as [Hl Hg]. simpl in Hb, Ha, Hplug. rewrite app_nil_r in Ha.
  pose proof Hh as Hh'.
  rewrite <- Hplug in Hh'. apply heights_ok_plug in Hh' as [Hhp Hhup].
  destruct Hp as [->|(l & pv & a & r & ->)].
  { (* the key is not bound *)
    simpl in Hin. exists m, None.
    assert (k ∉ (entries m).*1) as Hk.
    { unfold entries. rewrite Hin, fmap_app, elem_of_app.
      intros [Hx|Hx]; [apply Hl in Hx|apply Hg in Hx];
        by apply key_lt_irrefl in Hx. }
    split_and!; try done.
    - by apply Hsame.
    - apply assoc_None in Hk. rewrite Hk. split; by intros [? ?]. }
  assert (entries m = (ml ++ inorder l) ++ (k, pv) :: inorder r ++ mr) as Hes.
  { unfold entries. rewrite Hin. simpl. by rewrite <- !app_assoc. }
  assert (is_Some (assoc k (entries m))) as Hsome.
  { apply assoc_is_Some. rewrite Hes, fmap_app, elem_of_app. right. by left. }
  destruct Hhp as (Ha' & Hhl & Hhr).
  cbv beta iota zeta.
  destruct l as [|ll lk lv la lr]; [|destruct r as [|rl rk rv ra rr]].
  - (* no left child *)
    cbn [mbind option_bind tree_remove].
    destruct (remove_finish m k pv r up _ (ml ++ []) (inorder r ++ mr) pv
                Hm Hes Hhr Hhup) as (m' & Heq & Hm' & Hget).
    { rewrite inorder_plug, Hb, Ha. by rewrite <- !app_assoc. }
    exists m', (Some pv).
    split_and!; try done; try (split; [done|by eauto]).
  - (* no right child *)
    cbn [mbind option_bind tree_remove].
    destruct (remove_finish m k pv (Node ll lk lv la lr) up _
                (ml ++ inorder (Node ll lk lv la lr)) ([] ++ mr) pv
                Hm Hes Hhl Hhup) as (m' & Heq & Hm' & Hget).
    { rewrite inorder_plug, Hb, Ha. by rewrite <- !app_assoc. }
    exists m', (Some pv).
    split_and!; try done; try (split; [done|by eauto]).
  - (* two children: the successor takes the place of the entry *)
    destruct (subtree_first_position_spec (Node rl rk rv ra rr) [] _ _ _ _ _ eq_refl)
      as (sk & sv & sa & sr & inner & Hfirst & Hplug' & Hbi & Hini).
    rewrite Hfirst, app_nil_r.
    cbn [mbind option_bind tree_remove].
    assert (heights_ok (Node Leaf sk sv sa sr) /\ path_ok inner (height (Node Leaf sk sv sa sr)))
      as [Hhs Hhi].
    { apply heights_ok_plug. by rewrite Hplug'. }
    destruct (remove_finish m k pv sr (inner ++ Frame R sk sv a (Node ll lk lv la lr) :: up)
                (height (Node Leaf sk sv sa sr))
                (ml ++ inorder (Node ll lk lv la lr)) (inorder (Node rl rk rv ra rr) ++ mr) sv
                Hm Hes) as (m' & Heq & Hm' & Hget).
    { apply Hhs. }
    { apply path_ok_entry_irrelevant with (k:=k) (v:=pv).
      apply path_ok_app; [done|]. rewrite Hplug'. simpl.
      split; [exact Hhl|]. split.
      - rewrite Ha'. simpl. by rewrite Z.max_comm.
      - simpl in Hhup. by rewrite Ha'. }
    { rewrite Hini, inorder_plug, before_app, after_app.
      cbn [before after]. rewrite Hbi, Hb, Ha. simpl.
      rewrite <- !app_assoc. simpl. by rewrite <- ?app_assoc. }
    exists m', (Some sv).
    split_and!; try done; try (split; [done|by eauto]).
Qed.

(** *** Sequences of operations *)

Lemma run_spec (ops : list (op (K:=K) (V:=V))) : forall m init,
  valid m -> (forall k, is_Some (get k m) <-> init k = true) ->
  exists m', run ops m = Some m' /\ valid m'
    /\ forall k, is_Some (get k m') <-> live ops init k = true.
Proof.
  induction ops as [|[k v|k] ops IH]; intros m init Hm Hinit; simpl.
  - eauto.
  - destruct (put_spec k v m Hm) as (m1 & Hput & Hm1 & Hget).
    rewrite Hput. simpl. apply IH; [done|].
    intros k'. rewrite Hget, orb_true_iff, <- Hinit.
    destruct (key_eqb k' k); split; eauto. intros [|]; done.
  - destruct (remove_spec k m Hm) as (m1 & old & Hrm & Hm1 & Hget & _).
    rewrite Hrm. simpl. apply IH; [done|].
    intros k'. rewrite Hget, andb_true_iff, <- Hinit.
    destruct (key_eqb k' k); simpl; split; try tauto.
    + by intros [? ?].
    + by intros [? _].
Qed.

Lemma iter_entries m : valid m -> iter m = (entries m).*1.
Proof.
  intros (_ & _ & Hsz & _). unfold iter, entries.
  destruct (Z.eqb_spec (tree_size m) 0) as [E|E]; [|done].
  by rewrite (length_zero_leaf (tree_root m)) by lia.
Qed.

Lemma values_entries m : valid m -> values m = (entries m).*2.
Proof.
  intros (_ & _ & Hsz & _). unfold values, entries.
  destruct (Z.eqb_spec (tree_size m) 0) as [E|E]; [|done].
  by rewrite (length_zero_leaf (tree_root m)) by lia.
Qed.

Lemma sorted_NoDup (ks : list K) : StronglySorted key_lt ks -> NoDup ks.
Proof.
  induction 1 as [|k ks Hs IH Hall]; constructor; [|done].
  intros Hin. rewrite Forall_forall in Hall.
  by apply (key_lt_irrefl k), Hall.
Qed.

Lemma sorted_entries_assoc es :
  sorted_entries es -> Forall (fun e => assoc e.1 es = Some e.2) es.
Proof.
  intros Hs. apply Forall_forall. intros [k v] Hin.
  apply list_elem_of_split in Hin as (es1 & es2 & ->).
  simpl. rewrite (assoc_mid k k v) by done. by rewrite key_eqb_refl.
Qed.


(** *** Range queries *)

(** The entries from a position to the end of the tree, in order. *)
Definition pos_suffix (pos : option (tree K V * path K V)) : list (K * V) :=
  match pos with
  | None => []
  | Some (Leaf, up) => after up
  | Some (Node _ k v _ r, up) => (k, v) :: inorder r ++ after up
  end.

Definition pos_node (pos : option (tree K V * path K V)) : Prop :=
  match pos with
  | Some (Leaf, _) => False
  | _ => True
  end.

Lemma sub_map_climb_spec up : forall c : tree K V,
  pos_node (sub_map_climb c up) /\ pos_suffix (sub_map_climb c up) = after up.
Proof.
  induction up as [|[[] k v a s] up IH]; intros c; simpl; by try apply IH.
Qed.

Lemma sub_map_next_spec l k v a r up :
  pos_node (sub_map_next (Node l k v a r) up)
  /\ pos_suffix (sub_map_next (Node l k v a r) up) = inorder r ++ after up.
Proof.
  unfold sub_map_next. destruct r as [|rl rk rv ra rr].
  - apply sub_map_climb_spec.
  - destruct (subtree_first_position_spec (Node rl rk rv ra rr)
                (Frame R k v a l :: up) _ _ _ _ _ eq_refl)
      as (sk & sv & sa & sr & inner & -> & _ & _ & ->).
    split; [done|]. simpl. rewrite after_app. simpl. by rewrite <- app_assoc.
Qed.

Definition in_lower (k1 : K) (e : K * V) : Prop := key_leb k1 e.1 = true.
Definition in_upper (k2 : K) (e : K * V) : Prop := key_ltb e.1 k2 = true.

#[local] Instance in_lower_dec k1 e : Decision (in_lower k1 e).
Proof. unfold in_lower. apply _. Defined.
#[local] Instance in_upper_dec k2 e : Decision (in_upper k2 e).
Proof. unfold in_upper. apply _. Defined.

Lemma key_leb_true_lt k1 k x : key_leb k1 k = true -> key_lt k x -> key_leb k1 x = true.
Proof.
  intros Hle Hlt. destruct (key_leb k1 x) eqn:E; [done|].
  apply key_leb_false in E.
  assert (key_lt k1 k1 \/ key_leb k1 k = false) as [Hc|Hc].
  { unfold key_leb, key_lt in *. destruct (kcmp k1 k) eqn:Hk; try done.
    - apply kcmp_eq in Hk as ->. left. by eapply kcmp_trans.
    - left. eapply kcmp_trans; [exact Hk|]. by eapply kcmp_trans. }
  - by apply key_lt_irrefl in Hc.
  - congruence.
Qed.

Lemma filter_lower_all k1 k es :
  key_leb k1 k = true -> all_gt es k -> filter (in_lower k1) es = es.
Proof.
  intros Hle Hgt. induction es as [|e es IH]; [done|].
  rewrite filter_cons_True.
  - f_equal. apply IH. intros x Hx. apply Hgt. simpl. by right.
  - unfold in_lower. eapply key_leb_true_lt; [done|]. apply Hgt. simpl. by left.
Qed.

Lemma filter_lower_none k1 k es :
  key_leb k1 k = false -> all_lt es k -> filter (in_lower k1) es = [].
Proof.
  intros Hle Hlt. induction es as [|e es IH]; [done|].
  rewrite filter_cons_False.
  - apply IH. intros x Hx. apply Hlt. simpl. by right.
  - unfold in_lower. rewrite not_true_iff_false. apply key_leb_false.
    apply key_leb_false in Hle. eapply key_lt_trans; [|done].
    apply Hlt. simpl. by left.
Qed.

Lemma sub_map_first_spec k1 : forall t up cur,
  bst t -> pos_node cur -> pos_suffix cur = after up ->
  pos_node (sub_map_first k1 t up cur)
  /\ pos_suffix (sub_map_first k1 t up cur)
     = filter (in_lower k1) (inorder t) ++ after up.
Proof.
  induction t as [|l IHl k v a r IHr]; intros up cur Hbst Hcur Hsuf; simpl.
  - done.
  - apply bst_node in Hbst as (Hl & Hr & Hlt & Hgt & _).
    rewrite filter_app. destruct (key_leb k1 k) eqn:Hle.
    + destruct (IHl (Frame L k v a r :: up) (Some (Node l k v a r, up)))
        as [Hn Hs]; try done.
      split; [done|]. rewrite Hs. simpl.
      rewrite filter_cons_True by done.
      rewrite (filter_lower_all k1 k (inorder r)) by done.
      by rewrite <- app_assoc.
    + destruct (IHr (Frame R k v a l :: up) cur) as [Hn Hs]; try done.
      split; [done|]. rewrite Hs. simpl.
      rewrite filter_cons_False by (unfold in_lower; simpl; congruence).
      by rewrite (filter_lower_none k1 k (inorder l)) by done.
Qed.

Lemma filter_upper_none k2 k es :
  key_ltb k k2 = false -> all_gt es k -> filter (in_upper k2) es = [].
Proof.
  intros Hk Hgt. induction es as [|e es IH]; [done|].
  rewrite filter_cons_False.
  - apply IH. intros x Hx. apply Hgt. simpl. by right.
  - unfold in_upper. rewrite not_true_iff_false.
    destruct (key_ltb e.1 k2) eqn:E; [|done].
    apply key_ltb_true in E.
    assert (key_lt k k2) as Hc.
    { eapply key_lt_trans; [|done]. apply Hgt. simpl. by left. }
    apply key_ltb_true in Hc. congruence.
Qed.

Lemma sub_map_loop_spec k2 : forall fuel pos,
  pos_node pos -> sorted_entries (pos_suffix pos) ->
  (length (pos_suffix pos) <= fuel)%nat ->
  sub_map_loop fuel k2 pos = Some (filter (in_upper k2) (pos_suffix pos)).*2.
Proof.
  induction fuel as [|fuel IH]; intros [[[|l k v a r] up]|] Hn Hs Hlen;
    try done; simpl in Hlen; try lia.
  - destruct (sub_map_next_spec l k v a r up) as [Hn' Hs'].
    cbn [pos_suffix] in Hs, Hlen |- *. apply sorted_entries_cons in Hs as [Hgt Hs].
    cbn [sub_map_loop]. destruct (key_ltb k k2) eqn:Hk.
    + rewrite IH; [|done|by rewrite Hs'|rewrite Hs'; lia].
      rewrite Hs'. simpl. by rewrite filter_cons_True by done.
    + rewrite filter_cons_False by (unfold in_upper; simpl; congruence).
      by rewrite (filter_upper_none k2 k).
Qed.

Lemma sorted_entries_filter (P : K * V -> Prop) `{!forall e, Decision (P e)} es :
  sorted_entries es -> sorted_entries (filter P es).
Proof.
  induction es as [|[k v] es IH]; [done|].
  rewrite sorted_entries_cons. intros [Hgt Hs].
  destruct (decide (P (k, v))).
  - rewrite filter_cons_True by done. apply sorted_entries_cons.
    split; [|by apply IH].
    intros y Hy. apply Hgt. apply list_elem_of_fmap in Hy as (e & -> & He).
    apply list_elem_of_fmap. exists e. split; [done|].
    by apply list_elem_of_filter in He as [_ ?].
  - rewrite filter_cons_False by done. by apply IH.
Qed.

Lemma sub_map_spec k1 k2 m :
  valid m ->
  sub_map k1 k2 m
  = Some (filter (in_upper k2) (filter (in_lower k1) (entries m))).*2.
Proof.
  intros (Hbst & _). unfold sub_map.
  destruct (sub_map_first_spec k1 (tree_root m) [] None Hbst I eq_refl)
    as [Hn Hs].
  simpl in Hs. rewrite app_nil_r in Hs.
  rewrite sub_map_loop_spec; rewrite ?Hs; try done.
  - by apply sorted_entries_filter.
  - apply length_filter.
Qed.


Lemma filter_fst (P : K -> Prop) `{!forall x, Decision (P x)} es :
  (filter (fun e => P e.1) es).*1 = filter P es.*1.
Proof.
  induction es as [|[k v] es IH]; [done|]. rewrite fmap_cons. cbn [fst].
  destruct (decide (P k)).
  - rewrite !filter_cons_True by done. rewrite fmap_cons. cbn [fst]. by rewrite IH.
  - by rewrite !filter_cons_False by done.
Qed.

Lemma filter_none {A} (P : A -> Prop) `{!forall x, Decision (P x)} (xs : list A) :
  (forall x, ~ P x) -> filter P xs = [].
Proof.
  intros Hn. induction xs as [|x xs IH]; [done|].
  by rewrite filter_cons_False by apply Hn.
Qed.

(** C2: after any sequence of [put] and [remove] on an empty map, the
    operations all return, the in-order iteration of the keys is strictly
    increasing, it has no key twice, it holds exactly the keys put and not
    removed since, and the values traversal yields, in the same order, the
    value bound to each of these keys. *)
Theorem C2_iteration_strictly_increasing (ops : list (op (K:=K) (V:=V))) :
  exists m,
    run ops empty_map = Some m
    /\ StronglySorted key_lt (iter m)
    /\ NoDup (iter m)
    /\ (forall k, k ∈ iter m <-> live ops (fun _ => false) k = true)
    /\ Forall2 (fun k v => get k m = Some v) (iter m) (values m).
Proof.
  destruct (run_spec ops empty_map (fun _ => false) valid_empty)
    as (m & Hrun & Hm & Hlive).
  { intros k. split; [by intros [? ?]|done]. }
  exists m. pose proof Hm as (Hbst & _).
  rewrite iter_entries, values_entries by done.
  split_and!; try done.
  - by apply sorted_NoDup.
  - intros k. rewrite <- Hlive, get_spec by done. symmetry. apply assoc_is_Some.
  - apply Forall2_fmap, Forall_Forall2_diag.
    eapply Forall_impl; [by apply sorted_entries_assoc|].
    intros e He. by rewrite get_spec.
Qed.

(** C3: on the map left by any sequence of operations, [sub_map k1 k2]
    returns, and yields the values bound to the keys [k] of the map with
    [k1 <= k < k2], in ascending order of these keys; it yields nothing
    when [k2 <= k1]. *)
Theorem C3_sub_map_half_open_range (ops : list (op (K:=K) (V:=V))) (k1 k2 : K) :
  exists m vs,
    run ops empty_map = Some m
    /\ sub_map k1 k2 m = Some vs
    /\ StronglySorted key_lt (filter (fun k => in_range k1 k2 k) (iter m))
    /\ Forall2 (fun k v => get k m = Some v)
         (filter (fun k => in_range k1 k2 k) (iter m)) vs
    /\ (key_leb k2 k1 = true -> vs = []).
Proof.
  destruct (run_spec ops empty_map (fun _ => false) valid_empty)
    as (m & Hrun & Hm & _).
  { intros k. split; [by intros [? ?]|done]. }
  exists m. eexists. split; [done|]. split; [by apply sub_map_spec|].
  pose proof Hm as (Hbst & _).
  rewrite iter_entries by done.
  rewrite list_filter_filter.
  assert (forall es,
    filter (fun e : K * V => in_upper k2 e /\ in_lower k1 e) es
    = filter (fun e => in_range k1 k2 e.1) es) as Hf.
  { intros es. apply list_filter_iff. intros [k v].
    unfold in_upper, in_lower, in_range. simpl.
    rewrite andb_True, !Is_true_true. tauto. }
  rewrite Hf, <- (filter_fst (fun k => in_range k1 k2 k)).
  split_and!.
  - apply (sorted_entries_filter (fun e => in_range k1 k2 e.1)). exact Hbst.
  - apply Forall2_fmap, Forall_Forall2_diag, Forall_forall.
    intros e [_ He]%list_elem_of_filter. rewrite get_spec by done.
    pose proof (sorted_entries_assoc (entries m) Hbst) as Hall.
    rewrite Forall_forall in Hall. by apply Hall.
  - intros Hle. rewrite filter_none; [done|].
    intros [k v]. unfold in_range. simpl. rewrite andb_True, !Is_true_true.
    intros [H1 H2]. apply key_ltb_true in H2.
    pose proof (key_leb_true_lt k2 k1 k Hle) as Hc.
    assert (key_leb k2 k = true) as Hk2.
    { unfold key_leb, key_lt in *. destruct (kcmp k1 k) eqn:E; try done.
      - apply kcmp_eq in E as ->. done.
      - by apply Hc. }
    unfold key_leb, key_lt in *. rewrite (kcmp_antisym k k2), H2 in Hk2.
    done.
Qed.

End Facts.

(** C1: the balance condition does not survive [remove].  After the keys
    4, 2, 10, 1, 7, 12, 6, 13 are put in an empty map the tree is an AVL
    tree; removing key 1 then leaves the node of key 10 with an empty left
    subtree and a right subtree of height 2.  On the tie between the two
    children of node 10, [_taller_child] takes the left one, which is not on
    the side of node 10, and the double rotation that follows unbalances
    node 10. *)
Theorem C1_remove_unbalances_node :
  exists m8 m,
    run [Put 4 40; Put 2 20; Put 10 100; Put 1 10; Put 7 70; Put 12 120;
         Put 6 60; Put 13 130] empty_map = Some m8
    /\ avl (tree_root m8) = true
    /\ remove 1 m8 = Some (m, Some 10)
    /\ tree_root m
       = Node (Node (Node Leaf 2 20 1 Leaf) 4 40 2 (Node Leaf 6 60 1 Leaf))
           7 70 4
           (Node Leaf 10 100 3 (Node Leaf 12 120 2 (Node Leaf 13 130 1 Leaf)))
    /\ avl (tree_root m) = false.
Proof. do 2 eexists. vm_compute. split_and!; reflexivity. Qed.

End IndexingFacts.

(** ** The record store *)

Module StorageFacts.
Import Indexing IndexingFacts Storage.

(** *** Buckets *)

Lemma occurrences_app id b1 b2 :
  occurrences id (b1 ++ b2) = (occurrences id b1 + occurrences id b2)%nat.
Proof. unfold occurrences. by rewrite filter_app, length_app. Qed.

Lemma occurrences_cons id x b :
  occurrences id (x :: b)
  = ((if bool_decide (x = id) then 1 else 0) + occurrences id b)%nat.
Proof.
  unfold occurrences. rewrite filter_cons.
  case_bool_decide; by rewrite ?decide_True, ?decide_False by done.
Qed.

Lemma occurrences_elem_of id b : (0 < occurrences id b)%nat <-> id ∈ b.
Proof.
  induction b as [|x b IH].
  - split; [unfold occurrences; simpl; lia|by intros ?%elem_of_nil].
  - rewrite occurrences_cons, elem_of_cons. case_bool_decide; subst.
    + split; [by left|lia].
    + rewrite <- IH. split; [by right|]. intros [|]; [congruence|lia].
Qed.

Lemma list_remove_None id b : list_remove id b = None <-> occurrences id b = 0%nat.
Proof.
  induction b as [|x b IH]; simpl; [done|].
  rewrite occurrences_cons. destruct (Z.eqb_spec x id) as [->|Hne].
  - rewrite bool_decide_eq_true_2 by done. split; [done|lia].
  - rewrite bool_decide_eq_false_2 by done.
    rewrite fmap_None, IH. done.
Qed.

Lemma list_remove_Some id b b' id' :
  list_remove id b = Some b' ->
  occurrences id' b
  = ((if bool_decide (id' = id) then 1 else 0) + occurrences id' b')%nat.
Proof.
  revert b'. induction b as [|x b IH]; intros b'; simpl; [done|].
  destruct (Z.eqb_spec x id) as [->|Hne].
  - intros [= ->]. rewrite occurrences_cons.
    repeat case_bool_decide; congruence.
  - intros (b0 & Hb0 & ->)%fmap_Some. rewrite !occurrences_cons, (IH _ Hb0).
    repeat case_bool_decide; try congruence; lia.
Qed.

Section IndexFacts.
Context {K : Type} `{KeyOrd K} `{!EqDecision K}.
Implicit Types (index : AVLTreeMap K (list Z)) (key : K) (ka : Z -> option K).

Lemma bucket_put index key b index' old :
  valid index -> put key b index = Some (index', old) ->
  valid index' /\
  forall key', bucket index' key' = if bool_decide (key' = key) then b else bucket index key'.
Proof.
  intros Hv Hput. destruct (put_spec key b index Hv) as (m' & Hput' & Hv' & Hget).
  rewrite Hput in Hput'. simplify_eq. split; [done|].
  intros key'. unfold bucket. rewrite Hget.
  case_bool_decide as E.
  - apply key_eqb_true in E. by rewrite E.
  - apply key_eqb_false in E. by rewrite E.
Qed.

Lemma put_total index key b :
  valid index -> exists index' old, put key b index = Some (index', old).
Proof. intros Hv. destruct (put_spec key b index Hv) as (m' & Hput' & _). eauto. Qed.

Lemma add_to_bucket_spec index key id :
  valid index ->
  exists index', add_to_bucket index key id = Some index' /\ valid index' /\
    forall key', bucket index' key'
                 = if bool_decide (key' = key) then bucket index key ++ [id]
                   else bucket index key'.
Proof.
  intros Hv. unfold add_to_bucket.
  destruct (get key index) as [b|] eqn:Hg.
  - destruct (put_total index key (b ++ [id]) Hv) as (index' & old & Hput).
    rewrite Hput. exists index'. split; [done|].
    destruct (bucket_put _ _ _ _ _ Hv Hput) as [Hv' Hb]. split; [done|].
    intros key'. rewrite Hb. unfold bucket at 2. by rewrite Hg.
  - destruct (put_total index key [id] Hv) as (index' & old & Hput).
    rewrite Hput. exists index'. split; [done|].
    destruct (bucket_put _ _ _ _ _ Hv Hput) as [Hv' Hb]. split; [done|].
    intros key'. rewrite Hb. unfold bucket at 2. by rewrite Hg.
Qed.

Lemma remove_from_bucket_spec index key id :
  valid index ->
  exists index', remove_from_bucket index key id = Some index' /\ valid index' /\
    forall key', bucket index' key'
                 = if bool_decide (key' = key) then without id (bucket index key)
                   else bucket index key'.
Proof.
  intros Hv. unfold remove_from_bucket, without.
  destruct (get key index) as [b|] eqn:Hg.
  - assert (bucket index key = b) as Hbk by (unfold bucket; by rewrite Hg).
    rewrite Hbk.
    destruct (list_remove id b) as [[|x b']|] eqn:Hr; cbv beta iota zeta.
    + destruct (remove_spec key index Hv) as (index' & old & Hrm & Hv' & Hget & _).
      rewrite Hrm. exists index'. split; [done|]. split; [done|].
      intros key'. unfold bucket. rewrite Hget. simpl.
      case_bool_decide as E.
      * apply key_eqb_true in E. by rewrite E.
      * apply key_eqb_false in E. by rewrite E.
    + destruct (put_total index key (x :: b') Hv) as (index' & old & Hput).
      rewrite Hput. exists index'. split; [done|].
      destruct (bucket_put _ _ _ _ _ Hv Hput) as [Hv' Hb]. split; [done|].
      intros key'. by rewrite Hb.
    + exists index. split; [done|]. split; [done|].
      intros key'. case_bool_decide as E; [|done]. by subst.
  - assert (bucket index key = []) as Hbk by (unfold bucket; by rewrite Hg).
    exists index. split; [done|]. split; [done|].
    intros key'. case_bool_decide as E; [|done]. subst. by rewrite Hbk.
Qed.

Lemma occurrences_without id id' b :
  (occurrences id b <= 1)%nat ->
  occurrences id' (without id b)
  = if bool_decide (id' = id) then 0%nat else occurrences id' b.
Proof.
  intros Hle. unfold without. destruct (list_remove id b) as [b'|] eqn:Hr; simpl.
  - pose proof (list_remove_Some id b b' id' Hr) as H1.
    pose proof (list_remove_Some id b b' id Hr) as H2.
    rewrite bool_decide_eq_true_2 in H2 by done.
    case_bool_decide; subst; lia.
  - apply list_remove_None in Hr. case_bool_decide; subst; done.
Qed.

Lemma index_ok_add ka index key id :
  index_ok ka index -> ka id = None ->
  exists index', add_to_bucket index key id = Some index'
    /\ index_ok (fun i => if bool_decide (i = id) then Some key else ka i) index'.
Proof.
  intros [Hv Hocc] Hnone.
  destruct (add_to_bucket_spec index key id Hv) as (index' & Hadd & Hv' & Hb).
  exists index'. split; [done|]. split; [done|].
  intros key' id'. rewrite Hb. case_bool_decide as Ek; subst.
  - rewrite occurrences_app, Hocc, occurrences_cons.
    unfold occurrences at 1. simpl.
    repeat case_bool_decide; simplify_eq; try done; try lia; congruence.
  - rewrite Hocc. repeat case_bool_decide; simplify_eq; try done; congruence.
Qed.

Lemma index_ok_remove ka index key id :
  index_ok ka index -> ka id = Some key ->
  exists index', remove_from_bucket index key id = Some index'
    /\ index_ok (fun i => if bool_decide (i = id) then None else ka i) index'.
Proof.
  intros [Hv Hocc] Hsome.
  destruct (remove_from_bucket_spec index key id Hv) as (index' & Hrm & Hv' & Hb).
  exists index'. split; [done|]. split; [done|].
  intros key' id'. rewrite Hb. case_bool_decide as Ek; subst.
  - rewrite occurrences_without.
    + rewrite Hocc. repeat case_bool_decide; simplify_eq; done.
    + rewrite Hocc. case_bool_decide; lia.
  - rewrite Hocc. repeat case_bool_decide; simplify_eq; try done; congruence.
Qed.

Lemma index_ok_ext ka ka' index :
  (forall i, ka i = ka' i) -> index_ok ka index -> index_ok ka' index.
Proof.
  intros Heq [Hv Hocc]. split; [done|]. intros key id. by rewrite <- Heq.
Qed.

End IndexFacts.

Section OptionKeys.
Context {K : Type} `{KeyOrd K} `{!EqDecision K}.
Implicit Types (index : AVLTreeMap K (list Z)) (ka : Z -> option K) (okey : option K).

Lemma index_ok_add_opt ka index okey id :
  index_ok ka index -> ka id = None ->
  exists index', add_opt index okey id = Some index'
    /\ index_ok (fun i => if bool_decide (i = id) then okey else ka i) index'.
Proof.
  intros Hok Hnone. destruct okey as [key|]; simpl.
  - by apply index_ok_add.
  - exists index. split; [done|]. eapply index_ok_ext; [|done].
    intros i. simpl. case_bool_decide; by subst.
Qed.

Lemma index_ok_remove_opt ka index id :
  index_ok ka index ->
  exists index', remove_opt index (ka id) id = Some index'
    /\ index_ok (fun i => if bool_decide (i = id) then None else ka i) index'.
Proof.
  intros Hok. destruct (ka id) as [key|] eqn:Hk; simpl.
  - by apply index_ok_remove.
  - exists index. split; [done|]. eapply index_ok_ext; [|done].
    intros i. simpl. case_bool_decide; by subst.
Qed.

Lemma index_ok_move ka index okey id :
  index_ok ka index ->
  exists index',
    (remove_opt index (ka id) id ≫= fun i => add_opt i okey id) = Some index'
    /\ index_ok (fun i => if bool_decide (i = id) then okey else ka i) index'.
Proof.
  intros Hok.
  destruct (index_ok_remove_opt ka index id Hok) as (i1 & Hrm & Hok1).
  rewrite Hrm. simpl.
  destruct (index_ok_add_opt _ i1 okey id Hok1) as (i2 & Hadd & Hok2).
  { by rewrite bool_decide_eq_true_2. }
  exists i2. split; [done|]. eapply index_ok_ext; [|done].
  intros i. simpl. by case_bool_decide.
Qed.

End OptionKeys.

(** *** The slots of the store *)

Implicit Types (ds : list (option record)) (db : CryptoDB) (rec : record).

Lemma live_record_Some ds id rec :
  live_record ds id = Some rec <->
  0 <= id /\ ds !! Z.to_nat id = Some (Some rec).
Proof.
  unfold live_record. destruct (Z.leb_spec 0 id); [|split; [done|lia]].
  destruct (ds !! Z.to_nat id) as [[r|]|]; simpl;
    (split; [intros; by simplify_eq|intros [_ ?]; by simplify_eq]).
Qed.

Lemma live_record_lt ds id rec :
  live_record ds id = Some rec -> 0 <= id < Z.of_nat (length ds).
Proof.
  intros [Hid Hl%lookup_lt_Some]%live_record_Some. lia.
Qed.

Lemma live_record_app ds rec id :
  live_record (ds ++ [Some rec]) id
  = if bool_decide (id = Z.of_nat (length ds)) then Some rec else live_record ds id.
Proof.
  unfold live_record. destruct (Z.leb_spec 0 id); [|by case_bool_decide; try lia].
  case_bool_decide as E.
  - subst. rewrite Nat2Z.id. by rewrite list_lookup_middle.
  - destruct (decide (Z.to_nat id < length ds)%nat).
    + by rewrite lookup_app_l.
    + rewrite !lookup_ge_None_2; [done|lia|]. rewrite length_app. simpl. lia.
Qed.

Lemma live_record_insert ds id slot i :
  0 <= id < Z.of_nat (length ds) ->
  live_record (<[Z.to_nat id := slot]> ds) i
  = if bool_decide (i = id) then slot else live_record ds i.
Proof.
  intros Hid. unfold live_record. case_bool_decide as E.
  - subst. destruct (Z.leb_spec 0 id); [|lia].
    rewrite list_lookup_insert_eq by lia. done.
  - destruct (Z.leb_spec 0 i); [|done].
    rewrite list_lookup_insert_ne by lia. done.
Qed.

Lemma live_count_app ds rec : live_count (ds ++ [Some rec]) = live_count ds + 1.
Proof.
  unfold live_count. rewrite filter_app, length_app.
  rewrite filter_cons_True by eauto. simpl. lia.
Qed.

Lemma live_count_cons (x : option record) ds :
  live_count (x :: ds) = (if x is Some _ then 1 else 0) + live_count ds.
Proof.
  unfold live_count. destruct x as [r|].
  - rewrite filter_cons_True by eauto. simpl. lia.
  - rewrite filter_cons_False; [done|]. by intros [? ?].
Qed.

Lemma live_count_insert ds n slot old :
  ds !! n = Some old ->
  live_count (<[n := slot]> ds)
  = live_count ds - (if old is Some _ then 1 else 0)
    + (if slot is Some _ then 1 else 0).
Proof.
  revert n. induction ds as [|x ds IH]; intros [|n]; simpl; try done.
  - intros [= ->]. rewrite !live_count_cons. lia.
  - intros Hn. rewrite !live_count_cons, (IH n Hn). lia.
Qed.

Lemma live_count_pos ds n rec : ds !! n = Some (Some rec) -> 0 < live_count ds.
Proof.
  intros Hn. unfold live_count.
  assert (Some rec ∈ filter is_Some ds) as Hin.
  { apply list_elem_of_filter. split; [eauto|]. by eapply list_elem_of_lookup_2. }
  destruct (filter is_Some ds); [by apply elem_of_nil in Hin|]. simpl. lia.
Qed.

Lemma key_at_app {K} (field : record -> option K) ds rec i :
  key_at field (ds ++ [Some rec]) i
  = if bool_decide (i = Z.of_nat (length ds)) then field rec else key_at field ds i.
Proof. unfold key_at. rewrite live_record_app. by case_bool_decide. Qed.

Lemma key_at_insert {K} (field : record -> option K) ds id slot i :
  0 <= id < Z.of_nat (length ds) ->
  key_at field (<[Z.to_nat id := slot]> ds) i
  = if bool_decide (i = id) then slot ≫= field else key_at field ds i.
Proof. intros Hid. unfold key_at. rewrite live_record_insert by done. by case_bool_decide. Qed.

Lemma key_at_end {K} (field : record -> option K) ds :
  key_at field ds (Z.of_nat (length ds)) = None.
Proof.
  unfold key_at. destruct (live_record ds (Z.of_nat (length ds))) eqn:E; [|done].
  apply live_record_lt in E. lia.
Qed.

Section StoreIndex.
Context {K : Type} `{KeyOrd K} `{!EqDecision K}.
Implicit Types (index : AVLTreeMap K (list Z)) (field : record -> option K).

Lemma index_insert field ds index rec :
  index_ok (key_at field ds) index ->
  exists index',
    add_opt index (field rec) (Z.of_nat (length ds)) = Some index'
    /\ index_ok (key_at field (ds ++ [Some rec])) index'.
Proof.
  intros Hok.
  destruct (index_ok_add_opt _ index (field rec) (Z.of_nat (length ds)) Hok)
    as (index' & Hadd & Hok'); [apply key_at_end|].
  exists index'. split; [done|]. eapply index_ok_ext; [|done].
  intros i. simpl. by rewrite key_at_app.
Qed.

Lemma index_delete field ds index id rec :
  index_ok (key_at field ds) index -> live_record ds id = Some rec ->
  exists index',
    remove_opt index (field rec) id = Some index'
    /\ index_ok (key_at field (<[Z.to_nat id := None]> ds)) index'.
Proof.
  intros Hok Hlive.
  destruct (index_ok_remove_opt _ index id Hok) as (index' & Hrm & Hok').
  unfold key_at at 1 in Hrm. rewrite Hlive in Hrm. simpl in Hrm.
  exists index'. split; [done|]. eapply index_ok_ext; [|done].
  intros i. simpl. rewrite key_at_insert by (by eapply live_record_lt). done.
Qed.

Lemma index_update field ds index id rec rec' :
  index_ok (key_at field ds) index -> live_record ds id = Some rec ->
  exists index',
    (if bool_decide (field rec' <> field rec)
     then remove_opt index (field rec) id ≫= fun i => add_opt i (field rec') id
     else Some index) = Some index'
    /\ index_ok (key_at field (<[Z.to_nat id := Some rec']> ds)) index'.
Proof.
  intros Hok Hlive.
  assert (key_at field ds id = field rec) as Hk.
  { unfold key_at. by rewrite Hlive. }
  case_bool_decide as E.
  - destruct (index_ok_move _ index (field rec') id Hok) as (index' & Hmv & Hok').
    rewrite Hk in Hmv. exists index'. split; [done|].
    eapply index_ok_ext; [|done].
    intros i. simpl. rewrite key_at_insert by (by eapply live_record_lt). done.
  - exists index. split; [done|]. eapply index_ok_ext; [|done].
    intros i. simpl. rewrite key_at_insert by (by eapply live_record_lt).
    case_bool_decide; [|done]. subst. rewrite Hk.
    destruct (decide (field rec' = field rec)); [done|]. by destruct E.
Qed.

End StoreIndex.

(** *** The mutations keep the store consistent *)

Lemma key_at_nil {K} (field : record -> option K) id : key_at field [] id = None.
Proof. unfold key_at, live_record. by destruct (0 <=? id). Qed.

Lemma index_ok_empty {K} `{KeyOrd K} `{!EqDecision K} (field : record -> option K) :
  index_ok (key_at field []) empty_map.
Proof.
  split; [apply valid_empty|]. intros key id.
  by rewrite key_at_nil, bool_decide_eq_false_2.
Qed.

Lemma store_ok_empty : store_ok empty_db.
Proof.
  unfold store_ok, empty_db. simpl. split_and!; try done;
    try apply index_ok_empty.
  intros id rec Hl. apply live_record_lt in Hl. simpl in Hl. lia.
Qed.

Lemma insert_record_ok rec db ts :
  store_ok db -> timestamp rec = Some ts ->
  exists db',
    insert_record rec db = Some (db', Z.of_nat (length (data_store db)))
    /\ store_ok db'
    /\ data_store db' = data_store db ++ [Some rec].
Proof.
  intros (Hnext & Hact & Hts & Hi1 & Hi2 & Hi3) Hrec.
  destruct (index_insert timestamp _ _ rec Hi1) as (ti & Hti & Hok1).
  destruct (index_insert token _ _ rec Hi2) as (tk & Htk & Hok2).
  destruct (index_insert wallet_from _ _ rec Hi3) as (wf & Hwf & Hok3).
  rewrite Hrec in Hti.
  unfold insert_record. rewrite Hrec, Hnext. simpl.
  change (add_opt (timestamp_index db) (Some ts) (Z.of_nat (length (data_store db))))
    with (_add_to_timestamp_index (timestamp_index db) ts (Z.of_nat (length (data_store db))))
    in Hti.
  change (add_opt (token_index db) (token rec) (Z.of_nat (length (data_store db))))
    with (_add_to_index (token_index db) (token rec) (Z.of_nat (length (data_store db))))
    in Htk.
  change (add_opt (wallet_from_index db) (wallet_from rec) (Z.of_nat (length (data_store db))))
    with (_add_to_index (wallet_from_index db) (wallet_from rec) (Z.of_nat (length (data_store db))))
    in Hwf.
  rewrite Hti. simpl. rewrite Htk. simpl. rewrite Hwf. simpl.
  eexists. split; [done|]. split; [|done].
  unfold store_ok. simpl. split_and!; try done.
  - rewrite length_app. simpl. lia.
  - rewrite live_count_app. lia.
  - intros id r. rewrite live_record_app. case_bool_decide.
    + intros [= <-]. by rewrite Hrec.
    + apply Hts.
Qed.

Lemma delete_record_ok id rec db :
  store_ok db -> live_record (data_store db) id = Some rec ->
  exists db',
    delete_record id db = Some (db', true)
    /\ store_ok db'
    /\ data_store db' = <[Z.to_nat id := None]> (data_store db)
    /\ active_records db' = active_records db - 1.
Proof.
  intros (Hnext & Hact & Hts & Hi1 & Hi2 & Hi3) Hlive.
  pose proof (live_record_lt _ _ _ Hlive) as Hid.
  pose proof Hlive as [_ Hslot]%live_record_Some.
  destruct (Hts _ _ Hlive) as [ts Hrec].
  destruct (index_delete timestamp _ _ id rec Hi1 Hlive) as (ti & Hti & Hok1).
  destruct (index_delete token _ _ id rec Hi2 Hlive) as (tk & Htk & Hok2).
  destruct (index_delete wallet_from _ _ id rec Hi3 Hlive) as (wf & Hwf & Hok3).
  rewrite Hrec in Hti.
  change (remove_opt (timestamp_index db) (Some ts) id)
    with (_remove_from_timestamp_index (timestamp_index db) ts id) in Hti.
  change (remove_opt (token_index db) (token rec) id)
    with (_remove_from_index (token_index db) (token rec) id) in Htk.
  change (remove_opt (wallet_from_index db) (wallet_from rec) id)
    with (_remove_from_index (wallet_from_index db) (wallet_from rec) id) in Hwf.
  unfold delete_record, in_store.
  assert ((0 <=? id) && (id <? Z.of_nat (length (data_store db))) = true) as ->.
  { apply andb_true_iff. split; [apply Z.leb_le|apply Z.ltb_lt]; lia. }
  simpl. rewrite Hslot. simpl. rewrite Hrec. simpl.
  rewrite Hti. simpl. rewrite Htk. simpl. rewrite Hwf. simpl.
  pose proof (live_count_pos _ _ _ Hslot) as Hpos.
  pose proof (live_count_insert _ _ None _ Hslot) as Hcnt. simpl in Hcnt.
  eexists. split; [done|]. split; [|split; [done|simpl; lia]].
  unfold store_ok. simpl. split_and!; try done.
  - by rewrite length_insert.
  - rewrite Hcnt. lia.
  - intros i r. rewrite live_record_insert by done. case_bool_decide; [done|].
    apply Hts.
Qed.

Lemma update_record_ok id u rec db :
  store_ok db -> live_record (data_store db) id = Some rec ->
  exists db' rec',
    update_record id u db = Some (db', true)
    /\ store_ok db'
    /\ data_store db' = <[Z.to_nat id := Some rec']> (data_store db)
    /\ active_records db' = active_records db.
Proof.
  intros (Hnext & Hact & Hts & Hi1 & Hi2 & Hi3) Hlive.
  pose proof (live_record_lt _ _ _ Hlive) as Hid.
  pose proof Hlive as [_ Hslot]%live_record_Some.
  destruct (Hts _ _ Hlive) as [ts Hrec].
  set (new_ts := default ts (u_timestamp u)).
  set (new_token := default (token rec) (u_token u)).
  set (new_wallet_from := default (wallet_from rec) (u_wallet_from u)).
  set (rec' := updated_record rec u new_ts new_token new_wallet_from).
  destruct (index_update timestamp _ _ id rec rec' Hi1 Hlive) as (ti & Hti & Hok1).
  destruct (index_update token _ _ id rec rec' Hi2 Hlive) as (tk & Htk & Hok2).
  destruct (index_update wallet_from _ _ id rec rec' Hi3 Hlive) as (wf & Hwf & Hok3).
  assert ((if bool_decide (new_ts <> ts)
           then _remove_from_timestamp_index (timestamp_index db) ts id
                ≫= fun i => _add_to_timestamp_index i new_ts id
           else Some (timestamp_index db)) = Some ti) as Hti'.
  { rewrite <- Hti, Hrec.
    rewrite (bool_decide_ext (new_ts <> ts) (timestamp rec' <> Some ts));
      [reflexivity|]. simpl. split; congruence. }
  assert ((if bool_decide (new_token <> token rec)
           then _remove_from_index (token_index db) (token rec) id
                ≫= fun i => _add_to_index i new_token id
           else Some (token_index db)) = Some tk) as Htk' by exact Htk.
  assert ((if bool_decide (new_wallet_from <> wallet_from rec)
           then _remove_from_index (wallet_from_index db) (wallet_from rec) id
                ≫= fun i => _add_to_index i new_wallet_from id
           else Some (wallet_from_index db)) = Some wf) as Hwf' by exact Hwf.
  unfold update_record, in_store.
  assert ((0 <=? id) && (id <? Z.of_nat (length (data_store db))) = true) as ->.
  { apply andb_true_iff. split; [apply Z.leb_le|apply Z.ltb_lt]; lia. }
  simpl. rewrite Hslot. simpl. rewrite Hrec. simpl.
  fold new_ts new_token new_wallet_from. fold rec'.
  rewrite Hti'. simpl. rewrite Htk'. simpl. rewrite Hwf'. simpl.
  pose proof (live_count_insert _ _ (Some rec') _ Hslot) as Hcnt. simpl in Hcnt.
  eexists _, rec'. split; [done|]. split; [|done].
  unfold store_ok. simpl. split_and!; try done.
  - by rewrite length_insert.
  - rewrite Hcnt. lia.
  - intros i r. rewrite live_record_insert by done.
    destruct (decide (i = id)) as [->|Hne].
    + rewrite bool_decide_eq_true_2 by done. intros Hr.
      assert (r = rec') as -> by congruence.
      unfold rec'. simpl. eauto.
    + rewrite bool_decide_eq_false_2 by done. apply Hts.
Qed.

Lemma in_store_live id db :
  in_store id db = true ->
  exists slot, data_store db !! Z.to_nat id = Some slot
               /\ live_record (data_store db) id = slot.
Proof.
  unfold in_store, live_record. intros [H1%Z.leb_le H2%Z.ltb_lt]%andb_true_iff.
  destruct (lookup_lt_is_Some_2 (data_store db) (Z.to_nat id)) as [slot Hs]; [lia|].
  exists slot. rewrite Hs. split; [done|].
  destruct (Z.leb_spec 0 id); [done|lia].
Qed.

Lemma not_in_store_live id db :
  in_store id db = false -> live_record (data_store db) id = None.
Proof.
  intros Hn. destruct (live_record (data_store db) id) as [rec|] eqn:E; [|done].
  apply live_record_lt in E. unfold in_store in Hn.
  apply andb_false_iff in Hn as [Hn%Z.leb_gt|Hn%Z.ltb_ge]; lia.
Qed.

(** Deleting or updating an id that is out of range or a tombstone fails
    and returns the store it was given. *)
Lemma delete_record_fail id db :
  live_record (data_store db) id = None -> delete_record id db = Some (db, false).
Proof.
  intros Hl. unfold delete_record.
  destruct (in_store id db) eqn:E; simpl; [|done].
  destruct (in_store_live id db E) as (slot & -> & Hs). simpl.
  rewrite Hl in Hs. by subst.
Qed.

Lemma update_record_fail id u db :
  live_record (data_store db) id = None -> update_record id u db = Some (db, false).
Proof.
  intros Hl. unfold update_record.
  destruct (in_store id db) eqn:E; simpl; [|done].
  destruct (in_store_live id db E) as (slot & -> & Hs). simpl.
  rewrite Hl in Hs. by subst.
Qed.

(** A mutation returns, keeps the store consistent, never shrinks the
    array of slots and leaves every tombstone in place. *)
Lemma apply_op_ok o db :
  store_ok db ->
  exists db', apply_op o db = Some db' /\ store_ok db'
    /\ (length (data_store db) <= length (data_store db'))%nat
    /\ forall n, data_store db !! n = Some None -> data_store db' !! n = Some None.
Proof.
  intros Hok. destruct o as [rec|id u|id]; simpl.
  - destruct (timestamp rec) as [ts|] eqn:Hts.
    + destruct (insert_record_ok rec db ts Hok Hts) as (db' & -> & Hok' & Hds).
      exists db'. simpl. rewrite Hds. split_and!; try done.
      * rewrite length_app. lia.
      * intros n Hn. by apply lookup_app_l_Some.
    + exists db. split_and!; try done.
  - destruct (live_record (data_store db) id) as [rec|] eqn:Hl.
    + destruct (update_record_ok id u rec db Hok Hl) as (db' & rec' & -> & Hok' & Hds & _).
      exists db'. simpl. rewrite Hds. split_and!; try done.
      * by rewrite length_insert.
      * intros n Hn. apply live_record_Some in Hl as [? Hl].
        rewrite list_lookup_insert_ne; [done|]. intros <-. congruence.
    + rewrite update_record_fail by done. exists db. split_and!; try done.
  - destruct (live_record (data_store db) id) as [rec|] eqn:Hl.
    + destruct (delete_record_ok id rec db Hok Hl) as (db' & -> & Hok' & Hds & _).
      exists db'. simpl. rewrite Hds. split_and!; try done.
      * by rewrite length_insert.
      * intros n Hn. apply live_record_Some in Hl as [? Hl].
        rewrite list_lookup_insert_ne; [done|]. intros <-. congruence.
    + rewrite delete_record_fail by done. exists db. split_and!; try done.
Qed.

Lemma run_ok ops : forall db,
  store_ok db ->
  exists db', run ops db = Some db' /\ store_ok db'
    /\ (length (data_store db) <= length (data_store db'))%nat
    /\ forall n, data_store db !! n = Some None -> data_store db' !! n = Some None.
Proof.
  induction ops as [|o ops IH]; intros db Hok; simpl.
  - exists db. split_and!; done.
  - destruct (apply_op_ok o db Hok) as (db1 & -> & Hok1 & Hlen1 & Ht1). simpl.
    destruct (IH db1 Hok1) as (db2 & Hrun & Hok2 & Hlen2 & Ht2).
    exists db2. split_and!; try done; [lia|eauto].
Qed.

Lemma index_ok_listed {K} `{KeyOrd K} `{!EqDecision K}
    (field : record -> option K) ds (index : AVLTreeMap K (list Z)) id key :
  index_ok (key_at field ds) index ->
  id ∈ bucket index key -> key_at field ds id = Some key.
Proof.
  intros [_ Hocc] Hin. apply occurrences_elem_of in Hin.
  rewrite Hocc in Hin. case_bool_decide; [done|lia].
Qed.

(** C4: after any sequence of [insert_record], [update_record] and
    [delete_record] on an empty store, the mutations all return,
    [active_records] is the number of slots that are not tombstones, and the
    id of every record that is not a tombstone is listed exactly once in the
    bucket of its timestamp, in the bucket of its token and in the bucket of
    its sender wallet (a token or a wallet that is [None] has no bucket). *)
Theorem C4_active_count_and_buckets (ops : list op) :
  exists db,
    run ops empty_db = Some db
    /\ active_records db = live_count (data_store db)
    /\ forall id rec,
         live_record (data_store db) id = Some rec ->
         (exists ts, timestamp rec = Some ts
                     /\ occurrences id (bucket (timestamp_index db) ts) = 1%nat)
         /\ (forall tk, token rec = Some tk ->
               occurrences id (bucket (token_index db) tk) = 1%nat)
         /\ (forall w, wallet_from rec = Some w ->
               occurrences id (bucket (wallet_from_index db) w) = 1%nat).
Proof.
  destruct (run_ok ops empty_db store_ok_empty) as (db & Hrun & Hok & _).
  exists db. destruct Hok as (_ & Hact & Hts & [_ Hi1] & [_ Hi2] & [_ Hi3]).
  split_and!; try done.
  intros id rec Hl. split_and!.
  - destruct (Hts id rec Hl) as [ts Hrec]. exists ts. split; [done|].
    rewrite Hi1. unfold key_at. rewrite Hl. simpl.
    by rewrite bool_decide_eq_true_2.
  - intros tk Htk. rewrite Hi2. unfold key_at. rewrite Hl. simpl.
    by rewrite bool_decide_eq_true_2.
  - intros w Hw. rewrite Hi3. unfold key_at. rewrite Hl. simpl.
    by rewrite bool_decide_eq_true_2.
Qed.

(** C5: in a store reached by any sequence of mutations, deleting the id of
    a record that was inserted and not deleted succeeds: the slot becomes a
    tombstone, the id is in no bucket of the three indexes any more and
    [active_records] is one less.  Deleting the same id again fails, as does
    deleting an id out of range, and both return the store they were given.
    The tombstone stays through all later mutations, and a later insert
    takes a new slot at the end of the array. *)
Theorem C5_delete_record (ops : list op) (db : CryptoDB) (id : Z) (rec : record) :
  run ops empty_db = Some db ->
  live_record (data_store db) id = Some rec ->
  exists db1,
    delete_record id db = Some (db1, true)
    /\ data_store db1 = <[Z.to_nat id := None]> (data_store db)
    /\ active_records db1 = active_records db - 1
    /\ (forall ts, id ∉ bucket (timestamp_index db1) ts)
    /\ (forall tk, id ∉ bucket (token_index db1) tk)
    /\ (forall w, id ∉ bucket (wallet_from_index db1) w)
    /\ delete_record id db1 = Some (db1, false)
    /\ (forall id', in_store id' db1 = false ->
          delete_record id' db1 = Some (db1, false))
    /\ (forall ops' db2, run ops' db1 = Some db2 ->
          data_store db2 !! Z.to_nat id = Some None)
    /\ (forall r db2 id2, insert_record r db1 = Some (db2, id2) ->
          id2 = Z.of_nat (length (data_store db1)) /\ id2 <> id
          /\ data_store db2 = data_store db1 ++ [Some r]).
Proof.
  intros Hrun Hl.
  destruct (run_ok ops empty_db store_ok_empty) as (db' & Hrun' & Hok & _).
  rewrite Hrun in Hrun'. injection Hrun' as <-.
  destruct (delete_record_ok id rec db Hok Hl) as (db1 & Hdel & Hok1 & Hds & Hact).
  pose proof (live_record_lt _ _ _ Hl) as Hid.
  assert (live_record (data_store db1) id = None) as Hdead.
  { rewrite Hds, live_record_insert by done. by rewrite bool_decide_eq_true_2. }
  assert (data_store db1 !! Z.to_nat id = Some None) as Htomb.
  { rewrite Hds. apply list_lookup_insert_eq. lia. }
  exists db1. pose proof Hok1 as (Hnext1 & _ & _ & Hi1 & Hi2 & Hi3).
  split_and!; try done.
  - intros ts Hin. apply (index_ok_listed timestamp) with (ds:=data_store db1) in Hin; [|done].
    unfold key_at in Hin. by rewrite Hdead in Hin.
  - intros tk Hin. apply (index_ok_listed token) with (ds:=data_store db1) in Hin; [|done].
    unfold key_at in Hin. by rewrite Hdead in Hin.
  - intros w Hin. apply (index_ok_listed wallet_from) with (ds:=data_store db1) in Hin; [|done].
    unfold key_at in Hin. by rewrite Hdead in Hin.
  - by apply delete_record_fail.
  - intros id' Hout. by apply delete_record_fail, not_in_store_live.
  - intros ops' db2 Hrun2.
    destruct (run_ok ops' db1 Hok1) as (db2' & Hrun2' & _ & _ & Htombs).
    rewrite Hrun2 in Hrun2'. injection Hrun2' as <-. by apply Htombs.
  - intros r db2 id2 Hins.
    destruct (timestamp r) as [ts|] eqn:Hts; [|by unfold insert_record in Hins; rewrite Hts in Hins].
    destruct (insert_record_ok r db1 ts Hok1 Hts) as (db2' & Hins' & _ & Hds2).
    rewrite Hins in Hins'. injection Hins' as <- ->.
    split_and!; try done. rewrite Hds, length_insert. lia.
Qed.

(** A store with two transfers, for the instances below. *)
Definition transfer (ts : Z) (tk from to : string) (p v : float) : record :=
  {| timestamp := Some ts; token := Some tk; price := Some p;
     volume := Some (Some v);
     wallet_from := Some from; wallet_to := Some to; status := Some "ok"%string;
     deleted_flag := false |}.

Definition two_transfers : list op :=
  [Insert (transfer 100 "BTC" "A" "B" 5 1); Insert (transfer 200 "ETH" "B" "C" 7 2)].

Definition two_transfers_db : CryptoDB :=
  Eval vm_compute in default empty_db (run two_transfers empty_db).

Lemma C5_delete_record_witness :
  run two_transfers empty_db = Some two_transfers_db
  /\ live_record (data_store two_transfers_db) 0
     = Some (transfer 100 "BTC" "A" "B" 5 1)
  /\ exists db1, delete_record 0 two_transfers_db = Some (db1, true)
                 /\ active_records db1 = 1.
Proof.
  split; [reflexivity|]. split; [reflexivity|].
  destruct (C5_delete_record two_transfers two_transfers_db 0
              (transfer 100 "BTC" "A" "B" 5 1) eq_refl eq_refl)
    as (db1 & Hdel & _ & Hact & _).
  exists db1. split; [exact Hdel|exact Hact].
Defined.

End StorageFacts.

(** ** The wallet graph *)

Module GraphFacts.
Import Storage Graph.

(** *** Dicts *)

Section DictFacts.
Context {V : Type}.
Implicit Types (d : list (string * V)) (k : string) (v : V).

Lemma dict_get_set k' k v d :
  dict_get k' (dict_set k v d) = if bool_decide (k' = k) then Some v else dict_get k' d.
Proof.
  induction d as [|[k0 v0] d IH]; simpl.
  - repeat case_bool_decide; congruence.
  - destruct (decide (k0 = k)) as [->|Hne].
    + rewrite bool_decide_eq_true_2 by done. simpl.
      repeat case_bool_decide; congruence.
    + rewrite (bool_decide_eq_false_2 (k0 = k)) by done. simpl. rewrite IH.
      repeat case_bool_decide; congruence.
Qed.

Lemma dict_get_None k d : dict_get k d = None <-> k ∉ dict_keys d.
Proof.
  unfold dict_keys. induction d as [|[k0 v0] d IH]; simpl.
  - split; [intros _; apply not_elem_of_nil|done].
  - rewrite not_elem_of_cons. case_bool_decide; subst.
    + split; [done|]. by intros [? _].
    + rewrite IH. split; [done|]. by intros [_ ?].
Qed.

Lemma dict_keys_set k v d :
  dict_keys (dict_set k v d)
  = if dict_get k d is Some _ then dict_keys d else dict_keys d ++ [k].
Proof.
  unfold dict_keys. induction d as [|[k0 v0] d IH]; [done|].
  cbn [dict_set dict_get]. case_bool_decide; subst.
  - by rewrite !fmap_cons.
  - rewrite !fmap_cons, IH. by destruct (dict_get k d).
Qed.

Lemma dict_keys_set_NoDup k v d : NoDup (dict_keys d) -> NoDup (dict_keys (dict_set k v d)).
Proof.
  intros Hnd. rewrite dict_keys_set. destruct (dict_get k d) eqn:E; [done|].
  apply dict_get_None in E. apply NoDup_app. split_and!; try done.
  - intros x Hx ->%list_elem_of_singleton. done.
  - apply NoDup_singleton.
Qed.

End DictFacts.

Lemma nested_add_get {V} (zero : V) (add : V -> V) w tok
    (d : list (string * list (string * V))) w' tok' :
  dict_get w' (nested_add zero add w tok d) ≫= dict_get tok'
  = if bool_decide (w' = w /\ tok' = tok)
    then Some (add (default zero (dict_get w d ≫= dict_get tok)))
    else dict_get w' d ≫= dict_get tok'.
Proof.
  unfold nested_add, dict_default. rewrite dict_get_set.
  destruct (decide (w' = w)) as [->|Hw].
  - rewrite bool_decide_eq_true_2 by done. simpl. rewrite dict_get_set.
    destruct (dict_get w d) as [inner|] eqn:E; simpl;
      repeat case_bool_decide; try done; intuition congruence.
  - rewrite bool_decide_eq_false_2 by done.
    rewrite bool_decide_eq_false_2; [done|]. by intros [? _].
Qed.

(** *** Building the graph *)

Section BuildFacts.
Variable strip : string -> string.
Implicit Types (g : CryptoGraph) (rec : record) (t : transfer) (ts : list transfer).


(** [add_record] raises exactly on a volume bound to [None]. *)
Lemma add_record_is_Some g rec :
  is_Some (add_record strip g rec) <-> volume rec <> Some None.
Proof.
  unfold add_record, volume_of.
  destruct (volume rec) as [[x|]|]; simpl; split; done.
Qed.

Ltac add_record_returns Hadd :=
  match type of Hadd with
  | add_record _ _ ?rec = Some _ =>
      unfold add_record in Hadd;
      destruct (volume_of rec) as [vol|]; [|discriminate Hadd];
      cbn [mbind option_bind] in Hadd; injection Hadd as <-
  end.

Lemma add_record_skip g rec g' :
  transfer_of strip rec = None -> add_record strip g rec = Some g' -> g' = g.
Proof.
  unfold transfer_of. intros Ht Hadd. add_record_returns Hadd.
  by destruct (present (wallet_from rec)), (present (wallet_to rec)).
Qed.

Lemma add_record_edge g rec g' t u v :
  transfer_of strip rec = Some t -> add_record strip g rec = Some g' ->
  edge g' u v
  = if bool_decide (t_from t = u /\ t_to t = v)
    then Some {| count := count (default zero_edge (edge g u v)) + 1;
                 total_volume := (total_volume (default zero_edge (edge g u v))
                                  + t_volume t)%float |}
    else edge g u v.
Proof.
  unfold transfer_of, edge. intros Ht Hadd. add_record_returns Hadd. revert Ht.
  destruct (present (wallet_from rec)) as [u0|]; [|done].
  destruct (present (wallet_to rec)) as [v0|]; [|done].
  intros [= <-]. simpl. rewrite dict_get_set.
  unfold dict_default.
  destruct (decide (u = u0)) as [->|Hu].
  - rewrite bool_decide_eq_true_2 by done. simpl. rewrite dict_get_set.
    destruct (decide (v = v0)) as [->|Hv].
    + rewrite !bool_decide_eq_true_2 by done.
      destruct (dict_get u0 (graph g)) as [gu|]; simpl.
      * destruct (dict_get v0 gu) as [e|] eqn:E; simpl.
        -- by rewrite E.
        -- rewrite dict_get_set, bool_decide_eq_true_2 by done. done.
      * by rewrite bool_decide_eq_true_2.
    + rewrite (bool_decide_eq_false_2 (v = v0)) by done.
      rewrite (bool_decide_eq_false_2 (u0 = u0 /\ v0 = v)) by (intros [_ ?]; done).
      destruct (dict_get u0 (graph g)) as [gu|]; simpl.
      * destruct (dict_get v0 gu) as [e|] eqn:E; simpl; [done|].
        rewrite dict_get_set. by rewrite bool_decide_eq_false_2.
      * by rewrite bool_decide_eq_false_2.
  - rewrite (bool_decide_eq_false_2 (u = u0)) by done.
    rewrite bool_decide_eq_false_2; [done|]. intros [? _]. done.
Qed.

Lemma add_record_neighbors_NoDup g rec g' :
  add_record strip g rec = Some g' ->
  (forall u, NoDup (dict_keys (neighbors g u))) ->
  forall u, NoDup (dict_keys (neighbors g' u)).
Proof.
  intros Hadd Hnd u. add_record_returns Hadd.
  destruct (present (wallet_from rec)) as [u0|]; [|done].
  destruct (present (wallet_to rec)) as [v0|]; [|done].
  unfold neighbors, dict_default. simpl. rewrite dict_get_set.
  case_bool_decide; [|apply Hnd]. subst. simpl.
  apply dict_keys_set_NoDup.
  specialize (Hnd u0). unfold neighbors, dict_default in Hnd.
  destruct (dict_get v0 (default [] (dict_get u0 (graph g)))); [done|].
  by apply dict_keys_set_NoDup.
Qed.

Lemma add_record_nonempty g rec g' :
  add_record strip g rec = Some g' ->
  (forall u nb, dict_get u (graph g) = Some nb -> nb <> []) ->
  forall u nb, dict_get u (graph g') = Some nb -> nb <> [].
Proof.
  intros Hadd Hne u nb. add_record_returns Hadd.
  destruct (present (wallet_from rec)) as [u0|]; [|apply Hne].
  destruct (present (wallet_to rec)) as [v0|]; [|apply Hne].
  simpl. rewrite dict_get_set. case_bool_decide; [|apply Hne].
  intros [= <-]. intros Hnil.
  apply (f_equal (dict_get v0)) in Hnil. rewrite dict_get_set in Hnil.
  by rewrite bool_decide_eq_true_2 in Hnil.
Qed.

Lemma add_record_counter g rec g' t w tok :
  transfer_of strip rec = Some t -> add_record strip g rec = Some g' ->
  counter (wallet_token_counts g') w tok
  = bump 0 (fun n => n + 1) (bool_decide (t_to t = w /\ t_token t = tok))
      (bump 0 (fun n => n + 1) (bool_decide (t_from t = w /\ t_token t = tok))
         (counter (wallet_token_counts g) w tok)).
Proof.
  unfold transfer_of, counter. intros Ht Hadd. add_record_returns Hadd. revert Ht.
  destruct (present (wallet_from rec)) as [u0|]; [|done].
  destruct (present (wallet_to rec)) as [v0|]; [|done].
  intros [= <-]. simpl. rewrite nested_add_get. unfold bump.
  case_bool_decide as E2.
  - destruct E2 as [-> ->]. rewrite nested_add_get.
    rewrite (bool_decide_ext (v0 = u0 /\ strip (default ""%string (token rec))
                                        = strip (default ""%string (token rec)))
               (u0 = v0 /\ strip (default ""%string (token rec))
                           = strip (default ""%string (token rec))))
      by (split; intros [? ?]; by split).
    rewrite (bool_decide_eq_true_2 (v0 = v0 /\ _)) by done.
    case_bool_decide as E1; [destruct E1 as [-> _]|]; done.
  - rewrite nested_add_get.
    rewrite (bool_decide_ext (w = u0 /\ tok = strip (default ""%string (token rec)))
               (u0 = w /\ strip (default ""%string (token rec)) = tok))
      by (split; intros [? ?]; by split).
    rewrite (bool_decide_eq_false_2 (v0 = w /\ _)).
    2:{ intros [? ?]. apply E2. by split. }
    case_bool_decide as E1; [destruct E1 as [-> <-]|]; done.
Qed.

Lemma add_record_volume g rec g' t w tok :
  transfer_of strip rec = Some t -> add_record strip g rec = Some g' ->
  volume_counter (wallet_token_volume g') w tok
  = bump 0%float (fun x => (x + t_volume t)%float)
      (bool_decide (t_to t = w /\ t_token t = tok))
      (bump 0%float (fun x => (x + t_volume t)%float)
         (bool_decide (t_from t = w /\ t_token t = tok))
         (volume_counter (wallet_token_volume g) w tok)).
Proof.
  unfold transfer_of, volume_counter. intros Ht Hadd. add_record_returns Hadd. revert Ht.
  destruct (present (wallet_from rec)) as [u0|]; [|done].
  destruct (present (wallet_to rec)) as [v0|]; [|done].
  intros [= <-]. simpl. rewrite nested_add_get. unfold bump.
  case_bool_decide as E2.
  - destruct E2 as [-> ->]. rewrite nested_add_get.
    rewrite (bool_decide_ext (v0 = u0 /\ strip (default ""%string (token rec))
                                        = strip (default ""%string (token rec)))
               (u0 = v0 /\ strip (default ""%string (token rec))
                           = strip (default ""%string (token rec))))
      by (split; intros [? ?]; by split).
    rewrite (bool_decide_eq_true_2 (v0 = v0 /\ _)) by done.
    case_bool_decide as E1; [destruct E1 as [-> _]|]; done.
  - rewrite nested_add_get.
    rewrite (bool_decide_ext (w = u0 /\ tok = strip (default ""%string (token rec)))
               (u0 = w /\ strip (default ""%string (token rec)) = tok))
      by (split; intros [? ?]; by split).
    rewrite (bool_decide_eq_false_2 (v0 = w /\ _)).
    2:{ intros [? ?]. apply E2. by split. }
    case_bool_decide as E1; [destruct E1 as [-> <-]|]; done.
Qed.

End BuildFacts.

Section BuildSpec.
Variable strip : string -> string.
Implicit Types (g : CryptoGraph) (rec : record) (t : transfer) (ts : list transfer).


Lemma float_sum_snoc xs x : float_sum (xs ++ [x]) = (float_sum xs + x)%float.
Proof. unfold float_sum. by rewrite foldl_snoc. Qed.

Lemma edge_of_default ts u v :
  default zero_edge (edge_of ts u v)
  = {| count := Z.of_nat (length (filter (matches u v) ts));
       total_volume := float_sum (t_volume <$> filter (matches u v) ts) |}.
Proof.
  unfold edge_of. fold (matches u v). by destruct (filter (matches u v) ts).
Qed.

Lemma edge_of_snoc ts t u v :
  edge_of (ts ++ [t]) u v
  = if bool_decide (t_from t = u /\ t_to t = v)
    then Some {| count := count (default zero_edge (edge_of ts u v)) + 1;
                 total_volume := (total_volume (default zero_edge (edge_of ts u v))
                                  + t_volume t)%float |}
    else edge_of ts u v.
Proof.
  rewrite edge_of_default. unfold edge_of. fold (matches u v).
  rewrite filter_app. case_bool_decide as E.
  - rewrite (filter_cons_True (matches u v)) by done. rewrite filter_nil.
    generalize (filter (matches u v) ts). intros ms.
    transitivity (Some {| count := Z.of_nat (length (ms ++ [t]));
                          total_volume := float_sum (t_volume <$> ms ++ [t]) |}).
    { by destruct ms. }
    rewrite fmap_app. change (t_volume <$> [t]) with [t_volume t].
    rewrite float_sum_snoc, length_app. simpl. f_equal. f_equal. lia.
  - rewrite (filter_cons_False (matches u v)) by done.
    by rewrite filter_nil, app_nil_r.
Qed.

Lemma bump_of_contributions {V} (zero : V) (add : V -> V)
    (measure : list float -> V) (x : float) (b : bool) cs :
  measure [] = zero -> (forall cs, measure (cs ++ [x]) = add (measure cs)) ->
  bump zero add b (of_contributions measure cs)
  = of_contributions measure (cs ++ if b then [x] else []).
Proof.
  intros H0 Hsnoc. destruct b; simpl; [|by rewrite app_nil_r].
  destruct cs as [|c cs]; simpl; f_equal.
  - rewrite <- H0. symmetry. apply (Hsnoc []).
  - symmetry. apply (Hsnoc (c :: cs)).
Qed.

Lemma all_contributions_snoc ts t w tok :
  all_contributions (ts ++ [t]) w tok
  = (all_contributions ts w tok
     ++ (if bool_decide (t_from t = w /\ t_token t = tok) then [t_volume t] else []))
    ++ (if bool_decide (t_to t = w /\ t_token t = tok) then [t_volume t] else []).
Proof.
  unfold all_contributions. rewrite fmap_app, concat_app. simpl.
  unfold contributions. by rewrite app_nil_r, app_assoc.
Qed.

Lemma built_empty : built empty_graph [].
Proof.
  split_and!; try done.
  intros u. unfold neighbors, dict_default. simpl. apply NoDup_nil_2.
Qed.

Lemma built_step g ts rec g' :
  built g ts -> add_record strip g rec = Some g' ->
  built g' (ts ++ from_option (fun t => [t]) [] (transfer_of strip rec)).
Proof.
  intros (He & Hnd & Hne & Hc & Hv) Hadd.
  destruct (transfer_of strip rec) as [t|] eqn:Ht; simpl.
  - split_and!.
    + intros u v. rewrite (add_record_edge strip g rec g' t) by done.
      by rewrite edge_of_snoc, He.
    + by apply (add_record_neighbors_NoDup strip g rec).
    + by apply (add_record_nonempty strip g rec).
    + intros w tok. rewrite (add_record_counter strip g rec g' t) by done.
      rewrite Hc, all_contributions_snoc.
      rewrite (bump_of_contributions 0 _ count_measure (t_volume t)); [|done|].
      * rewrite (bump_of_contributions 0 _ count_measure (t_volume t)); [done|done|].
        intros cs. unfold count_measure. rewrite length_app. simpl. lia.
      * intros cs. unfold count_measure. rewrite length_app. simpl. lia.
    + intros w tok. rewrite (add_record_volume strip g rec g' t) by done.
      rewrite Hv, all_contributions_snoc.
      rewrite (bump_of_contributions 0%float _ float_sum (t_volume t)); [|done|].
      * rewrite (bump_of_contributions 0%float _ float_sum (t_volume t)); [done|done|].
        intros cs. apply float_sum_snoc.
      * intros cs. apply float_sum_snoc.
  - rewrite (add_record_skip strip g rec g') by done. by rewrite app_nil_r.
Qed.

Lemma built_add_records slots g ts g' :
  built g ts -> add_records strip g slots = Some g' ->
  built g' (ts ++ omap (fun slot => slot ≫= transfer_of strip) slots).
Proof.
  revert g ts. induction slots as [|[rec|] slots IH]; intros g ts Hb Hrun.
  - injection Hrun as <-. by rewrite app_nil_r.
  - cbn [add_records] in Hrun.
    destruct (add_record strip g rec) as [g1|] eqn:Hadd; [|done].
    cbn [mbind option_bind] in Hrun.
    pose proof (IH _ _ (built_step g ts rec g1 Hb Hadd) Hrun) as Hb'.
    rewrite <- app_assoc in Hb'. cbn [omap list_omap mbind option_bind].
    by destruct (transfer_of strip rec).
  - exact (IH g ts Hb Hrun).
Qed.

(** The loop returns exactly when no record has a volume bound to
    [None]. *)
Lemma add_records_is_Some slots g :
  is_Some (add_records strip g slots)
  <-> forall rec, Some rec ∈ slots -> volume rec <> Some None.
Proof.
  revert g. induction slots as [|[rec|] slots IH]; intros g; cbn [add_records].
  - split; [by intros _ rec ?%elem_of_nil|by eexists].
  - pose proof (add_record_is_Some strip g rec) as Hrec.
    destruct (add_record strip g rec) as [g1|]; cbn [mbind option_bind].
    + rewrite IH. split.
      * intros Hall r [[= ->]|Hin]%elem_of_cons; [by apply Hrec|by apply Hall].
      * intros Hall r Hin. apply Hall. by right.
    + split; [by intros [? [=]]|]. intros Hall.
      destruct (proj2 Hrec) as [? [=]]. apply Hall. by left.
  - rewrite IH. split.
    + intros Hall r [[=]|Hin]%elem_of_cons. by apply Hall.
    + intros Hall r Hin. apply Hall. by right.
Qed.

End BuildSpec.

(** *** Breadth-first traversal *)

Section BfsFacts.
Variables (g : CryptoGraph) (start : string).
Implicit Types (visited : gset string) (queue order ks : list string).

Lemma neighbors_targets u x :
  x ∈ dict_keys (dict_default [] u (graph g)) -> x ∈ targets g.
Proof.
  unfold dict_default, targets. generalize (graph g). intros d.
  induction d as [|[k nb] d IH]; simpl; [by intros ?%elem_of_nil|].
  rewrite elem_of_app. case_bool_decide; simpl; [by left|].
  intros Hx. right. by apply IH.
Qed.

Lemma bfs_visit_inv visited queue order v :
  bfs_inv g start visited queue order -> v ∈ targets g ->
  bfs_inv g start (bfs_visit (visited, queue) v).1 (bfs_visit (visited, queue) v).2 order.
Proof.
  intros (Hnd & Hvis & Hin) Hv. unfold bfs_visit. simpl.
  case_bool_decide as E; simpl; [done|].
  split_and!.
  - rewrite app_assoc. apply NoDup_app. split_and!; try done.
    + intros x Hx ->%list_elem_of_singleton. by apply E, Hvis.
    + apply NoDup_singleton.
  - intros x. rewrite elem_of_union, elem_of_singleton, Hvis, !elem_of_app,
      list_elem_of_singleton. tauto.
  - intros x. rewrite app_assoc, elem_of_app, list_elem_of_singleton.
    intros [Hx| ->]; [by apply Hin|]. by right.
Qed.

Lemma bfs_fold_inv ks : forall visited queue order,
  bfs_inv g start visited queue order -> (forall x, x ∈ ks -> x ∈ targets g) ->
  bfs_inv g start (foldl bfs_visit (visited, queue) ks).1
                  (foldl bfs_visit (visited, queue) ks).2 order.
Proof.
  induction ks as [|k ks IH]; intros visited queue order Hinv Hks; simpl; [done|].
  destruct (bfs_visit (visited, queue) k) as [visited' queue'] eqn:E.
  apply IH.
  - pose proof (bfs_visit_inv visited queue order k Hinv) as Hstep.
    rewrite E in Hstep. apply Hstep, Hks. by left.
  - intros x Hx. apply Hks. by right.
Qed.

Lemma bfs_inv_length visited queue order :
  bfs_inv g start visited queue order ->
  (length order + length queue <= S (length (targets g)))%nat.
Proof.
  intros (Hnd & _ & Hin). rewrite <- length_app.
  change (S (length (targets g))) with (length (start :: targets g)).
  apply submseteq_length, NoDup_submseteq; done.
Qed.

Lemma bfs_loop_ok : forall fuel visited queue order,
  bfs_inv g start visited queue order ->
  (S (length (targets g)) <= fuel + length order)%nat ->
  exists result, bfs_loop fuel g visited queue order = Some result /\ NoDup result.
Proof.
  induction fuel as [|fuel IH]; intros visited queue order Hinv Hfuel.
  - pose proof (bfs_inv_length _ _ _ Hinv) as Hlen.
    destruct queue as [|u queue]; simpl in *; [|lia].
    destruct Hinv as (Hnd & _). rewrite app_nil_r in Hnd. eauto.
  - destruct queue as [|u queue]; simpl.
    { destruct Hinv as (Hnd & _). rewrite app_nil_r in Hnd. eauto. }
    destruct (foldl bfs_visit (visited, queue)
                (dict_keys (dict_default [] u (graph g)))) as [visited' queue'] eqn:E.
    apply IH.
    + assert (bfs_inv g start visited queue (order ++ [u])) as Hpop.
      { destruct Hinv as (Hnd & Hvis & Hin).
        split_and!.
        - by rewrite <- app_assoc.
        - intros x. by rewrite Hvis, <- app_assoc.
        - intros x. rewrite <- app_assoc. apply Hin. }
      pose proof (bfs_fold_inv (dict_keys (dict_default [] u (graph g)))
                    visited queue (order ++ [u]) Hpop) as Hfold.
      rewrite E in Hfold. apply Hfold. intros x. apply neighbors_targets.
    + rewrite length_app. simpl. lia.
Qed.

Lemma bfs_ok :
  exists order, bfs g start = Some order /\ NoDup order.
Proof.
  unfold bfs. destruct (dict_get start (graph g)).
  - apply bfs_loop_ok; [|simpl; lia].
    split_and!; simpl.
    + apply NoDup_singleton.
    + intros x. by rewrite elem_of_singleton, list_elem_of_singleton.
    + intros x ->%list_elem_of_singleton. by left.
  - exists [start]. split; [done|apply NoDup_singleton].
Qed.

End BfsFacts.

Section Claims.
Variable strip : string -> string.

Lemma build_graph_built self db g :
  build_graph_from_db strip self db = Some g -> built g (transfers strip db).
Proof. intros Hrun. exact (built_add_records strip _ _ [] _ built_empty Hrun). Qed.

Lemma no_outgoing_not_in_graph g ts start :
  built g ts -> (forall t, t ∈ ts -> t_from t <> start) ->
  dict_get start (graph g) = None.
Proof.
  intros (He & _ & Hne & _) Hno.
  destruct (dict_get start (graph g)) as [nb|] eqn:E; [|done].
  destruct nb as [|[v e] nb]; [by destruct (Hne start [] E)|].
  specialize (He start v). unfold edge in He. rewrite E in He. simpl in He.
  rewrite bool_decide_eq_true_2 in He by done.
  unfold edge_of in He.
  destruct (filter (fun t => t_from t = start /\ t_to t = v) ts) as [|m ms] eqn:Hf;
    [done|].
  assert (m ∈ filter (fun t => t_from t = start /\ t_to t = v) ts) as Hm
    by (rewrite Hf; by left).
  apply list_elem_of_filter in Hm as [[Hm _] Hin]. by destruct (Hno m Hin).
Qed.

(** C6, as amended: rebuilding does not depend on the previous graph.  It
    reads the [volume] of every record that is not a tombstone, whatever
    the wallets of the record, and raises [TypeError] when that key is
    bound to [None]: it returns a graph exactly when no such record is in
    the store.  In the graph it returns, the edge from [u] to [v] exists
    exactly when a record that is not a tombstone and has both wallets goes
    from [u] to [v]; its count is the number of these records and its
    [total_volume] the sum, in the order of the store, of their [volume]
    field (0.0 when the key is absent): it is the volume that is added, not
    the amount.  A wallet has one edge at most to each wallet.  The
    counters of a wallet and a (stripped) token count, and sum the volume
    of, the records where the wallet is the sender and those where it is
    the receiver. *)
Theorem C6_build_graph_from_db (self other : CryptoGraph) (db : CryptoDB) :
  let ts := transfers strip db in
  build_graph_from_db strip other db = build_graph_from_db strip self db
  /\ (is_Some (build_graph_from_db strip self db)
      <-> forall rec, Some rec ∈ data_store db -> volume rec <> Some None)
  /\ forall g, build_graph_from_db strip self db = Some g ->
       (forall u v, edge g u v = edge_of ts u v)
       /\ (forall u, NoDup (dict_keys (neighbors g u)))
       /\ (forall w tok,
             counter (wallet_token_counts g) w tok
             = of_contributions count_measure (all_contributions ts w tok))
       /\ (forall w tok,
             volume_counter (wallet_token_volume g) w tok
             = of_contributions float_sum (all_contributions ts w tok)).
Proof.
  intros ts. split_and!.
  - done.
  - apply add_records_is_Some.
  - intros g Hrun.
    destruct (build_graph_built self db g Hrun) as (He & Hnd & _ & Hc & Hv).
    split_and!; done.
Qed.

(** C10: in a graph built from a store, that is in every graph that
    [build_graph_from_db] returns, the traversal from a wallet that has no
    outgoing edge, or that is the sender of no transfer, is that wallet
    alone; from every wallet the traversal returns and lists no wallet
    twice. *)
Theorem C10_bfs_without_outgoing_edge (self : CryptoGraph) (db : CryptoDB)
    (g : CryptoGraph) (start : string) :
  build_graph_from_db strip self db = Some g ->
  (neighbors g start = [] -> bfs g start = Some [start])
  /\ ((forall t, t ∈ transfers strip db -> t_from t <> start) ->
      bfs g start = Some [start])
  /\ exists order, bfs g start = Some order /\ NoDup order.
Proof.
  intros Hb%build_graph_built.
  split_and!.
  - intros Hn. unfold bfs. destruct (dict_get start (graph g)) as [nb|] eqn:E; [|done].
    destruct Hb as (_ & _ & Hne & _). destruct (Hne start nb E).
    unfold neighbors, dict_default in Hn. by rewrite E in Hn.
  - intros Hno. unfold bfs.
    by rewrite (no_outgoing_not_in_graph g _ start Hb Hno).
  - apply bfs_ok.
Qed.

End Claims.

(** The graph of a store with a transfer from A to B and one from B to C. *)
Definition two_edges : CryptoGraph :=
  default empty_graph
    (build_graph_from_db (fun s => s) empty_graph StorageFacts.two_transfers_db).

(** The store of the two transfers after the volume of the first is set
    to [None]. *)
Definition volume_unset : list op :=
  StorageFacts.two_transfers
  ++ [Update 0 {| u_timestamp := None; u_token := None; u_price := None;
                  u_volume := Some None; u_wallet_from := None;
                  u_wallet_to := None; u_status := None;
                  u_deleted_flag := None |}].

Definition volume_unset_db : CryptoDB :=
  Eval vm_compute in default empty_db (run volume_unset empty_db).

Lemma C6_build_graph_from_db_witness :
  build_graph_from_db (fun s => s) empty_graph StorageFacts.two_transfers_db
  = Some two_edges
  /\ edge two_edges "A" "B" = Some {| count := 1; total_volume := 1%float |}
  /\ edge two_edges "A" "C" = None
  /\ run volume_unset empty_db = Some volume_unset_db
  /\ build_graph_from_db (fun s => s) empty_graph volume_unset_db = None.
Proof.
  assert (build_graph_from_db (fun s => s) empty_graph StorageFacts.two_transfers_db
          = Some two_edges) as Hrun by reflexivity.
  destruct (C6_build_graph_from_db (fun s => s) empty_graph empty_graph
              StorageFacts.two_transfers_db) as (_ & _ & Hbuilt).
  destruct (Hbuilt two_edges Hrun) as (He & _).
  split_and!; [exact Hrun|by rewrite He|by rewrite He|reflexivity|].
  destruct (C6_build_graph_from_db (fun s => s) empty_graph empty_graph
              volume_unset_db) as (_ & Hreturns & _).
  destruct (build_graph_from_db (fun s => s) empty_graph volume_unset_db)
    as [g|] eqn:E; [|reflexivity].
  destruct (proj1 Hreturns (ex_intro _ g eq_refl)
              (updated_record (StorageFacts.transfer 100 "BTC" "A" "B" 5 1)
                 {| u_timestamp := None; u_token := None; u_price := None;
                    u_volume := Some None; u_wallet_from := None;
                    u_wallet_to := None; u_status := None;
                    u_deleted_flag := None |} 100 (Some "BTC"%string)
                 (Some "A"%string))).
  - vm_compute. left.
  - reflexivity.
Defined.

Lemma C10_bfs_without_outgoing_edge_witness :
  build_graph_from_db (fun s => s) empty_graph StorageFacts.two_transfers_db
  = Some two_edges
  /\ neighbors two_edges "C" = []
  /\ bfs two_edges "C" = Some ["C"%string].
Proof.
  assert (build_graph_from_db (fun s => s) empty_graph StorageFacts.two_transfers_db
          = Some two_edges) as Hrun by reflexivity.
  split_and!; [exact Hrun|reflexivity|].
  apply (proj1 (C10_bfs_without_outgoing_edge (fun s => s) empty_graph
                  StorageFacts.two_transfers_db two_edges "C" Hrun)).
  reflexivity.
Defined.

(** C6 as it is stated fails: with one transfer of amount 5 and volume 1
    from A to B, the edge from A to B has a total of 1, the volume. *)
Lemma C6_total_is_not_the_amount :
  ~ (forall (strip : string -> string) (self : CryptoGraph) (db : CryptoDB)
       (g : CryptoGraph) (u v : string) (e : edge_stats),
       build_graph_from_db strip self db = Some g ->
       edge g u v = Some e ->
       total_volume e = amount_total db u v).
Proof.
  intros Hclaim.
  specialize (Hclaim (fun s => s) empty_graph StorageFacts.two_transfers_db
                _ "A"%string "B"%string _ eq_refl eq_refl).
  apply (f_equal (fun x => PrimFloat.ltb x 3%float)) in Hclaim.
  vm_compute in Hclaim. discriminate.
Qed.

(** *** Shortest paths *)

Section PathFacts.
Variables (g : CryptoGraph) (src dst : string).
Implicit Types (visited : gset string) (queue : list (string * list string)).
Implicit Types (taken ks news p prefix : list string).

Lemma chain_snoc p u w :
  chain g p -> last p = Some u -> edge_to g u w -> chain g (p ++ [w]).
Proof.
  induction p as [|a [|b p] IH]; simpl; intros Hc Hl He; [done| |].
  - injection Hl as ->. done.
  - destruct Hc as [Hab Hc]. split; [done|]. by apply IH.
Qed.

Lemma chain_snoc_inv p u w :
  chain g ((p ++ [u]) ++ [w]) -> chain g (p ++ [u]) /\ edge_to g u w.
Proof.
  induction p as [|a p IH]; simpl.
  - intros [He _]. done.
  - destruct (p ++ [u]) as [|b q] eqn:E; [by destruct p|].
    simpl. intros [Hab Hc]. destruct (IH Hc) as [Hq He]. done.
Qed.

Lemma is_path_snoc p u w :
  is_path g src u p -> edge_to g u w -> is_path g src w (p ++ [w]).
Proof.
  intros (Hh & Hl & Hc) He. split_and!.
  - destruct p; [done|]. done.
  - apply last_snoc.
  - by apply chain_snoc with u.
Qed.

Lemma is_path_start : is_path g src src [src].
Proof. by split_and!. Qed.

(** A path of [S m] wallets reaches its end in [m] hops. *)
Lemma is_path_reach : forall p y,
  is_path g src y p -> reach_in g src (pred (length p)) y.
Proof.
  induction p as [|w p IH] using rev_ind; intros y (Hh & Hl & Hc); [done|].
  rewrite last_snoc in Hl. injection Hl as ->.
  rewrite length_app. simpl. rewrite Nat.add_1_r. simpl.
  destruct p as [|z p _] using rev_ind.
  - simpl in *. by injection Hh as ->.
  - apply chain_snoc_inv in Hc as [Hc He].
    rewrite length_app. simpl. rewrite Nat.add_1_r.
    exists z. split; [|done].
    specialize (IH z). rewrite length_app in IH. simpl in IH.
    rewrite Nat.add_1_r in IH. apply IH. split_and!; [|apply last_snoc|done].
    rewrite <- Hh. destruct p; done.
Qed.

(** The inner loop of [shortest_path] queues, with the path through [u], the
    keys that were not visited, once each. *)
Lemma path_fold_spec u prefix ks : forall visited queue,
  exists news,
    foldl (path_visit u prefix) (visited, queue) ks
    = (list_to_set news ∪ visited, queue ++ ((fun v => (v, prefix ++ [u])) <$> news))
    /\ NoDup news
    /\ (forall v, v ∈ news -> (v ∉ visited) /\ v ∈ ks)
    /\ (forall v, v ∈ ks -> v ∈ visited \/ v ∈ news).
Proof.
  induction ks as [|k ks IH]; intros visited queue; simpl.
  - exists []. simpl. rewrite app_nil_r. split_and!.
    + f_equal. symmetry. apply (left_id_L ∅ (∪)).
    + constructor.
    + by intros v ?%elem_of_nil.
    + by intros v ?%elem_of_nil.
  - unfold path_visit at 2. simpl. case_bool_decide as E.
    + destruct (IH visited queue) as (news & -> & Hnd & Hnew & Hks).
      exists news. split_and!; [done|done| |].
      * intros v Hv. destruct (Hnew v Hv). split; [done|by right].
      * intros v [->|Hv]%elem_of_cons; [by left|by apply Hks].
    + destruct (IH ({[k]} ∪ visited) (queue ++ [(k, prefix ++ [u])]))
        as (news & -> & Hnd & Hnew & Hks).
      exists (k :: news). split_and!.
      * rewrite fmap_cons, <- app_assoc. simpl. f_equal.
        apply set_eq. intros x. rewrite !elem_of_union. tauto.
      * constructor; [|done]. intros Hk. destruct (Hnew k Hk) as [Hn _].
        apply Hn, elem_of_union_l. by apply elem_of_singleton.
      * intros v [->|Hv]%elem_of_cons; [split; [done|by left]|].
        destruct (Hnew v Hv) as [Hn Hin].
        split; [intros Hin'; by apply Hn, elem_of_union_r|by right].
      * intros v [->|Hv]%elem_of_cons; [right; by left|].
        destruct (Hks v Hv) as [Hin|Hin]; [|right; by right].
        apply elem_of_union in Hin as [->%elem_of_singleton|Hin];
          [right; by left|by left].
Qed.

Lemma queued_wallets (f : string -> list string) news :
  ((fun v => (v, f v)) <$> news).*1 = news.
Proof. induction news as [|v news IH]; [done|]. rewrite !fmap_cons. simpl. f_equal. exact IH. Qed.

(** Wallets reached from [src] stay within a set of wallets that holds [src]
    and is closed under the edges. *)
Lemma reach_in_closed (X : string -> Prop) :
  X src -> (forall x y, X x -> edge_to g x y -> X y) ->
  forall m y, reach_in g src m y -> X y.
Proof.
  intros Hs Hc. induction m as [|m IH]; simpl; intros y.
  - by intros ->.
  - intros (z & Hz & He). apply (Hc z); [by apply IH|done].
Qed.

Lemma path_inv_start :
  path_inv g src dst [] {[src]} [(src, [])].
Proof.
  split; simpl.
  - intros u prefix [= -> ->]%list_elem_of_singleton. apply is_path_start.
  - repeat constructor.
  - intros e1 e2 [= <-] ->%list_elem_of_singleton. simpl. lia.
  - apply NoDup_singleton.
  - intros x. by rewrite elem_of_singleton, list_elem_of_singleton.
  - intros x ->%list_elem_of_singleton. by left.
  - by intros x y ?%elem_of_nil.
  - by apply elem_of_singleton.
  - by intros ?%elem_of_nil.
  - intros e1 y m [= <-]. simpl. intros Hm Hy.
    assert (m = 0%nat) as -> by lia. simpl in Hy. subst y.
    right. exists []. split; [by apply list_elem_of_singleton|done].
Qed.

(** One round of the loop of [shortest_path] keeps its state. *)
Lemma path_inv_step taken visited u prefix rest :
  path_inv g src dst taken visited ((u, prefix) :: rest) -> u <> dst ->
  let acc := foldl (path_visit u prefix) (visited, rest)
               (dict_keys (dict_default [] u (graph g))) in
  path_inv g src dst (taken ++ [u]) acc.1 acc.2.
Proof.
  intros [Hpaths Hsorted Hclose Hnd Hvis Htg Hclosed Hsrc Hdst Hreach] Hne acc.
  subst acc.
  destruct (path_fold_spec u prefix (dict_keys (dict_default [] u (graph g)))
              visited rest) as (news & -> & Hnn & Hnew & Hks).
  simpl fst. simpl snd.
  set (new := (fun v => (v, prefix ++ [u])) <$> news).
  simpl in Hnd, Hvis, Htg.
  apply StronglySorted_cons in Hsorted as [Hall Hsorted].
  rewrite Forall_forall in Hall. simpl in Hall.
  assert (forall e, e ∈ rest ->
            (length prefix <= length e.2 <= S (length prefix))%nat) as Hrest.
  { intros e He. split; [by apply Hall|].
    apply (Hclose (u, prefix) e eq_refl). by right. }
  assert (forall e, e ∈ new -> length e.2 = S (length prefix)) as Hlnew.
  { intros e (v & -> & Hv)%list_elem_of_fmap. simpl.
    rewrite length_app. simpl. lia. }
  assert (new.*1 = news) as Hfst by apply (queued_wallets (fun _ => prefix ++ [u])).
  assert (forall x, x ∈ list_to_set news ∪ visited
                    <-> x ∈ (taken ++ [u]) ++ (rest ++ new).*1) as Hvis'.
  { intros x. rewrite elem_of_union, elem_of_list_to_set, Hvis, fmap_app, Hfst.
    rewrite !elem_of_app, elem_of_cons, list_elem_of_singleton. tauto. }
  assert (forall x y, x ∈ taken ++ [u] -> edge_to g x y ->
                      y ∈ list_to_set news ∪ visited) as Hclosed'.
  { intros x y [Hx| ->%list_elem_of_singleton]%elem_of_app He.
    - apply elem_of_union_r. by apply (Hclosed x).
    - destruct (Hks y He) as [Hy|Hy].
      + by apply elem_of_union_r.
      + by apply elem_of_union_l, elem_of_list_to_set. }
  assert (forall e, e ∈ rest ++ new -> 
            (length prefix <= length e.2 <= S (length prefix))%nat) as Hlev.
  { intros e [He|He]%elem_of_app; [by apply Hrest|].
    rewrite (Hlnew e He). lia. }
  split.
  - intros w pw [Hw|Hw]%elem_of_app.
    + apply Hpaths. by right.
    + apply list_elem_of_fmap in Hw as (v & [= -> ->] & Hv).
      apply is_path_snoc with u.
      * apply Hpaths. by left.
      * by apply Hnew.
  - apply StronglySorted_app. split_and!; [|done|].
    + intros e1 e2 He1 He2. rewrite (Hlnew e2 He2). by apply Hrest.
    + subst new. clear. induction news as [|v news IH]; simpl; constructor; [done|].
      apply Forall_forall. intros e (w & -> & _)%list_elem_of_fmap. done.
  - intros e1 e2 He1%head_Some_elem_of He2.
    pose proof (Hlev e1 He1). pose proof (Hlev e2 He2). lia.
  - rewrite fmap_app, Hfst, app_assoc, <- (app_assoc taken). simpl.
    apply NoDup_app. split_and!; [done| |done].
    intros x Hx Hx'. destruct (Hnew x Hx') as [Hn _]. by apply Hn, Hvis.
  - done.
  - intros x. rewrite fmap_app, Hfst, app_assoc, <- (app_assoc taken). simpl.
    intros [Hx|Hx]%elem_of_app; [by apply Htg|].
    right. apply (neighbors_targets g u). by apply Hnew.
  - done.
  - by apply elem_of_union_r.
  - intros [Hd| ->%list_elem_of_singleton]%elem_of_app; [by apply Hdst|done].
  - intros e1 y m He1 Hm Hy.
    pose proof (Hlev e1 (head_Some_elem_of _ _ He1)) as Hl1.
    assert (forall pre, (y, pre) ∈ (u, prefix) :: rest ->
              y ∈ taken ++ [u] \/ (y, pre) ∈ rest ++ new) as Hmove.
    { intros pre [[= -> ->]|Hin]%elem_of_cons.
      - left. apply elem_of_app. right. by apply list_elem_of_singleton.
      - right. apply elem_of_app. by left. }
    destruct (decide (m <= length prefix)%nat) as [Hle|Hgt].
    + destruct (Hreach (u, prefix) y m eq_refl Hle Hy) as [Hin|(pre & Hin & Hlen)].
      * left. apply elem_of_app. by left.
      * destruct (Hmove pre Hin) as [?|?]; [by left|right; by exists pre].
    + assert (m = S (length prefix)) as -> by lia.
      assert (length e1.2 = S (length prefix)) as Hl1' by lia.
      assert (forall e, e ∈ rest -> length e.2 = S (length prefix)) as Hup.
      { intros e He. pose proof (Hrest e He) as Hb.
        destruct rest as [|r rest']; [by apply elem_of_nil in He|].
        simpl in He1. injection He1 as ->.
        apply StronglySorted_cons in Hsorted as [Hall' _].
        rewrite Forall_forall in Hall'.
        apply elem_of_cons in He as [->|He]; [done|].
        specialize (Hall' e He). simpl in Hall'. lia. }
      simpl in Hy. destruct Hy as (z & Hz & He).
      assert (z ∈ taken ++ [u]) as Hz'.
      { destruct (Hreach (u, prefix) z (length prefix) eq_refl (le_n _) Hz)
          as [Hin|(pz & Hin & Hlen)].
        - apply elem_of_app. by left.
        - apply elem_of_cons in Hin as [[= -> ->]|Hin].
          + apply elem_of_app. right. by apply list_elem_of_singleton.
          + specialize (Hup _ Hin). simpl in Hup. lia. }
      pose proof (Hclosed' z y Hz' He) as Hvy. apply Hvis' in Hvy.
      apply elem_of_app in Hvy as [Hvy|Hvy]; [by left|].
      right. apply list_elem_of_fmap in Hvy as ([y' pre] & -> & Hin).
      exists pre. split; [done|]. apply (Hlev _ Hin).
Qed.


Lemma path_inv_length taken visited queue :
  path_inv g src dst taken visited queue ->
  (length taken + length queue <= S (length (targets g)))%nat.
Proof.
  intros Hinv. rewrite <- (length_fmap fst queue), <- length_app.
  change (S (length (targets g))) with (length (src :: targets g)).
  apply submseteq_length, NoDup_submseteq; [apply Hinv|].
  intros x. apply Hinv.
Qed.

(** The queue is empty: every wallet reached from [src] was taken, and
    [dst] was not. *)
Lemma path_inv_empty taken visited :
  path_inv g src dst taken visited [] -> forall m, ~ reach_in g src m dst.
Proof.
  intros Hinv m Hm. apply (inv_dst _ _ _ _ _ _ Hinv).
  apply (reach_in_closed (fun x => x ∈ taken)) with m; [| |done].
  - pose proof (inv_src _ _ _ _ _ _ Hinv) as Hs.
    apply (inv_visited _ _ _ _ _ _ Hinv) in Hs. simpl in Hs.
    by rewrite app_nil_r in Hs.
  - intros x z Hx He.
    pose proof (inv_closed _ _ _ _ _ _ Hinv x z Hx He) as Hz.
    apply (inv_visited _ _ _ _ _ _ Hinv) in Hz. simpl in Hz.
    by rewrite app_nil_r in Hz.
Qed.

(** [dst] is first in the queue: its path is a path to [dst], and no path
    to [dst] has fewer wallets. *)
Lemma path_inv_found taken visited prefix rest :
  path_inv g src dst taken visited ((dst, prefix) :: rest) ->
  is_path g src dst (prefix ++ [dst])
  /\ forall p', is_path g src dst p' -> (length (prefix ++ [dst]) <= length p')%nat.
Proof.
  intros Hinv. split; [apply (inv_paths _ _ _ _ _ _ Hinv); by left|].
  intros p' Hp'. pose proof (is_path_reach p' dst Hp') as Hr.
  rewrite length_app. simpl.
  destruct (decide (pred (length p') <= length prefix)%nat) as [Hle|Hgt]; [|lia].
  destruct (inv_reached _ _ _ _ _ _ Hinv (dst, prefix) dst _ eq_refl Hle Hr)
    as [Hin|(pre & Hin & Hlen)].
  - by destruct (inv_dst _ _ _ _ _ _ Hinv).
  - assert (pre = prefix) as ->.
    { apply elem_of_cons in Hin as [[= ->]|Hin]; [done|].
      pose proof (inv_nodup _ _ _ _ _ _ Hinv) as Hnd. simpl in Hnd.
      apply NoDup_app in Hnd as (_ & _ & Hnd). apply NoDup_cons in Hnd as [Hnd _].
      destruct Hnd. apply list_elem_of_fmap. by exists (dst, pre). }
    destruct Hp' as (_ & Hl & _). destruct p'; [done|]. simpl in *. lia.
Qed.

(** The loop returns: with a shortest path to [dst], or with not-found when
    [dst] is not reached from [src]. *)
Lemma shortest_path_loop_ok : forall fuel taken visited queue,
  path_inv g src dst taken visited queue ->
  (S (length (targets g)) <= fuel + length taken)%nat ->
  (exists p, shortest_path_loop fuel g dst visited queue = Some (Some p)
             /\ is_path g src dst p
             /\ forall p', is_path g src dst p' -> (length p <= length p')%nat)
  \/ (shortest_path_loop fuel g dst visited queue = Some None
      /\ forall m, ~ reach_in g src m dst).
Proof.
  induction fuel as [|fuel IH]; intros taken visited queue Hinv Hfuel;
    destruct queue as [|[u prefix] rest]; simpl.
  - right. split; [done|]. by apply path_inv_empty with taken visited.
  - case_bool_decide as E.
    + subst u. left. eexists. split; [done|]. by apply path_inv_found with taken visited rest.
    + pose proof (path_inv_length _ _ _ Hinv) as Hlen. simpl in *. lia.
  - right. split; [done|]. by apply path_inv_empty with taken visited.
  - case_bool_decide as E.
    + subst u. left. eexists. split; [done|]. by apply path_inv_found with taken visited rest.
    + pose proof (path_inv_step taken visited u prefix rest Hinv E) as Hstep.
      simpl in Hstep.
      destruct (foldl (path_visit u prefix) (visited, rest)
                  (dict_keys (dict_default [] u (graph g)))) as [visited' queue'].
      apply (IH (taken ++ [u])); [exact Hstep|].
      rewrite length_app. simpl. lia.
Qed.

(** [shortest_path] returns.  When [src] is a key of the graph and there is
    a path from [src] to [dst], it returns a path from [src] to [dst] that
    is as short as any; otherwise it returns not-found. *)
Lemma shortest_path_ok :
  (is_Some (dict_get src (graph g)) -> (exists p', is_path g src dst p') ->
   exists p, shortest_path g src dst = Some (Some p)
             /\ is_path g src dst p
             /\ forall p', is_path g src dst p' -> (length p <= length p')%nat)
  /\ (dict_get src (graph g) = None \/ ~ (exists p', is_path g src dst p') ->
      shortest_path g src dst = Some None).
Proof.
  unfold shortest_path.
  destruct (shortest_path_loop_ok (S (length (targets g))) [] {[src]} [(src, [])]
              path_inv_start) as [(p & Hp & Hpath & Hmin)|[Hnone Hno]];
    [simpl; lia| |].
  - split.
    + intros [nb ->] _. by exists p.
    + intros [->|Hno]; [done|]. destruct Hno. by exists p.
  - split.
    + intros _ [p' Hp']. destruct (Hno _ (is_path_reach p' dst Hp')).
    + intros _. by destruct (dict_get src (graph g)).
Qed.

End PathFacts.

(** C7: [shortest_path] searches breadth first along outgoing edges and
    always returns.  In every graph, for all wallets [src] and [dst]: when
    [src] is a key of the graph and some path leads from [src] to [dst]
    along outgoing edges, the result is such a path, and no path from [src]
    to [dst] has fewer hops; when [src] is not a key of the graph, or no
    path leads from [src] to [dst], the result is not-found.  In a graph
    that [build_graph_from_db] returns for a store, a wallet that has no
    outgoing edge, or that is the sender of no transfer, is not a key of the
    graph, so the result is not-found.  With the edges A to B and B to C, the path from A to C is
    [A, B, C], of 2 hops, and from C to A the result is not-found. *)
Theorem C7_shortest_path_minimal_hops :
  (forall (g : CryptoGraph) (src dst : string),
     (is_Some (dict_get src (graph g)) -> (exists p', is_path g src dst p') ->
      exists p, shortest_path g src dst = Some (Some p)
                /\ is_path g src dst p
                /\ forall p', is_path g src dst p' -> (length p <= length p')%nat)
     /\ (dict_get src (graph g) = None \/ ~ (exists p', is_path g src dst p') ->
         shortest_path g src dst = Some None))
  /\ (forall (strip : string -> string) (self : CryptoGraph) (db : CryptoDB)
        (g : CryptoGraph) (src dst : string),
        build_graph_from_db strip self db = Some g ->
        (neighbors g src = [] -> shortest_path g src dst = Some None)
        /\ ((forall t, t ∈ transfers strip db -> t_from t <> src) ->
            shortest_path g src dst = Some None))
  /\ shortest_path two_edges "A" "C" = Some (Some ["A"; "B"; "C"]%string)
  /\ shortest_path two_edges "C" "A" = Some None.
Proof.
  split_and!.
  - intros g src dst. apply shortest_path_ok.
  - intros strip self db g src dst Hb%build_graph_built.
    split.
    + intros Hn. apply shortest_path_ok. left.
      destruct (dict_get src (graph g)) as [nb|] eqn:E; [|done].
      destruct Hb as (_ & _ & Hne & _). destruct (Hne src nb E).
      unfold neighbors, dict_default in Hn. by rewrite E in Hn.
    + intros Hno. apply shortest_path_ok. left.
      by apply (no_outgoing_not_in_graph g _ src Hb).
  - vm_compute. reflexivity.
  - vm_compute. reflexivity.
Qed.

Lemma C7_shortest_path_minimal_hops_witness :
  exists p, shortest_path two_edges "A" "C" = Some (Some p)
            /\ is_path two_edges "A" "C" p
            /\ (length p <= 3)%nat.
Proof.
  assert (is_path two_edges "A" "C" ["A"; "B"; "C"]%string) as Hpath.
  { split_and!; [reflexivity|reflexivity|].
    simpl. unfold edge_to. split_and!; [| |exact I]; vm_compute; constructor. }
  destruct (proj1 (proj1 C7_shortest_path_minimal_hops two_edges "A" "C")%string)
    as (p & Hp & Hvalid & Hmin).
  - vm_compute. eexists. reflexivity.
  - eexists. exact Hpath.
  - exists p. split_and!; [exact Hp|exact Hvalid|exact (Hmin _ Hpath)].
Defined.

End GraphFacts.

(** ** The streaming analytics *)

Module AnalyticsFacts.
Import Storage StorageFacts Graph GraphFacts Analytics.

Section PassFacts.
Variable strip : string -> string.
Variable rng : Type.
Variable Random : Z -> rng.
Variable randint : rng -> Z -> Z -> Z * rng.
Variable sorted : list float -> list float.
Variable round : float -> Z.
Variable format_thousands : Z -> string.
Hypothesis randint_range : forall st a b, a <= b -> a <= (randint st a b).1 <= b.
Variable sample_size : Z.
Hypothesis sample_size_nonneg : 0 <= sample_size.

#[local] Abbreviation observe := (observe rng randint sample_size).
#[local] Abbreviation pass := (pass rng randint sample_size).
#[local] Abbreviation initial := (initial rng Random).
#[local] Abbreviation reservoir_step := (reservoir_step rng randint sample_size).
#[local] Abbreviation passed := (passed Random sample_size).
Implicit Types (st : pass_state rng) (xs : list float) (x : float).

Lemma pass_snoc xs : forall st x,
  pass st (xs ++ [x]) = pass st xs ≫= fun st' => observe st' x.
Proof.
  induction xs as [|y xs IH]; intros st x; simpl.
  - by destruct (observe st x).
  - destruct (observe st y) as [st1|]; simpl; [apply IH|done].
Qed.

Lemma min_of_snoc xs x :
  min_of (xs ++ [x]) = Some (match min_of xs with None => x | Some m => py_min m x end).
Proof. destruct xs as [|y xs]; simpl; [done|]. by rewrite foldl_snoc. Qed.

Lemma max_of_snoc xs x :
  max_of (xs ++ [x]) = Some (match max_of xs with None => x | Some m => py_max m x end).
Proof. destruct xs as [|y xs]; simpl; [done|]. by rewrite foldl_snoc. Qed.

Lemma list_assign_in_range i x (l : list float) :
  0 <= i < Z.of_nat (length l) -> list_assign i x l = Some (<[Z.to_nat i := x]> l).
Proof.
  intros Hi. unfold list_assign.
  destruct (Z.leb_spec 0 i); [|lia].
  destruct (Z.ltb_spec i (Z.of_nat (length l))); [done|lia].
Qed.

Lemma observe_ok st x :
  0 <= n st -> Z.of_nat (length (sample st)) = Z.min (n st) sample_size ->
  exists st',
    observe st x = Some st'
    /\ n st' = n st + 1
    /\ s st' = (s st + x)%float
    /\ vmin st' = Some (match vmin st with None => x | Some m => py_min m x end)
    /\ vmax st' = Some (match vmax st with None => x | Some m => py_max m x end)
    /\ Z.of_nat (length (sample st')) = Z.min (n st + 1) sample_size
    /\ reservoir_step st x st'.
Proof.
  intros Hn Hlen. unfold Analytics.observe, Analytics.reservoir_step.
  destruct (Z.ltb_spec (Z.of_nat (length (sample st))) sample_size) as [Hlt|Hge].
  - simpl. eexists. split; [done|]. simpl. split_and!; try done.
    rewrite length_app. simpl. lia.
  - pose proof (randint_range (gen st) 1 (n st + 1)) as Hr.
    destruct (randint (gen st) 1 (n st + 1)) as [j g'] eqn:Ej. cbn [fst snd] in *.
    specialize (Hr ltac:(lia)).
    destruct (Z.leb_spec j sample_size) as [Hj|Hj].
    + rewrite list_assign_in_range by lia. simpl.
      eexists. split; [done|]. simpl. split_and!; try done; try lia.
      rewrite length_insert. lia.
    + simpl. eexists. split; [done|]. simpl. split_and!; try done; lia.
Qed.

Lemma pass_ok xs : exists st, pass initial xs = Some st /\ passed xs st.
Proof.
  induction xs as [|x xs IH] using rev_ind.
  - exists initial. split; [done|]. unfold Analytics.passed. simpl. split_and!; try done. lia.
  - destruct IH as (st & Hpass & Hn & Hs & Hmin & Hmax & Hlen & Hpre).
    destruct (observe_ok st x) as (st' & Hobs & Hn' & Hs' & Hmin' & Hmax' & Hlen' & Hres).
    { lia. } { by rewrite Hn. }
    exists st'. rewrite pass_snoc, Hpass. simpl. split; [done|].
    unfold Analytics.passed. rewrite length_app, float_sum_snoc, min_of_snoc, max_of_snoc.
    simpl. rewrite <- Hs, <- Hmin, <- Hmax. split_and!; try done.
    + lia.
    + rewrite Hlen', Hn. f_equal. lia.
    + intros Hle. unfold Analytics.reservoir_step in Hres.
      destruct (Z.ltb_spec (Z.of_nat (length (sample st))) sample_size) as [Hlt|Hge];
        [|lia].
      destruct Hres as [-> ->]. destruct Hpre as [-> ->]; [lia|done].
Qed.


#[local] Abbreviation analytics :=
  (amount_usd_analytics strip rng Random randint sorted round format_thousands).

(** C8: when more than [sample_size] values match, the first [sample_size]
    of them are the reservoir, in order, and no number has been drawn; for
    each later value, the [k+1]-th, a number [j] is drawn from 1 to [k+1]
    with the generator, which was seeded with 1337 and is threaded through
    the pass, and the value is written in slot [j-1] of the reservoir when
    [j <= sample_size] and dropped otherwise.  The pass returns with a
    reservoir of [sample_size] values, and the count, the sum, the minimum
    and the maximum of all the matching values; these are the fields of the
    result, which is returned unless [math.sqrt] raises. *)
Theorem C8_reservoir_and_exact_statistics (f : filters) (db : CryptoDB) :
  let xs := _iter_amounts strip f db in
  sample_size < Z.of_nat (length xs) ->
  (forall k, Z.of_nat k <= sample_size ->
     exists st, pass initial (take k xs) = Some st
                /\ sample st = take k xs /\ gen st = Random 1337)
  /\ (forall k x, sample_size <= Z.of_nat k -> xs !! k = Some x ->
        exists st st',
          pass initial (take k xs) = Some st
          /\ pass initial (take (S k) xs) = Some st'
          /\ 1 <= (randint (gen st) 1 (Z.of_nat k + 1)).1 <= Z.of_nat k + 1
          /\ gen st' = (randint (gen st) 1 (Z.of_nat k + 1)).2
          /\ sample st'
             = if (randint (gen st) 1 (Z.of_nat k + 1)).1 <=? sample_size
               then <[Z.to_nat ((randint (gen st) 1 (Z.of_nat k + 1)).1 - 1) := x]>
                      (sample st)
               else sample st)
  /\ exists st,
       pass initial xs = Some st
       /\ Z.of_nat (length (sample st)) = sample_size
       /\ n st = Z.of_nat (length xs)
       /\ s st = float_sum xs
       /\ vmin st = min_of xs
       /\ vmax st = max_of xs
       /\ (is_Some (analytics f sample_size db)
           <-> is_Some (math_sqrt (M2 st / float_of_int (n st))))
       /\ forall r, analytics f sample_size db = Some r ->
            dict_get "count" r = Some (VInt (Z.of_nat (length xs)))
            /\ dict_get "sum" r = Some (VFloat (float_sum xs))
            /\ dict_get "min" r = Some (optional_float (min_of xs))
            /\ dict_get "max" r = Some (optional_float (max_of xs)).
Proof.
  intros xs Hmore. split_and!.
  - intros k Hk. destruct (pass_ok (take k xs)) as (st & Hpass & Hp).
    destruct Hp as (_ & _ & _ & _ & _ & Hpre).
    exists st. split; [done|]. apply Hpre. rewrite length_take. lia.
  - intros k x Hk Hx.
    destruct (pass_ok (take k xs)) as (st & Hpass & Hn & _ & _ & _ & Hlen & _).
    pose proof (lookup_lt_Some _ _ _ Hx) as Hklt.
    rewrite length_take in Hn, Hlen.
    destruct (observe_ok st x) as (st' & Hobs & _ & _ & _ & _ & _ & Hres).
    { lia. } { rewrite Hn. done. }
    exists st, st'. split; [done|].
    rewrite (take_S_r _ _ _ Hx), pass_snoc, Hpass. simpl. split; [done|].
    unfold Analytics.reservoir_step in Hres.
    destruct (Z.ltb_spec (Z.of_nat (length (sample st))) sample_size) as [Hlt|Hge];
      [lia|].
    rewrite Hn in Hres. replace (Z.of_nat (k `min` length xs)) with (Z.of_nat k) in Hres by lia.
    exact Hres.
  - destruct (pass_ok xs) as (st & Hpass & Hn & Hs & Hmin & Hmax & Hlen & _).
    exists st. split_and!; try done.
    + lia.
    + unfold amount_usd_analytics. fold xs. rewrite Hpass. simpl.
      destruct (Z.eqb_spec (n st) 0) as [E|E]; [lia|].
      destruct (Z.ltb_spec 0 (n st)); [|lia].
      destruct (math_sqrt (M2 st / float_of_int (n st))); simpl; split; intros Hr;
        first [by destruct Hr|eauto].
    + intros r. unfold amount_usd_analytics. fold xs. rewrite Hpass. simpl.
      destruct (Z.eqb_spec (n st) 0) as [E|E]; [lia|].
      destruct (math_sqrt _) as [std|]; simpl; [|done].
      intros [= <-]. simpl. rewrite Hn, Hs, Hmin, Hmax. done.
Qed.

(** C9: when no record that is not deleted passes the filters, the result
    is returned, and it is the dict of three keys: a count of 0, the
    filters and the message. *)
Theorem C9_no_match_sentinel (f : filters) (size : Z) (db : CryptoDB) :
  (forall rec, Some rec ∈ data_store db -> deleted_flag rec = false ->
     passes strip f rec = false) ->
  exists r,
    amount_usd_analytics strip rng Random randint sorted round format_thousands
      f size db = Some r
    /\ dict_keys r = ["count"; "filters"; "message"]%string
    /\ dict_get "count" r = Some (VInt 0)
    /\ dict_get "message" r = Some (VStr "No matching records.")
    /\ dict_get "sum" r = None /\ dict_get "min" r = None
    /\ dict_get "max" r = None /\ dict_get "mean" r = None
    /\ dict_get "std_pop" r = None /\ dict_get "approx_percentiles" r = None.
Proof.
  intros Hnone.
  assert (_iter_amounts strip f db = []) as Hxs.
  { unfold _iter_amounts. generalize dependent (data_store db). intros ds Hds.
    induction ds as [|slot ds IH]; [done|].
    specialize (IH ltac:(intros rec Hin; apply Hds; by right)).
    cbn [omap list_omap]. rewrite IH.
    destruct slot as [rec|]; simpl; [|done].
    destruct (deleted_flag rec) eqn:Hdel; [done|].
    by rewrite (Hds rec) by (by left || done). }
  unfold amount_usd_analytics. rewrite Hxs. simpl.
  eexists. split; [done|]. split_and!; done.
Qed.

End PassFacts.

(** Stand-ins for the builtins, for the instances below: no stripping, a
    linear congruential generator, insertion sort. *)
Definition no_strip (s : string) : string := s.

Definition lcg_randint (st a b : Z) : Z * Z :=
  (a + st mod (b - a + 1), (1103515245 * st + 12345) mod 2147483648).

Lemma lcg_randint_range st a b : a <= b -> a <= (lcg_randint st a b).1 <= b.
Proof.
  intros Hab. unfold lcg_randint. simpl.
  pose proof (Z.mod_pos_bound st (b - a + 1) ltac:(lia)). lia.
Qed.

Fixpoint insert_float (x : float) (l : list float) : list float :=
  match l with
  | [] => [x]
  | y :: l' => if (x <=? y)%float then x :: l else y :: insert_float x l'
  end.

Definition insertion_sort (l : list float) : list float := foldr insert_float [] l.

Definition no_filters : filters :=
  {| f_symbol := None; f_status := None;
     f_sender_wallet := None; f_receiver_wallet := None |}.

Definition only_symbol (sym : string) : filters :=
  {| f_symbol := Some sym; f_status := None;
     f_sender_wallet := None; f_receiver_wallet := None |}.


Lemma C8_reservoir_and_exact_statistics_witness :
  exists st,
    pass Z lcg_randint 1 (initial Z (fun seed => seed))
      (_iter_amounts no_strip no_filters two_transfers_db) = Some st
    /\ Z.of_nat (length (sample st)) = 1
    /\ n st = 2.
Proof.
  destruct (C8_reservoir_and_exact_statistics no_strip Z (fun seed => seed)
              lcg_randint insertion_sort (fun _ => 0) (fun _ => ""%string)
              lcg_randint_range 1 ltac:(lia) no_filters two_transfers_db)
    as (_ & _ & st & Hpass & Hlen & Hn & _).
  { vm_compute. reflexivity. }
  exists st. split; [exact Hpass|]. split; [exact Hlen|exact Hn].
Defined.

Lemma C9_no_match_sentinel_witness :
  exists r,
    amount_usd_analytics no_strip Z (fun seed => seed) lcg_randint insertion_sort
      (fun _ => 0) (fun _ => ""%string) (only_symbol "DOGE") 50000 two_transfers_db
    = Some r
    /\ dict_get "count" r = Some (VInt 0).
Proof.
  destruct (C9_no_match_sentinel no_strip Z (fun seed => seed) lcg_randint
              insertion_sort (fun _ => 0) (fun _ => ""%string)
              (only_symbol "DOGE") 50000 two_transfers_db)
    as (r & Hr & _ & Hcount & _).
  { intros rec Hin _. unfold two_transfers_db in Hin. simpl in Hin.
    rewrite !elem_of_cons, elem_of_nil in Hin.
    destruct Hin as [Hin|[Hin|[]]]; injection Hin as ->; reflexivity. }
  exists r. split; [exact Hr|exact Hcount].
Defined.

End AnalyticsFacts.

(** ** The map: lookups, sizes and the balance of insertions *)

Module MapLaws.
Import Indexing IndexingFacts MapAccess.
Section Laws.
Context {K V : Type} `{KeyOrd K}.
Implicit Types (m : AVLTreeMap K V) (k : K) (v : V).

Lemma put_size k v m m' old :
  put k v m = Some (m', old) ->
  map_size m' = match old with Some _ => map_size m | None => map_size m + 1 end.
Proof.
  unfold put. destruct (tree_size m =? 0).
  - destruct (tree_root m); [|done].
    destruct (_rebalance_avl _ _); simpl; [|done]. by intros [= <- <-].
  - destruct (_find_position k (tree_root m) []) as [[|l k0 old0 a r] [|[d pk pv pa sib] up]].
    + done.
    + cbv beta iota zeta.
      destruct (child _ _); [|done].
      destruct (_rebalance_avl _ _); simpl; [|done]. by intros [= <- <-].
    + by intros [= <- <-].
    + by intros [= <- <-].
Qed.

Lemma remove_size k m m' old :
  remove k m = Some (m', old) ->
  (old = None -> m' = m)
  /\ map_size m' = match old with Some _ => map_size m - 1 | None => map_size m end.
Proof.
  unfold remove. destruct (tree_size m =? 0); [by intros [= <- <-]|].
  destruct (_find_position k (tree_root m) []) as [[|l pk pv pa r] up];
    [by intros [= <- <-]|].
  intros Hrm. apply bind_Some in Hrm as ([p' up'] & _ & Hrm).
  apply bind_Some in Hrm as ([c old_value] & _ & Hrm).
  apply bind_Some in Hrm as (t & _ & Hrm).
  injection Hrm as <- <-. done.
Qed.

Lemma valid_len m : valid m -> len m = Z.of_nat (length (iter m)).
Proof.
  intros Hm. rewrite iter_entries by done. destruct Hm as (_ & _ & Hsz & Hms).
  unfold len, entries. by rewrite length_fmap, Hms, Hsz.
Qed.

Lemma run_valid (ops : list (op (K:=K) (V:=V))) :
  exists m, run ops empty_map = Some m /\ valid m.
Proof.
  destruct (run_spec ops empty_map (fun _ => false) valid_empty)
    as (m & Hrun & Hm & _).
  { intros k. split; [by intros [? ?]|done]. }
  by exists m.
Qed.

Lemma key_eqb_ne (a b : K) : a <> b -> key_eqb a b = false.
Proof. apply key_eqb_false. Qed.

(** X1: on the map left by any sequence of operations, [put k v] returns,
    with the value that was bound to [k] ([None] when the key is new);
    afterwards [get k] is [v], every other key is bound as before, and
    [len] has grown by one exactly when the key was new. *)
Theorem X1_put_binds_the_key (ops : list (op (K:=K) (V:=V))) k v :
  exists m m',
    run ops empty_map = Some m
    /\ put k v m = Some (m', get k m)
    /\ get k m' = Some v
    /\ (forall k', k' <> k -> get k' m' = get k' m)
    /\ len m' = match get k m with Some _ => len m | None => len m + 1 end.
Proof.
  destruct (run_valid ops) as (m & Hrun & Hm).
  destruct (put_spec k v m Hm) as (m' & Hput & Hm' & Hget).
  exists m, m'. split_and!; try done.
  - by rewrite Hget, key_eqb_refl.
  - intros k' Hne. by rewrite Hget, key_eqb_ne.
  - apply (put_size k v m m' _ Hput).
Qed.

(** X2: on the map left by any sequence of operations, [remove k] returns;
    afterwards [get k] is [None] and every other key is bound as before.
    It returns [None] exactly when [k] was not bound, and then the map is
    the one it was given; otherwise [len] is one less. *)
Theorem X2_remove_unbinds_the_key (ops : list (op (K:=K) (V:=V))) k :
  exists m m' old,
    run ops empty_map = Some m
    /\ remove k m = Some (m', old)
    /\ get k m' = None
    /\ (forall k', k' <> k -> get k' m' = get k' m)
    /\ (old = None <-> get k m = None)
    /\ (old = None -> m' = m)
    /\ len m' = match old with Some _ => len m - 1 | None => len m end.
Proof.
  destruct (run_valid ops) as (m & Hrun & Hm).
  destruct (remove_spec k m Hm) as (m' & old & Hrm & Hm' & Hget & Hold).
  exists m, m', old. split_and!; try done.
  - by rewrite Hget, key_eqb_refl.
  - intros k' Hne. by rewrite Hget, key_eqb_ne.
  - rewrite !eq_None_not_Some. by rewrite Hold.
  - apply (remove_size k m m' old Hrm).
  - apply (remove_size k m m' old Hrm).
Qed.

(** X3: on the map left by any sequence of operations, [len] is the number
    of keys that the iteration yields, which is also the number of values,
    and it is 0 exactly when no key is bound. *)
Theorem X3_len_counts_the_keys (ops : list (op (K:=K) (V:=V))) :
  exists m,
    run ops empty_map = Some m
    /\ len m = Z.of_nat (length (iter m))
    /\ length (values m) = length (iter m)
    /\ (len m = 0 <-> forall k, get k m = None).
Proof.
  destruct (run_valid ops) as (m & Hrun & Hm).
  exists m. split_and!; try done.
  - by apply valid_len.
  - rewrite iter_entries, values_entries by done. by rewrite !length_fmap.
  - rewrite valid_len, iter_entries by done.
    split.
    + intros Hz k. rewrite get_spec by done. apply assoc_None.
      destruct (entries m).*1; [by intros ?%elem_of_nil|simpl in Hz; lia].
    + intros Hnone. destruct (entries m) as [|[k v] es] eqn:E; [done|].
      specialize (Hnone k). rewrite get_spec, E in Hnone by done.
      simpl in Hnone. by rewrite key_eqb_refl in Hnone.
Qed.


(** X17: no sequence of [put] and [remove] on an empty map raises, and
    after it the height cached in every node is the height of its subtree:
    a removal may lose the balance, never the cached heights. *)
Theorem X17_cached_heights_stay_exact (ops : list (op (K:=K) (V:=V))) :
  exists m,
    run ops empty_map = Some m
    /\ heights_ok (tree_root m)
    /\ _get_height (tree_root m) = height (tree_root m).
Proof.
  destruct (run_valid ops) as (m & Hrun & Hm).
  exists m. destruct Hm as (_ & Hh & _). split_and!; [done|done|].
  by apply heights_ok_aux.
Qed.

(** The value that [remove] returns is read after the entry of the successor
    has been copied into the node. *)
Lemma remove_returns k m l pk pv pa r up :
  valid m ->
  _find_position k (tree_root m) [] = (Node l pk pv pa r, up) ->
  get k m = Some pv
  /\ exists m' old,
       remove k m = Some (m', Some old)
       /\ match l, r with
          | Node _ _ _ _ _, Node _ _ _ _ _ =>
              exists es1 k2 es2,
                inorder (tree_root m) = es1 ++ (k, pv) :: (k2, old) :: es2
          | _, _ => old = pv
          end.
Proof.
  intros Hm Hf. pose proof Hm as (Hbst & Hh & Hsz & Hms).
  assert ((tree_size m =? 0) = false) as Hne.
  { apply find_position_spec in Hf as (_ & _ & ml & mr & _ & _ & Hin & _).
    apply Z.eqb_neq. rewrite Hsz, Hin, !length_app. simpl.
    rewrite ?length_app. simpl. lia. }
  assert (pk = k) as ->.
  { apply find_position_spec in Hf as (_ & [?|(? & ? & ? & ? & [=])] & _); [done|].
    by subst. }
  split.
  { unfold get. by rewrite Hne, Hf. }
  destruct (remove_spec k m Hm) as (m' & old & Hrm & _).
  exists m'. unfold remove in Hrm. rewrite Hne, Hf in Hrm.
  destruct l as [|ll lk lv la lr]; [|destruct r as [|rl rk rv ra rr]].
  - exists pv. split; [|done].
    apply bind_Some in Hrm as ([p' up'] & [= <- <-] & Hrm).
    apply bind_Some in Hrm as ([c old_value] & Htr & Hrm).
    apply bind_Some in Hrm as (t & Ht & [= <- <-]).
    simpl in Htr. injection Htr as <- <-.
    unfold remove. rewrite Hne, Hf. simpl. by rewrite Ht.
  - exists pv. split; [|done].
    apply bind_Some in Hrm as ([p' up'] & [= <- <-] & Hrm).
    apply bind_Some in Hrm as ([c old_value] & Htr & Hrm).
    apply bind_Some in Hrm as (t & Ht & [= <- <-]).
    simpl in Htr. injection Htr as <- <-.
    unfold remove. rewrite Hne, Hf. simpl. by rewrite Ht.
  - destruct (subtree_first_position_spec (Node rl rk rv ra rr) [] _ _ _ _ _ eq_refl)
      as (sk & sv & sa & sr & inner & Hsf & _ & _ & Hin).
    rewrite Hsf in Hrm.
    apply bind_Some in Hrm as ([p' up'] & [= <- <-] & Hrm).
    apply bind_Some in Hrm as ([c old_value] & Htr & Hrm).
    apply bind_Some in Hrm as (t & Ht & [= <- <-]).
    simpl in Htr. injection Htr as <- <-.
    exists sv. split.
    + unfold remove. rewrite Hne, Hf, Hsf. simpl. by rewrite Ht.
    + apply find_position_spec in Hf as (_ & _ & ml & mr & _ & _ & Hall & _).
      exists (ml ++ inorder (Node ll lk lv la lr)), sk, (inorder sr ++ after inner ++ mr).
      rewrite Hall.
      change (inorder (Node (Node ll lk lv la lr) k pv pa (Node rl rk rv ra rr)))
        with (inorder (Node ll lk lv la lr) ++ (k, pv) :: inorder (Node rl rk rv ra rr)).
      rewrite Hin. rewrite <- !app_assoc. simpl. by rewrite <- !app_assoc.
Qed.

(** X4: the value that [remove k] returns.  When the node of [k] has at
    most one child it is the value bound to [k].  When the node has two
    children, the entry of the in-order successor is copied into the node
    before the value is read, and [remove k] returns the value bound to the
    next key in order, not the one bound to [k]. *)
Theorem X4_remove_returns_the_next_value (ops : list (op (K:=K) (V:=V))) k :
  exists m,
    run ops empty_map = Some m
    /\ forall l pk pv pa r up,
         _find_position k (tree_root m) [] = (Node l pk pv pa r, up) ->
         get k m = Some pv
         /\ exists m' old,
              remove k m = Some (m', Some old)
              /\ match l, r with
                 | Node _ _ _ _ _, Node _ _ _ _ _ =>
                     exists es1 k2 es2,
                       inorder (tree_root m) = es1 ++ (k, pv) :: (k2, old) :: es2
                 | _, _ => old = pv
                 end.
Proof.
  destruct (run_valid ops) as (m & Hrun & Hm).
  exists m. split; [done|]. intros l pk pv pa r up. by apply remove_returns.
Qed.

End Laws.

Lemma X4_remove_returns_the_next_value_witness :
  exists m m',
    run [Put 2 20; Put 1 10; Put 3 30] empty_map = Some m
    /\ get 2 m = Some 20
    /\ remove 2 m = Some (m', Some 30).
Proof.
  destruct (X4_remove_returns_the_next_value [Put 2 20; Put 1 10; Put 3 30] 2)
    as (m & Hrun & Hrm).
  exists m.
  assert (m = {| tree_root := Node (Node Leaf 1 10 1 Leaf) 2 20 2 (Node Leaf 3 30 1 Leaf);
                 tree_size := 3; map_size := 3 |}) as Hm.
  { vm_compute in Hrun. by injection Hrun. }
  destruct (Hrm (Node Leaf 1 10 1 Leaf) 2 20 2 (Node Leaf 3 30 1 Leaf) [])
    as (Hget & m' & old & Hrem & _).
  { rewrite Hm. reflexivity. }
  exists m'. split; [exact Hrun|]. split; [exact Hget|].
  rewrite Hrem. do 3 f_equal.
  rewrite Hm in Hrem. vm_compute in Hrem. by injection Hrem.
Defined.

End MapLaws.

Module InsertBalance.
Import Indexing IndexingFacts.
Section Facts.
Context {K V : Type} `{KeyOrd K}.
Implicit Types (t l r c p : tree K V) (up : path K V) (k : K) (v : V).

(** The AVL condition, as a proposition. *)
Fixpoint is_avl t : Prop :=
  match t with
  | Leaf => True
  | Node l _ _ a r =>
      Z.abs (height l - height r) <= 1 /\ a = 1 + Z.max (height l) (height r)
      /\ is_avl l /\ is_avl r
  end.

Lemma avl_is_avl t : avl t = true <-> is_avl t.
Proof.
  induction t as [|l IHl k v a r IHr]; [done|].
  cbn [avl is_avl]. rewrite !andb_true_iff, Z.leb_le, Z.eqb_eq, IHl, IHr.
  simpl. tauto.
Qed.

Lemma is_avl_heights_ok t : is_avl t -> heights_ok t.
Proof.
  induction t as [|l IHl k v a r IHr]; simpl; [done|].
  intros (_ & -> & Hl & Hr). auto.
Qed.

Lemma is_avl_aux t : is_avl t -> _get_height t = height t.
Proof. intros Ht. by apply heights_ok_aux, is_avl_heights_ok. Qed.

(** The ancestors of a position whose subtree has height [h], in a tree
    that satisfies the AVL condition. *)
Fixpoint path_avl up (h : Z) : Prop :=
  match up with
  | [] => True
  | Frame _ _ _ a s :: up' =>
      is_avl s /\ Z.abs (h - height s) <= 1 /\ a = 1 + Z.max h (height s)
      /\ path_avl up' a
  end.

Lemma is_avl_plug up : forall c,
  is_avl (plug c up) <-> is_avl c /\ path_avl up (height c).
Proof.
  induction up as [|[[] k v a s] up IH]; intros c; simpl.
  - tauto.
  - rewrite IH. simpl. split.
    + intros [(? & -> & ? & ?) ?]. done.
    + intros (? & ? & ? & -> & ?). done.
  - rewrite IH. simpl. rewrite (Z.max_comm (height s)). split.
    + intros [(? & -> & ? & ?) ?]. split_and!; try done; lia.
    + intros (? & ? & ? & -> & ?). split_and!; try done; lia.
Qed.

(** A subtree that has just grown: its two children differ in height, or
    it is a single node. *)
Definition tall c : Prop :=
  match c with
  | Leaf => False
  | Node l _ _ _ r => height l <> height r \/ (height l = 0 /\ height r = 0)
  end.

(** The node that the loop of [_rebalance_avl] looks at after an insertion:
    the new node, or a node one of whose children has grown by one while
    its cached height [a] is still the one from before the insertion. *)
Definition pending l (a : Z) r : Prop :=
  (a = 0 /\ l = Leaf /\ r = Leaf)
  \/ (tall l /\ a = 1 + Z.max (height l - 1) (height r)
      /\ Z.abs (height l - 1 - height r) <= 1)
  \/ (tall r /\ a = 1 + Z.max (height l) (height r - 1)
      /\ Z.abs (height l - (height r - 1)) <= 1).

Lemma rebalance_node_insert l k v a r :
  is_avl l -> is_avl r -> pending l a r ->
  exists p', rebalance_node (Node l k v a r) = Some p' /\ is_avl p'
             /\ (height p' = a \/ (height p' = a + 1 /\ tall p')).
Proof.
  intros Hl Hr Hp. unfold rebalance_node. simpl.
  rewrite (is_avl_aux l Hl), (is_avl_aux r Hr).
  pose proof (height_nonneg l) as Hl0. pose proof (height_nonneg r) as Hr0.
  destruct (Z.leb_spec (Z.abs (height l - height r)) 1) as [Hbal|Hbal]; simpl.
  { eexists; split; [done|]. split; [simpl; done|]. simpl.
    destruct Hp as [(-> & -> & ->)|[(Ht & -> & Hb)|(Ht & -> & Hb)]]; simpl; lia. }
  destruct Hp as [(-> & -> & ->)|[(Ht & -> & Hb)|(Ht & -> & Hb)]];
    [simpl in Hbal; lia| |].
  - (* the left child has grown *)
    destruct (Z.gtb_spec (height l) (height r)) as [Hlr|Hlr]; simpl; [|lia].
    destruct l as [|ll lk lv la lr]; simpl in *; [lia|].
    destruct Hl as (Hlb & -> & Hll & Hlr').
    rewrite (is_avl_aux ll Hll), (is_avl_aux lr Hlr').
    pose proof (height_nonneg ll). pose proof (height_nonneg lr).
    destruct (Z.gtb_spec (height ll) (height lr)) as [E1|E1]; simpl;
      [|destruct (Z.gtb_spec (height lr) (height ll)) as [E2|E2]; simpl; [|lia]].
    + destruct ll as [|x1 x2 x3 x4 x5]; simpl in *; [lia|].
      destruct Hll as (? & -> & ? & ?).
      eexists; split; [done|]. simpl. rewrite !is_avl_aux by done.
      split; [|lia]. simpl. split_and!; try done; lia.
    + destruct lr as [|x1 x2 x3 x4 x5]; simpl in *; [lia|].
      destruct Hlr' as (? & -> & ? & ?).
      pose proof (height_nonneg x1). pose proof (height_nonneg x5).
      eexists; split; [done|]. simpl. rewrite !is_avl_aux by done.
      split; [|lia]. simpl. split_and!; try done; lia.
  - (* the right child has grown *)
    destruct (Z.gtb_spec (height l) (height r)) as [Hlr|Hlr]; simpl; [lia|].
    destruct (Z.gtb_spec (height r) (height l)) as [Hrl|Hrl]; simpl; [|lia].
    destruct r as [|rl rk rv ra rr]; simpl in *; [lia|].
    destruct Hr as (Hrb & -> & Hrl' & Hrr).
    rewrite (is_avl_aux rl Hrl'), (is_avl_aux rr Hrr).
    pose proof (height_nonneg rl). pose proof (height_nonneg rr).
    destruct (Z.gtb_spec (height rl) (height rr)) as [E1|E1]; simpl;
      [|destruct (Z.gtb_spec (height rr) (height rl)) as [E2|E2]; simpl; [|lia]].
    + destruct rl as [|x1 x2 x3 x4 x5]; simpl in *; [lia|].
      destruct Hrl' as (? & -> & ? & ?).
      pose proof (height_nonneg x1). pose proof (height_nonneg x5).
      eexists; split; [done|]. simpl. rewrite !is_avl_aux by done.
      split; [|lia]. simpl. split_and!; try done; lia.
    + destruct rr as [|x1 x2 x3 x4 x5]; simpl in *; [lia|].
      destruct Hrr as (? & -> & ? & ?).
      eexists; split; [done|]. simpl. rewrite !is_avl_aux by done.
      split; [|lia]. simpl. split_and!; try done; lia.
Qed.

(** After an insertion the loop of [_rebalance_avl] restores the AVL
    condition in the whole tree. *)
Lemma rebalance_avl_insert up : forall l k v a r,
  is_avl l -> is_avl r -> pending l a r -> path_avl up a ->
  exists t, _rebalance_avl (Node l k v a r) up = Some t /\ is_avl t.
Proof.
  induction up as [|f up IH]; intros l k v a r Hl Hr Hp Hup;
    destruct (rebalance_node_insert l k v a r Hl Hr Hp) as (p' & Hp' & Havl & Hh);
    simpl _rebalance_avl; rewrite Hp'; simpl; rewrite (is_avl_aux p' Havl).
  - destruct (height p' =? a); eauto.
  - destruct (Z.eqb_spec (height p') a) as [E|E].
    + eexists; split; [done|].
      change (is_avl (plug p' (f :: up))). apply is_avl_plug.
      split; [done|]. by rewrite E.
    + destruct Hh as [?|[Hh Ht]]; [done|].
      destruct f as [d fk fv fa s]. destruct Hup as (Hs & Hb & -> & Hup).
      destruct d; simpl; apply IH; try done.
      * right. left. split; [done|]. lia.
      * right. right. split; [done|]. lia.
Qed.

(** [put] keeps the AVL condition. *)
Lemma put_avl k v (m m' : AVLTreeMap K V) old :
  valid m -> is_avl (tree_root m) -> put k v m = Some (m', old) ->
  is_avl (tree_root m').
Proof.
  intros (Hbst & Hh & Hsz & Hms) Havl. unfold put.
  destruct (Z.eqb_spec (tree_size m) 0) as [E|E].
  - assert (tree_root m = Leaf) as Hroot by (apply length_zero_leaf; lia).
    rewrite Hroot.
    destruct (rebalance_avl_insert [] Leaf k v 0 Leaf I I) as (t & Ht & Hok);
      [by left|done|].
    rewrite Ht. simpl. by intros [= <- <-].
  - destruct (_find_position k (tree_root m) []) as [p up] eqn:Hf.
    apply find_position_spec in Hf
      as (Hplug & Hp & ml & mr & Hb & Ha & Hin & Hs).
    destruct (Hs Hbst) as [Hlt Hgt]. simpl in Hb, Ha, Hplug. rewrite app_nil_r in Ha.
    rewrite <- Hplug in Havl. apply is_avl_plug in Havl as [Hap Haup].
    destruct Hp as [->|(l & old0 & a & r & ->)].
    + destruct up as [|[d pk pv pa sib] up]; [done|].
      cbv beta iota zeta.
      assert ((if key_ltb k pk then L else R) = d
              /\ (child d (attach (Frame d pk pv pa sib) Leaf)) = Leaf
              /\ child (if key_ltb k pk then R else L)
                   (attach (Frame d pk pv pa sib) Leaf) = sib) as (Hside & Hc & Hsib).
      { simpl in Hb, Ha. destruct d; simpl.
        - assert (key_lt k pk) as Hk by (apply Hgt; rewrite <- Ha; simpl; by left).
          apply key_ltb_true in Hk. by rewrite Hk.
        - assert (key_lt pk k) as Hk.
          { apply Hlt. rewrite <- Hb, !fmap_app, !elem_of_app. right. right.
            simpl. by left. }
          assert (key_ltb k pk = false) as ->; [|done].
          destruct (key_ltb k pk) eqn:E'; [|done].
          apply key_ltb_true in E'.
          destruct (key_lt_irrefl k). by eapply key_lt_trans. }
      rewrite Hside, Hc, Hsib.
      destruct (rebalance_avl_insert (Frame d pk pv pa sib :: up) Leaf k v 0 Leaf I I)
        as (t & Ht & Hok); [by left|done|].
      rewrite Ht. simpl. by intros [= <- <-].
    + intros [= <- <-]. simpl. apply is_avl_plug. split; [exact Hap|exact Haup].
Qed.

Lemma puts_avl (kvs : list (K * V)) : forall m : AVLTreeMap K V,
  valid m -> is_avl (tree_root m) ->
  exists m', run ((fun kv => Put kv.1 kv.2) <$> kvs) m = Some m'
             /\ valid m' /\ is_avl (tree_root m').
Proof.
  induction kvs as [|[k v] kvs IH]; intros m Hm Havl; simpl; [eauto|].
  destruct (put_spec k v m Hm) as (m1 & Hput & Hm1 & _).
  rewrite Hput. simpl. apply IH; [done|]. exact (put_avl k v m m1 _ Hm Havl Hput).
Qed.

(** AVL trees are shallow: a tree of height [h] has at least
    [2 ^ (h / 2) - 1] nodes. *)
Lemma is_avl_size t :
  is_avl t -> 2 ^ (height t / 2) <= Z.of_nat (length (inorder t)) + 1.
Proof.
  induction t as [|l IHl k v a r IHr]; simpl; [done|].
  intros (Hb & _ & Hl & Hr). specialize (IHl Hl). specialize (IHr Hr).
  rewrite length_app. simpl.
  pose proof (height_nonneg l) as Hl0. pose proof (height_nonneg r) as Hr0.
  set (h := 1 + Z.max (height l) (height r)).
  destruct (decide (h = 1)) as [E|E].
  { rewrite E. change (2 ^ (1 / 2)) with 1. lia. }
  assert (2 <= h) as Hh2 by lia.
  assert (h / 2 - 1 <= height l / 2) as H1.
  { replace (h / 2 - 1) with ((h - 2) / 2)
      by (replace h with ((h - 2) + 1 * 2) at 2 by lia; rewrite Z.div_add; lia).
    apply Z.div_le_mono; lia. }
  assert (h / 2 - 1 <= height r / 2) as H2.
  { replace (h / 2 - 1) with ((h - 2) / 2)
      by (replace h with ((h - 2) + 1 * 2) at 2 by lia; rewrite Z.div_add; lia).
    apply Z.div_le_mono; lia. }
  assert (0 <= h / 2 - 1) as H0.
  { assert (1 <= h / 2); [|lia]. change 1 with (2 / 2). apply Z.div_le_mono; lia. }
  assert (2 ^ (h / 2 - 1) <= 2 ^ (height l / 2)) by (apply Z.pow_le_mono_r; lia).
  assert (2 ^ (h / 2 - 1) <= 2 ^ (height r / 2)) by (apply Z.pow_le_mono_r; lia).
  replace (h / 2) with (Z.succ (h / 2 - 1)) by lia.
  rewrite Z.pow_succ_r by done. lia.
Qed.

(** X5: insertions alone keep the balance.  After any sequence of [put]
    on an empty map every node satisfies the AVL condition, with its height
    cached, and a tree of height [h] holds at least [2 ^ (h / 2) - 1]
    keys. *)
Theorem X5_puts_keep_the_tree_balanced (kvs : list (K * V)) :
  exists m,
    run ((fun kv => Put kv.1 kv.2) <$> kvs) empty_map = Some m
    /\ avl (tree_root m) = true
    /\ 2 ^ (height (tree_root m) / 2) <= Z.of_nat (length (iter m)) + 1.
Proof.
  destruct (puts_avl kvs empty_map valid_empty I) as (m & Hrun & Hm & Havl).
  exists m. split_and!; [done|by apply avl_is_avl|].
  rewrite iter_entries, length_fmap by done. by apply is_avl_size.
Qed.

End Facts.
End InsertBalance.

Module SearchFacts.
Import Indexing IndexingFacts MapAccess.
Section Facts.
Context {K V : Type} `{KeyOrd K}.

Lemma tree_search_find (k : K) : forall (t : tree K V) up,
  _tree_search t up k
  = match _find_position k t up with
    | (Leaf, _) => None
    | pos => Some pos
    end.
Proof.
  induction t as [|l IHl k' v a r IHr]; intros up; simpl; [done|].
  destruct (kcmp k k'); [done|apply IHl|apply IHr].
Qed.

(** X13: on the map left by any sequence of operations, the recursive
    [_tree_search] from the root finds a position exactly when [get] finds a
    value: the position holds the key and that value, and is a position of
    the tree. *)
Theorem X13_tree_search_agrees_with_get (ops : list (op (K:=K) (V:=V))) (k : K) :
  exists m,
    run ops empty_map = Some m
    /\ match _tree_search (tree_root m) [] k with
       | Some (Node l k' v a r, up) =>
           k' = k /\ get k m = Some v /\ plug (Node l k' v a r) up = tree_root m
       | Some (Leaf, _) => False
       | None => get k m = None
       end.
Proof.
  destruct (run_spec ops empty_map (fun _ => false) valid_empty)
    as (m & Hrun & Hm & _).
  { intros k'. split; [by intros [? ?]|done]. }
  exists m. split; [done|]. rewrite tree_search_find. unfold get.
  destruct Hm as (_ & _ & Hsz & _).
  destruct (Z.eqb_spec (tree_size m) 0) as [E|E].
  { rewrite (length_zero_leaf (tree_root m)) by lia. done. }
  destruct (_find_position k (tree_root m) []) as [[|l k' v a r] up] eqn:Hf; [done|].
  apply find_position_spec in Hf as (Hplug & [?|(? & ? & ? & ? & [= -> -> -> -> ->])] & _);
    done.
Qed.

End Facts.
End SearchFacts.

(** ** The queries of the store *)

Module QueriesFacts.
Import Indexing IndexingFacts Storage StorageFacts Queries.

Implicit Types (ds : list (option record)) (db : CryptoDB) (rec : record).

Lemma collect_omap ds ids : collect ds ids = omap (live_record ds) ids.
Proof.
  induction ids as [|rid ids IH]; simpl; [done|].
  unfold live_record at 1.
  destruct (Z.leb_spec 0 rid) as [H0|H0]; simpl.
  - destruct (Z.ltb_spec rid (Z.of_nat (length ds))) as [H1|H1].
    + destruct (ds !! Z.to_nat rid) as [[r|]|]; simpl; by rewrite IH.
    + rewrite (lookup_ge_None_2 ds (Z.to_nat rid)) by lia. simpl. exact IH.
  - exact IH.
Qed.

Lemma first_record_head ds ids : first_record ds ids = head (collect ds ids).
Proof.
  induction ids as [|rid ids IH]; simpl; [done|].
  destruct ((0 <=? rid) && (rid <? Z.of_nat (length ds))); [|done].
  by destruct (ds !! Z.to_nat rid) as [[r|]|].
Qed.

Lemma omap_live ds ids :
  (forall id, id ∈ ids -> is_Some (live_record ds id)) ->
  Forall2 (fun id rec => live_record ds id = Some rec) ids (omap (live_record ds) ids).
Proof.
  induction ids as [|id ids IH]; intros Hall; simpl; [constructor|].
  destruct (Hall id) as [rec Hrec]; [by left|]. rewrite Hrec.
  constructor; [done|]. apply IH. intros i Hi. apply Hall. by right.
Qed.

Lemma occurrences_NoDup (b : list Z) :
  (forall id, (occurrences id b <= 1)%nat) -> NoDup b.
Proof.
  induction b as [|x b IH]; intros Hle; [constructor|].
  constructor.
  - intros Hx%occurrences_elem_of. specialize (Hle x).
    rewrite occurrences_cons, bool_decide_eq_true_2 in Hle by done. lia.
  - apply IH. intros id. specialize (Hle id). rewrite occurrences_cons in Hle. lia.
Qed.

Section Buckets.
Context {K : Type} `{KeyOrd K} `{!EqDecision K}.
Implicit Types (index : AVLTreeMap K (list Z)) (field : record -> option K).

Lemma bucket_NoDup field ds index key :
  index_ok (key_at field ds) index -> NoDup (bucket index key).
Proof.
  intros [_ Hocc]. apply occurrences_NoDup. intros id. rewrite Hocc.
  case_bool_decide; lia.
Qed.

Lemma bucket_elem_of field ds index key id :
  index_ok (key_at field ds) index ->
  id ∈ bucket index key <-> key_at field ds id = Some key.
Proof.
  intros [_ Hocc]. rewrite <- occurrences_elem_of, Hocc.
  case_bool_decide; split; try done; lia.
Qed.

(** The records collected from the bucket of a key are the live records
    whose field is the key. *)
Lemma bucket_lists_exactly field ds index key :
  index_ok (key_at field ds) index ->
  lists_exactly ds (fun rec => field rec = Some key)
    (collect ds (bucket index key)).
Proof.
  intros Hok. exists (bucket index key). split_and!.
  - by eapply bucket_NoDup.
  - rewrite collect_omap. apply omap_live. intros id Hid.
    apply (bucket_elem_of field ds) in Hid; [|done].
    unfold key_at in Hid. by destruct (live_record ds id).
  - intros id. rewrite (bucket_elem_of field ds) by done. unfold key_at.
    destruct (live_record ds id) as [rec|]; simpl.
    + split; [by exists rec|]. by intros (? & [= <-] & ?).
    + split; [done|]. by intros (? & ? & _).
Qed.

End Buckets.

Lemma lists_exactly_nil_iff ds (P : record -> Prop) rs :
  lists_exactly ds P rs ->
  rs = [] <-> forall id rec, live_record ds id = Some rec -> ~ P rec.
Proof.
  intros (ids & _ & Hrs & Hin). split.
  - intros -> id rec Hl HP. apply Forall2_nil_inv_r in Hrs. subst ids.
    assert (id ∈ @nil Z) as Hx by (apply Hin; eauto). by apply elem_of_nil in Hx.
  - intros Hnone. destruct Hrs as [|id rec ids rs Hl _]; [done|].
    assert (id ∈ id :: ids) as Hx by by left.
    apply Hin in Hx as (rec' & Hl' & HP). by destruct (Hnone id rec' Hl').
Qed.

Lemma run_store_ok ops : exists db, run ops empty_db = Some db /\ store_ok db.
Proof.
  destruct (run_ok ops empty_db store_ok_empty) as (db & Hrun & Hok & _). eauto.
Qed.

Lemma collect_bucket {K} `{KeyOrd K} (index : AVLTreeMap K (list Z)) key ds :
  match get key index with
  | None => []
  | Some record_ids => collect ds record_ids
  end = collect ds (bucket index key).
Proof. unfold bucket. by destruct (get key index). Qed.

(** X6: in a store reached by any sequence of mutations,
    [get_records_by_timestamp ts] returns the records that are not
    tombstones and have the timestamp [ts], one per slot, and
    [get_record_by_timestamp ts] returns the first of them, [None] exactly
    when no such record is in the store. *)
Theorem X6_records_by_timestamp (ops : list op) (ts : Z) :
  exists db,
    run ops empty_db = Some db
    /\ lists_exactly (data_store db) (fun rec => timestamp rec = Some ts)
         (get_records_by_timestamp ts db)
    /\ get_record_by_timestamp ts db = head (get_records_by_timestamp ts db)
    /\ (get_record_by_timestamp ts db = None
        <-> forall id rec, live_record (data_store db) id = Some rec ->
                           timestamp rec <> Some ts).
Proof.
  destruct (run_store_ok ops) as (db & Hrun & Hok).
  exists db. destruct Hok as (_ & _ & _ & Hi1 & _).
  assert (lists_exactly (data_store db) (fun rec => timestamp rec = Some ts)
            (get_records_by_timestamp ts db)) as Hlist.
  { unfold get_records_by_timestamp. rewrite collect_bucket.
    by apply bucket_lists_exactly. }
  assert (get_record_by_timestamp ts db = head (get_records_by_timestamp ts db)) as Hhead.
  { unfold get_record_by_timestamp, get_records_by_timestamp.
    destruct (get ts (timestamp_index db)); [apply first_record_head|done]. }
  split_and!; try done.
  rewrite Hhead, <- (lists_exactly_nil_iff _ _ _ Hlist).
  by destruct (get_records_by_timestamp ts db).
Qed.

(** X7: in a store reached by any sequence of mutations,
    [get_records_by_token] returns the records that are not tombstones and
    have the token, one per slot; [get_records_by_wallet_sender] does the
    same for the sender wallet; and the methods [by_token] and [by_sender]
    of [QueryEngine] return the same lists. *)
Theorem X7_records_by_token_and_sender (ops : list op) (key : string) :
  exists db,
    run ops empty_db = Some db
    /\ lists_exactly (data_store db) (fun rec => token rec = Some key)
         (get_records_by_token key db)
    /\ lists_exactly (data_store db) (fun rec => wallet_from rec = Some key)
         (get_records_by_wallet_sender key db)
    /\ by_token db key = get_records_by_token key db
    /\ by_sender db key = get_records_by_wallet_sender key db.
Proof.
  destruct (run_store_ok ops) as (db & Hrun & Hok).
  exists db. destruct Hok as (_ & _ & _ & _ & Hi2 & Hi3).
  split_and!; try done.
  - unfold get_records_by_token, _collect_by_index. rewrite collect_bucket.
    by apply bucket_lists_exactly.
  - unfold get_records_by_wallet_sender, _collect_by_index. rewrite collect_bucket.
    by apply bucket_lists_exactly.
Qed.

(** *** Range queries *)

Lemma omap_concat {A B} (f : A -> option B) (ls : list (list A)) :
  omap f (concat ls) = concat ((fun l : list A => omap f l) <$> ls).
Proof.
  induction ls as [|l ls IH]; simpl; [done|]. by rewrite omap_app, IH.
Qed.

Lemma elem_of_concat {A} (x : A) (ls : list (list A)) :
  x ∈ concat ls <-> exists l, x ∈ l /\ l ∈ ls.
Proof.
  induction ls as [|l ls IH]; simpl.
  - split; [by intros ?%elem_of_nil|by intros (? & _ & ?%elem_of_nil)].
  - rewrite elem_of_app, IH. split.
    + intros [Hx|(l' & Hx & Hl')]; [exists l; split; [done|by left]|].
      exists l'. split; [done|by right].
    + intros (l' & Hx & [->|Hl']%elem_of_cons); [by left|right; by exists l'].
Qed.

Lemma Z_key_leb (a b : Z) : key_leb a b = true <-> a <= b.
Proof.
  unfold key_leb. simpl. destruct (Z.compare_spec a b); split; try done; lia.
Qed.

Lemma Z_key_ltb (a b : Z) : key_ltb a b = true <-> a < b.
Proof.
  unfold key_ltb. simpl. destruct (Z.compare_spec a b); split; try done; lia.
Qed.

Lemma Z_key_lt (a b : Z) : key_lt a b <-> a < b.
Proof. unfold key_lt. simpl. apply Z.compare_lt_iff. Qed.

Lemma assoc_Some_elem_of {K V} `{KeyOrd K} (k : K) (v : V) es :
  assoc k es = Some v -> (k, v) ∈ es.
Proof.
  induction es as [|[k' v'] es IH]; simpl; [done|].
  destruct (key_eqb k k') eqn:E.
  - apply key_eqb_true in E as ->. intros [= ->]. by left.
  - intros Hk. right. by apply IH.
Qed.

Section Range.
Variables (ds : list (option record)) (index : AVLTreeMap Z (list Z)).
Hypothesis index_agrees : index_ok (key_at timestamp ds) index.

(** The buckets of a part [es] of the entries of the index, keys
    ascending. *)
Lemma buckets_sorted (es : list (Z * list Z)) :
  sorted_entries es ->
  (forall e, e ∈ es -> e.2 = bucket index e.1) ->
  NoDup (concat es.*2)
  /\ (forall id, id ∈ concat es.*2 ->
        exists e, e ∈ es /\ key_at timestamp ds id = Some e.1)
  /\ StronglySorted ts_le (omap (live_record ds) (concat es.*2))
  /\ (forall r, r ∈ omap (live_record ds) (concat es.*2) ->
        exists e, e ∈ es /\ timestamp r = Some e.1).
Proof.
  induction es as [|[k b] es IH]; intros Hs Hb.
  { simpl. split_and!; [constructor|by intros ? ?%elem_of_nil|constructor|
                         by intros ? ?%elem_of_nil]. }
  apply sorted_entries_cons in Hs as [Hgt Hs].
  destruct IH as (Hnd & Hin & Hsorted & Hts); [done|intros e He; apply Hb; by right|].
  assert (b = bucket index k) as Hbk by (apply (Hb (k, b)); by left).
  assert (forall id, id ∈ b -> key_at timestamp ds id = Some k) as Hkey.
  { intros id Hid. rewrite Hbk in Hid.
    by apply (bucket_elem_of timestamp ds index k id index_agrees). }
  assert (forall r, r ∈ omap (live_record ds) b -> timestamp r = Some k) as Hrk.
  { intros r (id & Hid & Hr)%list_elem_of_omap.
    specialize (Hkey id Hid). unfold key_at in Hkey. by rewrite Hr in Hkey. }
  cbn [fmap list_fmap concat snd]. rewrite omap_app.
  split_and!.
  - apply NoDup_app. split_and!; [|intros id Hid Hid'|done].
    + rewrite Hbk. by eapply bucket_NoDup.
    + destruct (Hin id Hid') as (e & He & Hk').
      rewrite (Hkey id Hid) in Hk'. injection Hk' as Hk'.
      assert (key_lt k e.1) as Hlt.
      { apply Hgt. apply list_elem_of_fmap. by exists e. }
      apply (proj1 (Z_key_lt _ _)) in Hlt. lia.
  - intros id [Hid|Hid]%elem_of_app.
    + exists (k, b). split; [by left|]. by apply Hkey.
    + destruct (Hin id Hid) as (e & He & Hk'). exists e. split; [by right|done].
  - apply StronglySorted_app. split_and!; [| |done].
    + intros r1 r2 Hr1 Hr2. destruct (Hts r2 Hr2) as (e & He & Ht2).
      unfold ts_le. rewrite (Hrk r1 Hr1), Ht2.
      assert (key_lt k e.1) as Hlt.
      { apply Hgt. apply list_elem_of_fmap. by exists e. }
      apply (proj1 (Z_key_lt _ _)) in Hlt. lia.
    + assert (forall l : list record,
                (forall r, r ∈ l -> timestamp r = Some k) -> StronglySorted ts_le l)
        as Hsame.
      { induction l as [|r l IHl]; intros Hall; constructor.
        - apply IHl. intros r' Hr'. apply Hall. by right.
        - apply Forall_forall. intros r' Hr'. unfold ts_le.
          rewrite (Hall r), (Hall r'); [lia|by right|by left]. }
      by apply Hsame.
  - intros r [Hr|Hr]%elem_of_app.
    + exists (k, b). split; [by left|]. by apply Hrk.
    + destruct (Hts r Hr) as (e & He & Ht). exists e. split; [by right|done].
Qed.

Lemma range_query_spec (start_ts end_ts : Z) :
  exists rs,
    (buckets ← sub_map start_ts end_ts index;
     Some (concat (collect ds <$> buckets))) = Some rs
    /\ lists_exactly ds
         (fun rec => exists ts, timestamp rec = Some ts /\ start_ts <= ts < end_ts) rs
    /\ StronglySorted ts_le rs.
Proof.
  pose proof index_agrees as [Hv _]. pose proof Hv as (Hbst & _).
  rewrite (sub_map_spec start_ts end_ts index Hv). simpl.
  set (es := filter (in_upper end_ts) (filter (in_lower start_ts) (entries index))).
  assert (sorted_entries es) as Hs by (by do 2 apply sorted_entries_filter).
  assert (forall e, e ∈ es <-> e ∈ entries index /\ start_ts <= e.1 < end_ts) as Hes.
  { intros e. unfold es. rewrite !list_elem_of_filter. unfold in_upper, in_lower.
    rewrite Z_key_leb, Z_key_ltb. tauto. }
  assert (forall e, e ∈ entries index -> e.2 = bucket index e.1) as Hbk.
  { intros e He. pose proof (sorted_entries_assoc (entries index) Hbst) as Hall.
    rewrite Forall_forall in Hall. specialize (Hall e He).
    unfold bucket. by rewrite get_spec, Hall. }
  destruct (buckets_sorted es Hs) as (Hnd & Hin & Hsorted & Hts).
  { intros e He. apply Hbk. by apply Hes. }
  assert (concat (collect ds <$> es.*2) = omap (live_record ds) (concat es.*2)) as Hrs.
  { rewrite omap_concat. f_equal. apply list_fmap_ext. intros _ b _. apply collect_omap. }
  eexists; split; [done|]. rewrite Hrs. split; [|done].
  exists (concat es.*2). split_and!; [done| |].
  - apply omap_live. intros id Hid. destruct (Hin id Hid) as (e & _ & Hk).
    unfold key_at in Hk. by destruct (live_record ds id).
  - intros id. split.
    + intros Hid. destruct (Hin id Hid) as (e & He & Hk).
      unfold key_at in Hk. destruct (live_record ds id) as [rec|]; [|done].
      exists rec. split; [done|]. exists e.1. split; [done|]. by apply Hes.
    + intros (rec & Hl & ts & Hts' & Hrange).
      assert (id ∈ bucket index ts) as Hid.
      { apply (bucket_elem_of timestamp ds index ts id index_agrees).
        unfold key_at. by rewrite Hl. }
      unfold bucket in Hid.
      destruct (get ts index) as [b|] eqn:Hg; [|by apply elem_of_nil in Hid].
      simpl in Hid. rewrite get_spec in Hg by done.
      apply assoc_Some_elem_of in Hg.
      apply elem_of_concat. exists b. split; [done|].
      apply list_elem_of_fmap. exists (ts, b). split; [done|]. by apply Hes.
Qed.

End Range.

(** X8: in a store reached by any sequence of mutations,
    [range_query_by_timestamp start end] returns, and yields the records
    that are not tombstones and have a timestamp [ts] with
    [start <= ts < end], one per slot, in ascending order of timestamp; it
    yields nothing when [end <= start].  [QueryEngine.range_by_time] yields
    the same records. *)
Theorem X8_range_query_by_timestamp (ops : list op) (start_ts end_ts : Z) :
  exists db rs,
    run ops empty_db = Some db
    /\ range_query_by_timestamp start_ts end_ts db = Some rs
    /\ range_by_time db start_ts end_ts = Some rs
    /\ lists_exactly (data_store db)
         (fun rec => exists ts, timestamp rec = Some ts /\ start_ts <= ts < end_ts) rs
    /\ StronglySorted ts_le rs
    /\ (end_ts <= start_ts -> rs = []).
Proof.
  destruct (run_store_ok ops) as (db & Hrun & Hok).
  destruct Hok as (_ & _ & _ & Hi1 & _).
  destruct (range_query_spec (data_store db) (timestamp_index db) Hi1 start_ts end_ts)
    as (rs & Hq & Hlist & Hsorted).
  exists db, rs. split_and!; try done.
  intros Hle. apply (lists_exactly_nil_iff _ _ _ Hlist).
  intros id rec _ (ts & _ & Hr). lia.
Qed.

(** *** Mutations seen through the queries *)

Lemma collect_app ds b1 b2 : collect ds (b1 ++ b2) = collect ds b1 ++ collect ds b2.
Proof. by rewrite !collect_omap, omap_app. Qed.

Lemma omap_ext_in {A B} (f g : A -> option B) (l : list A) :
  (forall x, x ∈ l -> f x = g x) -> omap f l = omap g l.
Proof.
  induction l as [|x l IH]; intros Heq; [done|].
  change (omap f (x :: l)) with (match f x with Some y => y :: omap f l | None => omap f l end).
  change (omap g (x :: l)) with (match g x with Some y => y :: omap g l | None => omap g l end).
  rewrite (Heq x) by (by left). rewrite IH; [done|].
  intros y Hy. apply Heq. by right.
Qed.

Lemma collect_grow ds slot (b : list Z) :
  (forall id, id ∈ b -> is_Some (live_record ds id)) ->
  collect (ds ++ [Some slot]) b = collect ds b.
Proof.
  intros Hall. rewrite !collect_omap. apply omap_ext_in.
  intros id Hid. rewrite live_record_app.
  destruct (Hall id Hid) as [rec Hrec].
  pose proof (live_record_lt _ _ _ Hrec).
  by rewrite bool_decide_eq_false_2 by lia.
Qed.

Section InsertIndex.
Context {K : Type} `{KeyOrd K} `{!EqDecision K}.
Implicit Types (index : AVLTreeMap K (list Z)) (field : record -> option K).

(** What the queries of an index return after [rec] was appended to the
    store and its id added under the key of its field. *)
Lemma collect_after_insert field ds index index' rec key :
  index_ok (key_at field ds) index ->
  add_opt index (field rec) (Z.of_nat (length ds)) = Some index' ->
  collect (ds ++ [Some rec]) (bucket index' key)
  = collect ds (bucket index key)
    ++ (if bool_decide (field rec = Some key) then [rec] else []).
Proof.
  intros Hok Hadd.
  assert (collect (ds ++ [Some rec]) (bucket index key) = collect ds (bucket index key))
    as Hold.
  { apply collect_grow. intros id Hid.
    apply (bucket_elem_of field ds) in Hid; [|done].
    unfold key_at in Hid. by destruct (live_record ds id). }
  destruct (field rec) as [k|] eqn:Hf; simpl in Hadd.
  - destruct Hok as [Hv _].
    destruct (add_to_bucket_spec index k (Z.of_nat (length ds)) Hv)
      as (i' & Hadd' & _ & Hb).
    rewrite Hadd in Hadd'. injection Hadd' as <-. rewrite Hb.
    case_bool_decide as E.
    + subst key. rewrite bool_decide_eq_true_2 by done.
      rewrite collect_app, Hold. f_equal.
      rewrite collect_omap. simpl. rewrite live_record_app.
      by rewrite bool_decide_eq_true_2.
    + rewrite bool_decide_eq_false_2 by congruence. by rewrite app_nil_r.
  - injection Hadd as <-. rewrite bool_decide_eq_false_2 by done.
    by rewrite app_nil_r.
Qed.

End InsertIndex.

(** X10: in a store reached by any sequence of mutations, inserting a
    record that has a timestamp returns the number of slots as the new id,
    appends the record to the store and adds one to the count; afterwards
    the queries by timestamp, by token and by sender wallet return what they
    returned before, followed by the new record under its own timestamp,
    token and sender wallet. *)
Theorem X10_insert_then_query (ops : list op) (rec : record) (ts : Z) :
  timestamp rec = Some ts ->
  exists db db',
    run ops empty_db = Some db
    /\ insert_record rec db = Some (db', Z.of_nat (length (data_store db)))
    /\ data_store db' = data_store db ++ [Some rec]
    /\ len db' = len db + 1
    /\ (forall ts', get_records_by_timestamp ts' db'
                    = get_records_by_timestamp ts' db
                      ++ (if bool_decide (ts' = ts) then [rec] else []))
    /\ (forall tk, get_records_by_token tk db'
                   = get_records_by_token tk db
                     ++ (if bool_decide (token rec = Some tk) then [rec] else []))
    /\ (forall w, get_records_by_wallet_sender w db'
                  = get_records_by_wallet_sender w db
                    ++ (if bool_decide (wallet_from rec = Some w) then [rec] else [])).
Proof.
  intros Hts. destruct (run_store_ok ops) as (db & Hrun & Hok).
  destruct (insert_record_ok rec db ts Hok Hts) as (db' & Hins & Hok' & Hds).
  exists db, db'. split_and!; try done.
  - unfold insert_record in Hins. rewrite Hts in Hins. simpl in Hins.
    apply bind_Some in Hins as (ti & _ & Hins).
    apply bind_Some in Hins as (tk & _ & Hins).
    apply bind_Some in Hins as (wf & _ & Hins).
    by injection Hins as <- _.
  - intros ts'. unfold get_records_by_timestamp. rewrite !collect_bucket, Hds.
    destruct Hok as (Hnext & _ & _ & Hi1 & _).
    unfold insert_record in Hins. rewrite Hts in Hins. simpl in Hins.
    apply bind_Some in Hins as (ti & Hti & Hins).
    apply bind_Some in Hins as (tk & _ & Hins).
    apply bind_Some in Hins as (wf & _ & Hins).
    injection Hins as <- _. simpl. rewrite Hnext in Hti.
    rewrite (collect_after_insert timestamp _ _ ti rec ts' Hi1); [|by rewrite Hts].
    rewrite Hts. f_equal.
    rewrite (bool_decide_ext (Some ts = Some ts') (ts' = ts)); [done|].
    split; congruence.
  - intros key. unfold get_records_by_token, _collect_by_index.
    rewrite !collect_bucket, Hds.
    destruct Hok as (Hnext & _ & _ & _ & Hi2 & _).
    unfold insert_record in Hins. rewrite Hts in Hins. simpl in Hins.
    apply bind_Some in Hins as (ti & _ & Hins).
    apply bind_Some in Hins as (tk & Htk & Hins).
    apply bind_Some in Hins as (wf & _ & Hins).
    injection Hins as <- _. simpl. rewrite Hnext in Htk.
    by apply (collect_after_insert token).
  - intros key. unfold get_records_by_wallet_sender, _collect_by_index.
    rewrite !collect_bucket, Hds.
    destruct Hok as (Hnext & _ & _ & _ & _ & Hi3).
    unfold insert_record in Hins. rewrite Hts in Hins. simpl in Hins.
    apply bind_Some in Hins as (ti & _ & Hins).
    apply bind_Some in Hins as (tk & _ & Hins).
    apply bind_Some in Hins as (wf & Hwf & Hins).
    injection Hins as <- _. simpl. rewrite Hnext in Hwf.
    by apply (collect_after_insert wallet_from).
Qed.

Lemma X10_insert_then_query_witness :
  exists db',
    insert_record (transfer 300 "BTC" "C" "A" 9 3) two_transfers_db = Some (db', 2)
    /\ get_records_by_token "BTC" db'
       = [transfer 100 "BTC" "A" "B" 5 1; transfer 300 "BTC" "C" "A" 9 3].
Proof.
  destruct (X10_insert_then_query two_transfers (transfer 300 "BTC" "C" "A" 9 3) 300
              eq_refl) as (db & db' & Hrun & Hins & _ & _ & _ & Htk & _).
  vm_compute in Hrun. injection Hrun as <-.
  exists db'. split; [exact Hins|]. rewrite Htk. reflexivity.
Defined.


Lemma update_record_slot id u rec db db' :
  live_record (data_store db) id = Some rec ->
  update_record id u db = Some (db', true) ->
  data_store db' = <[Z.to_nat id := Some (updated rec u)]> (data_store db).
Proof.
  intros Hl. pose proof (live_record_lt _ _ _ Hl) as Hid.
  apply live_record_Some in Hl as [_ Hslot].
  unfold update_record, in_store.
  assert ((0 <=? id) && (id <? Z.of_nat (length (data_store db))) = true) as ->.
  { apply andb_true_iff. split; [apply Z.leb_le|apply Z.ltb_lt]; lia. }
  simpl. rewrite Hslot. simpl.
  intros Hu. apply bind_Some in Hu as (ti & _ & Hu).
  apply bind_Some in Hu as (tk & _ & Hu).
  apply bind_Some in Hu as (wf & _ & Hu).
  by injection Hu as <-.
Qed.

(** X9: in a store reached by any sequence of mutations, [update_record]
    on an id that is out of range or a tombstone returns [False] and the
    store it was given.  On the id of a record it returns [True]: the slot
    holds the record with the updates applied, no other slot changes, the
    count of records stays, and the id is listed under a timestamp, a token
    or a sender wallet exactly when the updated record has it. *)
Theorem X9_update_record (ops : list op) (id : Z) (u : updates) :
  exists db,
    run ops empty_db = Some db
    /\ (live_record (data_store db) id = None ->
        update_record id u db = Some (db, false))
    /\ (forall rec,
          live_record (data_store db) id = Some rec ->
          exists db',
            update_record id u db = Some (db', true)
            /\ data_store db' = <[Z.to_nat id := Some (updated rec u)]> (data_store db)
            /\ live_record (data_store db') id = Some (updated rec u)
            /\ (forall id', id' <> id ->
                  live_record (data_store db') id' = live_record (data_store db) id')
            /\ len db' = len db
            /\ (forall ts, id ∈ bucket (timestamp_index db') ts
                           <-> timestamp (updated rec u) = Some ts)
            /\ (forall tk, id ∈ bucket (token_index db') tk
                           <-> token (updated rec u) = Some tk)
            /\ (forall w, id ∈ bucket (wallet_from_index db') w
                          <-> wallet_from (updated rec u) = Some w)).
Proof.
  destruct (run_store_ok ops) as (db & Hrun & Hok).
  exists db. split_and!; [done|by apply update_record_fail|].
  intros rec Hl.
  destruct (update_record_ok id u rec db Hok Hl) as (db' & rec' & Hu & Hok' & _ & Hact).
  pose proof (update_record_slot id u rec db db' Hl Hu) as Hds.
  pose proof (live_record_lt _ _ _ Hl) as Hid.
  assert (live_record (data_store db') id = Some (updated rec u)) as Hl'.
  { rewrite Hds, live_record_insert by done. by rewrite bool_decide_eq_true_2. }
  exists db'. destruct Hok' as (_ & _ & _ & Hi1 & Hi2 & Hi3).
  split_and!; try done.
  - intros id' Hne. rewrite Hds, live_record_insert by done.
    by rewrite bool_decide_eq_false_2.
  - intros ts. rewrite (bucket_elem_of timestamp (data_store db')) by done.
    unfold key_at. by rewrite Hl'.
  - intros tk. rewrite (bucket_elem_of token (data_store db')) by done.
    unfold key_at. by rewrite Hl'.
  - intros w. rewrite (bucket_elem_of wallet_from (data_store db')) by done.
    unfold key_at. by rewrite Hl'.
Qed.

Definition retoken (tk : string) : updates :=
  {| u_timestamp := None; u_token := Some (Some tk); u_price := None;
     u_volume := None; u_wallet_from := None; u_wallet_to := None;
     u_status := None; u_deleted_flag := None |}.

Lemma X9_update_record_witness :
  exists db',
    update_record 0 (retoken "ETH") two_transfers_db = Some (db', true)
    /\ live_record (data_store db') 0 = Some (transfer 100 "ETH" "A" "B" 5 1)
    /\ 0 ∈ bucket (token_index db') "ETH"%string.
Proof.
  destruct (X9_update_record two_transfers 0 (retoken "ETH")) as (db & Hrun & _ & Hup).
  vm_compute in Hrun. injection Hrun as <-.
  destruct (Hup (transfer 100 "BTC" "A" "B" 5 1) eq_refl)
    as (db' & Hu & _ & Hl & _ & _ & _ & Htk & _).
  exists db'. split; [exact Hu|]. split; [exact Hl|]. by apply Htk.
Defined.

End QueriesFacts.

(** ** Traversals and top tokens *)

Module TraversalFacts.
Import Storage Graph GraphFacts.

Section Reach.
Variable g : CryptoGraph.
Implicit Types (visited : gset string) (queue order ks news : list string).

Lemma reach_in_prepend u v : edge_to g u v ->
  forall m x, reach_in g v m x -> reach_in g u (S m) x.
Proof.
  intros He. induction m as [|m IH]; intros x; simpl.
  - intros ->. by exists u.
  - intros (z & Hz & Hzx). exists z. split; [|done]. by apply IH.
Qed.

Lemma reach_in_no_edges start :
  dict_get start (graph g) = None ->
  forall m x, reach_in g start m x -> x = start.
Proof.
  intros Hn. induction m as [|m IH]; intros x; simpl; [done|].
  intros (z & Hz & He). apply IH in Hz as ->.
  unfold edge_to, dict_default in He. rewrite Hn in He. by apply elem_of_nil in He.
Qed.

(** The inner loop of [bfs] queues the keys that were not visited, once
    each. *)
Lemma bfs_fold_spec ks : forall visited queue,
  exists news,
    foldl bfs_visit (visited, queue) ks = (list_to_set news ∪ visited, queue ++ news)
    /\ (forall v, v ∈ news -> v ∈ ks)
    /\ (forall v, v ∈ ks -> v ∈ visited \/ v ∈ news).
Proof.
  induction ks as [|k ks IH]; intros visited queue; simpl.
  - exists []. simpl. rewrite app_nil_r. split_and!.
    + f_equal. symmetry. apply (left_id_L ∅ (∪)).
    + by intros v ?%elem_of_nil.
    + by intros v ?%elem_of_nil.
  - unfold bfs_visit at 2. simpl. case_bool_decide as E.
    + destruct (IH visited queue) as (news & -> & Hnew & Hks).
      exists news. split_and!; [done| |].
      * intros v Hv. right. by apply Hnew.
      * intros v [->|Hv]%elem_of_cons; [by left|by apply Hks].
    + destruct (IH ({[k]} ∪ visited) (queue ++ [k])) as (news & -> & Hnew & Hks).
      exists (k :: news). split_and!.
      * rewrite <- app_assoc. simpl. f_equal.
        apply set_eq. intros x. rewrite !elem_of_union. tauto.
      * intros v [->|Hv]%elem_of_cons; [by left|right; by apply Hnew].
      * intros v [->|Hv]%elem_of_cons; [right; by left|].
        destruct (Hks v Hv) as [Hin|Hin]; [|right; by right].
        apply elem_of_union in Hin as [->%elem_of_singleton|Hin];
          [right; by left|by left].
Qed.

(** The state of the loop of [bfs], as to what is reached: the wallets in
    the order and the queue are reached from [start], [start] is the first
    of them, and the edges of the wallets in the order lead to visited
    wallets. *)
Definition bfs_reach (start : string) visited queue order : Prop :=
  (forall x, x ∈ visited <-> x ∈ order ++ queue)
  /\ (forall x, x ∈ order ++ queue -> exists m, reach_in g start m x)
  /\ (forall x y, x ∈ order -> edge_to g x y -> y ∈ visited)
  /\ head (order ++ queue) = Some start.

Lemma bfs_loop_reach start : forall fuel visited queue order result,
  bfs_reach start visited queue order ->
  bfs_loop fuel g visited queue order = Some result ->
  head result = Some start
  /\ forall x, x ∈ result <-> exists m, reach_in g start m x.
Proof.
  assert (forall visited order, bfs_reach start visited [] order ->
            head order = Some start
            /\ forall x, x ∈ order <-> exists m, reach_in g start m x) as Hend.
  { intros visited order (Hvis & Hreach & Hclosed & Hhead).
    rewrite app_nil_r in Hhead. split; [done|]. intros x. split.
    - intros Hx. apply Hreach. rewrite app_nil_r. exact Hx.
    - intros [m Hm]. revert m x Hm. apply reach_in_closed.
      + by apply head_Some_elem_of.
      + intros x y Hx He. pose proof (Hclosed x y Hx He) as Hy.
        apply Hvis in Hy. by rewrite app_nil_r in Hy. }
  induction fuel as [|fuel IH]; intros visited queue order result Hinv;
    destruct queue as [|u queue]; simpl; try done.
  - intros [= <-]. by apply (Hend visited).
  - intros [= <-]. by apply (Hend visited).
  - destruct (bfs_fold_spec (dict_keys (dict_default [] u (graph g))) visited queue)
      as (news & -> & Hnew & Hks).
    apply IH. destruct Hinv as (Hvis & Hreach & Hclosed & Hhead).
    split_and!.
    + intros x. rewrite elem_of_union, elem_of_list_to_set, Hvis, !elem_of_app,
        elem_of_cons, list_elem_of_singleton. tauto.
    + intros x Hx. rewrite <- app_assoc in Hx. simpl in Hx.
      apply elem_of_app in Hx as [Hx|Hx]; [apply Hreach, elem_of_app; by left|].
      apply elem_of_cons in Hx as [->|Hx]; [apply Hreach, elem_of_app; right; by left|].
      apply elem_of_app in Hx as [Hx|Hx];
        [apply Hreach, elem_of_app; right; by right|].
      destruct (Hreach u) as [m Hm]; [apply elem_of_app; right; by left|].
      exists (S m), u. split; [done|]. by apply Hnew.
    + intros x y [Hx| ->%list_elem_of_singleton]%elem_of_app He.
      * apply elem_of_union_r. by apply (Hclosed x).
      * destruct (Hks y He) as [Hy|Hy];
          [by apply elem_of_union_r|by apply elem_of_union_l, elem_of_list_to_set].
    + rewrite <- app_assoc. simpl. rewrite <- Hhead. by destruct order.
Qed.

(** X11: in any graph, [bfs start] returns, starts with [start], lists no
    wallet twice, and lists exactly the wallets that are reached from
    [start] along outgoing edges. *)
Theorem X11_bfs_lists_the_reachable_wallets (start : string) :
  exists order,
    bfs g start = Some order
    /\ head order = Some start
    /\ NoDup order
    /\ forall x, x ∈ order <-> exists m, reach_in g start m x.
Proof.
  destruct (bfs_ok g start) as (order & Hbfs & Hnd).
  exists order. split; [done|]. unfold bfs in Hbfs.
  destruct (dict_get start (graph g)) as [nb|] eqn:E.
  - assert (bfs_reach start {[start]} [start] []) as Hinit.
    { split_and!; simpl.
      - intros x. by rewrite elem_of_singleton, list_elem_of_singleton.
      - intros x ->%list_elem_of_singleton. by exists 0%nat.
      - by intros x y ?%elem_of_nil.
      - done. }
    destruct (bfs_loop_reach start _ _ _ _ order Hinit Hbfs) as [Hhead Hall].
    done.
  - injection Hbfs as <-. split_and!; [done|done|].
    intros x. rewrite list_elem_of_singleton. split.
    + intros ->. by exists 0%nat.
    + intros [m Hm]. by apply (reach_in_no_edges start E m).
Qed.

End Reach.
End TraversalFacts.

Module LevelFacts.
Import Storage Graph GraphFacts Traversal.

Section BfsLevels.
Variables (g : CryptoGraph) (start : string).
Implicit Types (visited : gset string) (order ks : list string).
Implicit Types (pq : list (string * list string)).

(** The queue of [bfs] is the queue of wallets with the paths that
    discovered them, the paths left out. *)
Lemma bfs_fold_paths u prefix ks : forall visited pq,
  foldl bfs_visit (visited, pq.*1) ks
  = ((foldl (path_visit u prefix) (visited, pq) ks).1,
     (foldl (path_visit u prefix) (visited, pq) ks).2.*1).
Proof.
  induction ks as [|k ks IH]; intros visited pq; [done|].
  cbn [foldl]. unfold bfs_visit at 2, path_visit at 2 4. cbn [fst snd].
  case_bool_decide; [apply IH|].
  rewrite <- IH. by rewrite fmap_app.
Qed.

(** The path of the first queued wallet is as short as any. *)
Lemma path_inv_head_exact dst taken visited u prefix rest m :
  path_inv g start dst taken visited ((u, prefix) :: rest) ->
  reach_in g start m u -> (length prefix <= m)%nat.
Proof.
  intros Hinv Hm.
  destruct (decide (m <= length prefix)%nat) as [Hle|Hgt]; [|lia].
  pose proof (inv_nodup _ _ _ _ _ _ Hinv) as Hnd. simpl in Hnd.
  apply NoDup_app in Hnd as (_ & Hdis & Hnd). apply NoDup_cons in Hnd as [Hnd _].
  destruct (inv_reached _ _ _ _ _ _ Hinv (u, prefix) u m eq_refl Hle Hm)
    as [Hin|(pre & Hin & Hlen)].
  - destruct (Hdis u Hin). by left.
  - apply elem_of_cons in Hin as [[= ->]|Hin]; [done|].
    destruct Hnd. apply list_elem_of_fmap. by exists (u, pre).
Qed.

Lemma bfs_loop_levels dst : forall fuel visited pq order result,
  dst ∉ start :: targets g ->
  path_inv g start dst order visited pq ->
  StronglySorted (closer g start) order ->
  (forall x e, x ∈ order -> e ∈ pq ->
     exists m', (m' <= length e.2)%nat /\ reach_in g start m' x) ->
  bfs_loop fuel g visited pq.*1 order = Some result ->
  StronglySorted (closer g start) result.
Proof.
  induction fuel as [|fuel IH]; intros visited pq order result Hdst Hinv Hsorted Hnear;
    destruct pq as [|[u prefix] rest]; simpl; try done.
  - by intros [= <-].
  - by intros [= <-].
  - rewrite (bfs_fold_paths u prefix).
    assert (u <> dst) as Hne.
    { intros ->. apply Hdst. apply (inv_targets _ _ _ _ _ _ Hinv).
      apply elem_of_app. right. by left. }
    pose proof (path_inv_step g start dst order visited u prefix rest Hinv Hne) as Hstep.
    simpl in Hstep.
    assert (reach_in g start (length prefix) u) as Hu.
    { pose proof (inv_paths _ _ _ _ _ _ Hinv u prefix ltac:(by left)) as Hp.
      apply is_path_reach in Hp. rewrite length_app in Hp. simpl in Hp.
      by rewrite Nat.add_1_r in Hp. }
    destruct (path_fold_spec u prefix (dict_keys (dict_default [] u (graph g)))
                visited rest) as (news & Hfold & _).
    rewrite Hfold in Hstep |- *. cbn [fst snd] in Hstep |- *.
    apply IH; try done.
    + apply StronglySorted_app. split_and!; [|done|repeat constructor].
      intros x y Hx ->%list_elem_of_singleton m Hm.
      destruct (Hnear x (u, prefix) Hx ltac:(by left)) as (m' & Hm' & Hr).
      exists m'. split; [|done].
      pose proof (path_inv_head_exact _ _ _ _ _ _ _ Hinv Hm). simpl in Hm'. lia.
    + intros x e Hx He.
      assert (length prefix <= length e.2)%nat as Hlev.
      { apply elem_of_app in He as [He|He].
        - pose proof (inv_sorted _ _ _ _ _ _ Hinv) as Hs.
          apply StronglySorted_cons in Hs as [Hall _].
          rewrite Forall_forall in Hall. by apply Hall.
        - apply list_elem_of_fmap in He as (v & -> & _). simpl.
          rewrite length_app. simpl. lia. }
      apply elem_of_app in Hx as [Hx| ->%list_elem_of_singleton].
      * destruct (Hnear x (u, prefix) Hx ltac:(by left)) as (m' & Hm' & Hr).
        exists m'. split; [simpl in Hm'; lia|done].
      * exists (length prefix). split; [lia|done].
Qed.

(** X16: in any graph, [bfs start] lists the wallets in order of distance:
    a wallet that comes earlier in the list is reached from [start] in no
    more hops than a wallet that comes later. *)
Theorem X16_bfs_order_is_by_distance :
  exists order,
    bfs g start = Some order
    /\ StronglySorted (closer g start) order.
Proof.
  destruct (bfs_ok g start) as (order & Hbfs & _).
  exists order. split; [done|]. unfold bfs in Hbfs.
  destruct (dict_get start (graph g)); [|injection Hbfs as <-; repeat constructor].
  apply (bfs_loop_levels (fresh (start :: targets g)) (S (length (targets g)))
           {[start]} [(start, [])] [] order).
  - apply infinite_is_fresh.
  - apply path_inv_start.
  - constructor.
  - by intros x e ?%elem_of_nil.
  - exact Hbfs.
Qed.

End BfsLevels.
End LevelFacts.

Module DfsFacts.
Import Storage Graph GraphFacts Traversal TraversalFacts.

Section Dfs.
Variable g : CryptoGraph.
Implicit Types (V : gset string) (O ks new : list string) (u v x : string).

(** What a call of [_dfs], or a part of its loop, has added to the state
    [(V, O)]: the wallets [new], which were not visited, are reached from one
    of the wallets [from], and all their edges lead to visited wallets. *)
Definition extends (W : gset string) (from : list string) V O
    (st' : gset string * list string) (new : list string) : Prop :=
  st'.2 = O ++ new
  /\ (forall x, x ∈ st'.1 <-> x ∈ V \/ x ∈ new)
  /\ NoDup new
  /\ (forall x, x ∈ new -> x ∉ V)
  /\ (forall x, x ∈ new -> x ∈ W)
  /\ (forall x, x ∈ new -> exists v m, v ∈ from /\ reach_in g v m x)
  /\ (forall x y, x ∈ new -> edge_to g x y -> y ∈ st'.1).

Lemma size_shrinks (W V : gset string) u :
  u ∈ W -> u ∉ V -> (size (W ∖ ({[u]} ∪ V)) < size (W ∖ V))%nat.
Proof.
  intros Hw Hv. apply subset_size. split.
  - intros x. rewrite !elem_of_difference, elem_of_union, elem_of_singleton. tauto.
  - intros Hsub. assert (u ∈ W ∖ ({[u]} ∪ V)) as Hu.
    { apply Hsub. by apply elem_of_difference. }
    apply elem_of_difference in Hu as [_ Hu]. apply Hu, elem_of_union_l.
    by apply elem_of_singleton.
Qed.

Lemma size_mono (W V V' : gset string) :
  (forall x, x ∈ V -> x ∈ V') -> (size (W ∖ V') <= size (W ∖ V))%nat.
Proof.
  intros Hsub. apply subseteq_size. intros x.
  rewrite !elem_of_difference. intros [? Hn]. split; [done|]. intros ?. by apply Hn, Hsub.
Qed.

Lemma dfs_rec_spec (W : gset string) :
  (forall u v, edge_to g u v -> v ∈ W) ->
  forall depth u V O,
    u ∈ W -> u ∉ V -> (size (W ∖ V) <= depth)%nat ->
    exists st' new,
      _dfs depth g u (V, O) = Some st'
      /\ extends W [u] V O st' new
      /\ head new = Some u.
Proof.
  intros HW. induction depth as [|depth IH]; intros u V O Hu Hnv Hsize.
  { assert (size (W ∖ V) <> 0)%nat; [|lia].
    apply size_non_empty_iff. intros Hempty.
    assert (u ∈ W ∖ V) as Hx by (by apply elem_of_difference).
    rewrite Hempty in Hx. by apply elem_of_empty in Hx. }
  simpl _dfs.
  set (step := fun (acc : option (gset string * list string)) v =>
                 st' ← acc;
                 if bool_decide (v ∈ st'.1) then Some st' else _dfs depth g v st').
  (* the loop over the keys of [graph[u]] *)
  assert (forall ks st new,
            (forall v, v ∈ ks -> edge_to g u v) ->
            st.2 = O ++ u :: new ->
            (forall x, x ∈ st.1 <-> x ∈ V \/ x ∈ u :: new) ->
            NoDup (u :: new) ->
            (forall x, x ∈ new -> x ∉ V) ->
            (forall x, x ∈ new -> x ∈ W) ->
            (forall x, x ∈ new -> exists m, reach_in g u m x) ->
            (forall x y, x ∈ new -> edge_to g x y -> y ∈ st.1) ->
            exists st' new',
              foldl step (Some st) ks = Some st'
              /\ st'.2 = O ++ u :: new'
              /\ (forall x, x ∈ st'.1 <-> x ∈ V \/ x ∈ u :: new')
              /\ NoDup (u :: new')
              /\ (forall x, x ∈ new' -> x ∉ V)
              /\ (forall x, x ∈ new' -> x ∈ W)
              /\ (forall x, x ∈ new' -> exists m, reach_in g u m x)
              /\ (forall x y, x ∈ new' -> edge_to g x y -> y ∈ st'.1)
              /\ (forall x, x ∈ st.1 -> x ∈ st'.1)
              /\ (forall v, v ∈ ks -> v ∈ st'.1)) as Hloop.
  { induction ks as [|k ks IHks]; intros st new Hks Hord Hvis Hnd Hfresh Hin Hreach Hclosed.
    { exists st, new. simpl. split_and!; try done. by intros ? ?%elem_of_nil. }
    change (foldl step (Some st) (k :: ks)) with (foldl step (step (Some st) k) ks).
    assert (step (Some st) k
            = if bool_decide (k ∈ st.1) then Some st else _dfs depth g k st) as ->
      by done.
    assert (forall v, v ∈ ks -> edge_to g u v) as Hks' by (intros; apply Hks; by right).
    case_bool_decide as Ek.
    - destruct (IHks st new) as (st' & new' & Hf & H1 & H2 & H3 & H4 & H5 & H6 & H7 & H8 & H9);
        try done.
      exists st', new'. split_and!; try done.
      intros v [->|Hv]%elem_of_cons; [by apply H8|by apply H9].
    - assert (k ∈ W) as Hk by (apply (HW u), Hks; by left).
      assert (size (W ∖ st.1) <= depth)%nat as Hsz.
      { assert (size (W ∖ st.1) <= size (W ∖ ({[u]} ∪ V)))%nat as Hle.
        { apply size_mono. intros x [->%elem_of_singleton|Hx]%elem_of_union; apply Hvis.
          - right. by left.
          - by left. }
        pose proof (size_shrinks W V u Hu Hnv). lia. }
      destruct st as [V1 O1]. simpl in *.
      destruct (IH k V1 O1 Hk Ek Hsz) as (st2 & new2 & Hcall & Hext & Hhead).
      rewrite Hcall.
      destruct Hext as (E1 & E2 & E3 & E4 & E5 & E6 & E7).
      destruct (IHks st2 (new ++ new2))
        as (st' & new' & Hf & H1 & H2 & H3 & H4 & H5 & H6 & H7 & H8 & H9); try done.
      + rewrite E1, Hord, <- app_assoc. done.
      + intros x. rewrite E2, Hvis, !elem_of_cons, elem_of_app. tauto.
      + change (NoDup ((u :: new) ++ new2)). apply NoDup_app. split_and!; try done.
        intros x Hx Hx2. apply (E4 x Hx2), Hvis. by right.
      + intros x [Hx|Hx]%elem_of_app; [by apply Hfresh|].
        intros HxV. apply (E4 x Hx), Hvis. by left.
      + intros x [Hx|Hx]%elem_of_app; [by apply Hin|by apply E5].
      + intros x [Hx|Hx]%elem_of_app; [by apply Hreach|].
        destruct (E6 x Hx) as (v & m & ->%list_elem_of_singleton & Hm).
        exists (S m). apply reach_in_prepend with k; [|done]. apply Hks. by left.
      + intros x y [Hx|Hx]%elem_of_app He.
        * apply E2. left. by apply (Hclosed x).
        * by apply (E7 x).
      + exists st', new'. split_and!; try done.
        * intros x Hx. apply H8, E2. by left.
        * intros v [->|Hv]%elem_of_cons; [|by apply H9].
          apply H8, E2. right. by apply head_Some_elem_of.
  }
  destruct (Hloop (dict_keys (dict_default [] u (graph g))) ({[u]} ∪ V, O ++ [u]) [])
    as (st' & new' & Hf & H1 & H2 & H3 & H4 & H5 & H6 & H7 & H8 & H9); simpl.
  - done.
  - done.
  - intros x. rewrite elem_of_union, elem_of_singleton, list_elem_of_singleton. tauto.
  - apply NoDup_singleton.
  - by intros ? ?%elem_of_nil.
  - by intros ? ?%elem_of_nil.
  - by intros ? ?%elem_of_nil.
  - by intros ? ? ?%elem_of_nil.
  - exists st', (u :: new'). split; [exact Hf|]. split; [|done].
    split_and!; try done.
    + intros x [->|Hx]%elem_of_cons; [done|by apply H4].
    + intros x [->|Hx]%elem_of_cons; [done|by apply H5].
    + intros x [->|Hx]%elem_of_cons.
      * exists u, 0%nat. split; [by left|done].
      * destruct (H6 x Hx) as [m Hm]. exists u, m. split; [by left|done].
    + intros x y [->|Hx]%elem_of_cons He; [by apply H9|by apply (H7 x)].
Qed.

Lemma size_list_to_set_le (l : list string) :
  (size (list_to_set l : gset string) <= length l)%nat.
Proof.
  induction l as [|x l IH].
  - change (list_to_set [] : gset string) with (∅ : gset string).
    by rewrite size_empty.
  - change (list_to_set (x :: l) : gset string)
      with ({[x]} ∪ list_to_set l : gset string).
    rewrite size_union_alt, size_singleton. simpl.
    assert (size (list_to_set l ∖ {[x]} : gset string) <= size (list_to_set l : gset string))%nat.
    { apply subseteq_size. intros y. rewrite elem_of_difference. tauto. }
    lia.
Qed.

(** X12: in any graph, when the interpreter allows more nested calls than
    there are targets of edges, [dfs start] returns, starts with [start],
    lists no wallet twice, and lists exactly the wallets that are reached
    from [start] along outgoing edges. *)
Theorem X12_dfs_lists_the_reachable_wallets (start : string) (depth : nat) :
  (length (targets g) < depth)%nat ->
  exists order,
    dfs depth g start = Some order
    /\ head order = Some start
    /\ NoDup order
    /\ forall x, x ∈ order <-> exists m, reach_in g start m x.
Proof.
  intros Hdepth.
  set (W := list_to_set (start :: targets g) : gset string).
  destruct (dfs_rec_spec W) with (depth := depth) (u := start) (V := (∅ : gset string))
    (O := @nil string) as (st' & new & Hcall & Hext & Hhead).
  - intros u v He. apply elem_of_list_to_set. right. by apply (neighbors_targets g u).
  - apply elem_of_list_to_set. by left.
  - apply not_elem_of_empty.
  - assert (size (W ∖ ∅) <= size W)%nat as Hle.
    { apply subseteq_size. intros y. rewrite elem_of_difference. tauto. }
    pose proof (size_list_to_set_le (start :: targets g)) as Hlen.
    cbn [length] in Hlen. fold W in Hlen. lia.
  - destruct Hext as (E1 & E2 & E3 & E4 & E5 & E6 & E7). simpl in E1.
    exists new. unfold dfs. rewrite Hcall. simpl. rewrite E1.
    split_and!; try done.
    intros x. split.
    + intros Hx. destruct (E6 x Hx) as (v & m & ->%list_elem_of_singleton & Hm).
      by exists m.
    + intros [m Hm]. revert m x Hm. apply reach_in_closed.
      * by apply head_Some_elem_of.
      * intros x y Hx He. pose proof (E7 x y Hx He) as Hy.
        apply E2 in Hy as [Hy|Hy]; [by apply elem_of_empty in Hy|done].
Qed.

End Dfs.

Lemma X12_dfs_lists_the_reachable_wallets_witness :
  dfs 3 two_edges "A" = Some ["A"; "B"; "C"]%string.
Proof.
  destruct (X12_dfs_lists_the_reachable_wallets two_edges "A" 3)
    as (order & Hdfs & _).
  - vm_compute. lia.
  - rewrite Hdfs. vm_compute in Hdfs. by injection Hdfs as <-.
Defined.

End DfsFacts.

Module TopTokensFacts.
Import Storage StorageFacts Graph GraphFacts Traversal.

Lemma dict_get_elem_of {V} (k : string) (v : V) (d : list (string * V)) :
  NoDup (dict_keys d) -> (k, v) ∈ d -> dict_get k d = Some v.
Proof.
  unfold dict_keys. induction d as [|[k0 v0] d IH]; simpl.
  - by intros _ ?%elem_of_nil.
  - intros [Hk0 Hnd]%NoDup_cons [[= -> ->]|Hin]%elem_of_cons.
    + by rewrite bool_decide_eq_true_2.
    + rewrite bool_decide_eq_false_2; [by apply IH|].
      intros ->. apply Hk0. apply list_elem_of_fmap. by exists (k, v).
Qed.

(** The counters of every wallet have each token once. *)
Definition tokens_once {V} (d : list (string * list (string * V))) : Prop :=
  forall w, NoDup (dict_keys (dict_default [] w d)).

Lemma nested_add_tokens_once {V} (zero : V) (add : V -> V) w tok
    (d : list (string * list (string * V))) :
  tokens_once d -> tokens_once (nested_add zero add w tok d).
Proof.
  intros Hd w'. unfold nested_add, dict_default. rewrite dict_get_set.
  case_bool_decide; [|apply Hd]. simpl. apply dict_keys_set_NoDup, Hd.
Qed.

Section Build.
Variable strip : string -> string.

Lemma add_record_tokens_once g rec g' :
  add_record strip g rec = Some g' ->
  tokens_once (wallet_token_volume g) ->
  tokens_once (wallet_token_volume g').
Proof.
  unfold add_record. intros Hadd Hg.
  destruct (volume_of rec) as [vol|]; [|done].
  cbn [mbind option_bind] in Hadd. injection Hadd as <-.
  destruct (present (wallet_from rec)) as [u|]; [|done].
  destruct (present (wallet_to rec)) as [v|]; [|done].
  simpl. by do 2 apply nested_add_tokens_once.
Qed.

Lemma add_records_tokens_once slots g g' :
  add_records strip g slots = Some g' ->
  tokens_once (wallet_token_volume g) ->
  tokens_once (wallet_token_volume g').
Proof.
  revert g. induction slots as [|[rec|] slots IH]; intros g Hrun Hg.
  - by injection Hrun as <-.
  - cbn [add_records] in Hrun.
    destruct (add_record strip g rec) as [g1|] eqn:Hadd; [|done].
    cbn [mbind option_bind] in Hrun.
    exact (IH g1 Hrun (add_record_tokens_once g rec g1 Hadd Hg)).
  - exact (IH g Hrun Hg).
Qed.

Lemma build_tokens_once self db g :
  build_graph_from_db strip self db = Some g ->
  tokens_once (wallet_token_volume g).
Proof.
  intros Hrun. apply (add_records_tokens_once _ _ _ Hrun).
  intros w. simpl. constructor.
Qed.

End Build.

Lemma slice_to_sublist {A} (k : Z) (l : list A) : slice_to k l `sublist_of` l.
Proof. unfold slice_to. destruct (0 <=? k); apply sublist_take. Qed.

Lemma all_contributions_nil ts w tok :
  (forall t, t ∈ ts -> t_from t <> w /\ t_to t <> w) -> all_contributions ts w tok = [].
Proof.
  unfold all_contributions. induction ts as [|t ts IH]; intros Hno; [done|].
  rewrite fmap_cons. cbn [concat].
  rewrite IH by (intros t' Ht'; apply Hno; by right).
  destruct (Hno t) as [Hf Ht]; [by left|]. unfold contributions.
  rewrite !bool_decide_eq_false_2; [done|by intros [? _]|by intros [? _]].
Qed.

Section Claims.
Variable strip : string -> string.
Variable sorted_by_volume : list (string * float) -> list (string * float).
Hypothesis sorted_permutation : forall l, sorted_by_volume l ≡ₚ l.

(** X14: in a graph built from a store, that is in every graph that
    [build_graph_from_db] returns, whatever order [sorted] gives to the
    items, [top_tokens_for_wallet] lists no token twice; each listed
    token is one the wallet sent or received, with the sum of the volumes of
    these transfers; the list has [top_k] items, or all of them when there
    are fewer (all but the last [-top_k] when [top_k] is negative); and it
    is empty for a wallet that is in no transfer. *)
Theorem X14_top_tokens_for_wallet (self : CryptoGraph) (db : CryptoDB)
    (g : CryptoGraph) (wallet : string) (top_k : Z) :
  build_graph_from_db strip self db = Some g ->
  let ts := transfers strip db in
  let top := top_tokens_for_wallet sorted_by_volume g wallet top_k in
  NoDup top.*1
  /\ (forall tok vol, (tok, vol) ∈ top ->
        all_contributions ts wallet tok <> []
        /\ vol = float_sum (all_contributions ts wallet tok))
  /\ length top
     = Z.to_nat (if 0 <=? top_k
                 then Z.min top_k (Z.of_nat (length (dict_default [] wallet (wallet_token_volume g))))
                 else Z.of_nat (length (dict_default [] wallet (wallet_token_volume g))) + top_k)
  /\ ((forall t, t ∈ ts -> t_from t <> wallet /\ t_to t <> wallet) -> top = []).
Proof.
  intros Hrun ts top.
  set (stats := dict_default [] wallet (wallet_token_volume g)).
  assert (top `sublist_of` sorted_by_volume stats) as Hsub by apply slice_to_sublist.
  assert (NoDup (dict_keys stats)) as Hnd by apply (build_tokens_once strip self db g Hrun).
  assert (forall tok vol, (tok, vol) ∈ top ->
            all_contributions ts wallet tok <> []
            /\ vol = float_sum (all_contributions ts wallet tok)) as Hvol.
  { intros tok vol Hin.
    assert ((tok, vol) ∈ stats) as Hin'.
    { apply (elem_of_Permutation_proper _ _ _ (sorted_permutation stats)).
      by apply (elem_of_sublist _ _ _ Hin Hsub). }
    pose proof (dict_get_elem_of tok vol stats Hnd Hin') as Hget.
    destruct (build_graph_built strip self db g Hrun) as (_ & _ & _ & _ & Hv).
    specialize (Hv wallet tok). fold ts in Hv.
    unfold volume_counter in Hv. unfold stats, dict_default in Hget, Hin'.
    destruct (dict_get wallet (wallet_token_volume g)) as [inner|];
      [|by apply elem_of_nil in Hin'].
    simpl in Hv, Hget. rewrite Hget in Hv. unfold of_contributions in Hv.
    destruct (all_contributions ts wallet tok); [done|]. split; [done|congruence]. }
  split_and!.
  - apply (sublist_NoDup _ (sorted_by_volume stats).*1).
    + unfold dict_keys in Hnd.
      apply (NoDup_Permutation_proper _ _ (fmap_Permutation fst _ _ (sorted_permutation stats))).
      exact Hnd.
    + by apply fmap_sublist.
  - done.
  - unfold top, top_tokens_for_wallet, slice_to. fold stats.
    pose proof (Permutation_length (sorted_permutation stats)) as Hlen.
    destruct (Z.leb_spec 0 top_k); rewrite length_take, Hlen; lia.
  - intros Hno. destruct top as [|[tok vol] top'] eqn:E; [done|].
    destruct (Hvol tok vol) as [Hne _]; [by left|].
    by rewrite all_contributions_nil in Hne.
Qed.

End Claims.

Lemma X14_top_tokens_for_wallet_witness :
  build_graph_from_db (fun s => s) empty_graph StorageFacts.two_transfers_db
  = Some two_edges
  /\ top_tokens_for_wallet (fun l => l) two_edges "B" 1 = [("BTC"%string, 1%float)].
Proof.
  assert (build_graph_from_db (fun s => s) empty_graph StorageFacts.two_transfers_db
          = Some two_edges) as Hrun by reflexivity.
  split; [exact Hrun|].
  destruct (X14_top_tokens_for_wallet (fun s => s) (fun l => l)
              (fun l => reflexivity l) empty_graph StorageFacts.two_transfers_db
              two_edges "B" 1 Hrun) as (_ & _ & Hlen & _).
  destruct (top_tokens_for_wallet (fun l => l) two_edges "B" 1) as [|x [|y l]] eqn:E;
    vm_compute in Hlen; try discriminate.
  vm_compute in E. by injection E as <-.
Defined.

End TopTokensFacts.

(** ** The percentiles of the analytics *)

Module PercentileFacts.
Import Storage StorageFacts Graph GraphFacts Analytics AnalyticsFacts.

Section Percentiles.
Variable strip : string -> string.
Variable rng : Type.
Variable Random : Z -> rng.
Variable randint : rng -> Z -> Z -> Z * rng.
Variable sorted : list float -> list float.
Variable round : float -> Z.
Variable format_thousands : Z -> string.
Hypothesis randint_range : forall st a b, a <= b -> a <= (randint st a b).1 <= b.
Hypothesis sorted_permutation : forall l, sorted l ≡ₚ l.
Variable sample_size : Z.
Hypothesis sample_size_pos : 1 <= sample_size.

Implicit Types (st : pass_state rng) (xs : list float) (x : float).

Lemma elem_of_insert_inv (i : nat) x (l : list float) y :
  y ∈ <[i := x]> l -> y = x \/ y ∈ l.
Proof.
  revert i. induction l as [|z l IH]; intros [|i]; simpl;
    try (by intros ?%elem_of_nil).
  - intros [->|Hy]%elem_of_cons; [by left|right; by right].
  - intros [->|Hy]%elem_of_cons; [right; by left|].
    destruct (IH i Hy) as [?|?]; [by left|right; by right].
Qed.

Lemma list_assign_elem_of i x (l l' : list float) y :
  list_assign i x l = Some l' -> y ∈ l' -> y = x \/ y ∈ l.
Proof.
  unfold list_assign.
  destruct ((0 <=? i) && (i <? Z.of_nat (length l)));
    [intros [= <-]; apply elem_of_insert_inv|].
  destruct ((- Z.of_nat (length l) <=? i) && (i <? 0)); [|done].
  intros [= <-]. apply elem_of_insert_inv.
Qed.

(** The reservoir holds only values of the stream. *)
Lemma observe_sample st x st' y :
  observe rng randint sample_size st x = Some st' ->
  y ∈ sample st' -> y = x \/ y ∈ sample st.
Proof.
  unfold observe. intros Hobs.
  apply bind_Some in Hobs as ([smp gen'] & Hres & [= <-]). simpl.
  destruct (Z.of_nat (length (sample st)) <? sample_size).
  - injection Hres as <- <-. intros [Hy| ->%list_elem_of_singleton]%elem_of_app;
      [by right|by left].
  - destruct (randint (gen st) 1 (n st + 1)) as [j gen''].
    destruct (j <=? sample_size).
    + apply bind_Some in Hres as (smp' & Hassign & [= <- <-]).
      by apply list_assign_elem_of with (j - 1).
    + injection Hres as <- <-. by right.
Qed.

Lemma pass_sample xs : forall st st' y,
  pass rng randint sample_size st xs = Some st' ->
  y ∈ sample st' -> y ∈ xs \/ y ∈ sample st.
Proof.
  induction xs as [|x xs IH]; intros st st' y; simpl.
  - intros [= <-]. by right.
  - intros Hpass. apply bind_Some in Hpass as (st1 & Hobs & Hpass).
    intros Hy. destruct (IH _ _ _ Hpass Hy) as [Hin|Hin]; [left; by right|].
    destruct (observe_sample _ _ _ _ Hobs Hin) as [->|?]; [left; by left|by right].
Qed.

(** [q] returns a value of the sorted sample: the index is brought back
    within the bounds whatever [round] gives. *)
Lemma q_elem_of (l : list float) p : l <> [] -> q round l p ∈ l.
Proof.
  intros Hne. unfold q. destruct l as [|x l]; [done|].
  set (last := Z.of_nat (length (x :: l)) - 1).
  set (idx := Z.max 0 (Z.min last (round (float_of_int last * p)%float))).
  assert (0 <= idx <= last) as Hidx.
  { unfold idx, last. simpl length. lia. }
  destruct (lookup_lt_is_Some_2 (x :: l) (Z.to_nat idx)) as [y Hy].
  { unfold last in Hidx. lia. }
  rewrite Hy. simpl. by apply list_elem_of_lookup_2 in Hy.
Qed.

#[local] Abbreviation analytics :=
  (amount_usd_analytics strip rng Random randint sorted round format_thousands).

(** X15: with a sample size of one or more, every percentile that
    [amount_usd_analytics] reports is one of the matching amounts: [q]
    brings the index back within the bounds of the sorted reservoir,
    whatever [round] returns, and the reservoir holds only values of the
    stream.  Without a matching amount the result has no percentiles. *)
Theorem X15_percentiles_are_matching_amounts (f : filters) (db : CryptoDB)
    (r : list (string * value)) :
  analytics f sample_size db = Some r ->
  let xs := _iter_amounts strip f db in
  (xs = [] /\ dict_get "approx_percentiles" r = None)
  \/ exists p50 p90 p95 p99,
       dict_get "approx_percentiles" r
       = Some (VDict [("p50"%string, VFloat p50); ("p90"%string, VFloat p90);
                      ("p95"%string, VFloat p95); ("p99"%string, VFloat p99)])
       /\ p50 ∈ xs /\ p90 ∈ xs /\ p95 ∈ xs /\ p99 ∈ xs.
Proof.
  intros Hr xs. unfold amount_usd_analytics in Hr. fold xs in Hr.
  destruct (pass_ok rng Random randint randint_range sample_size ltac:(lia) xs)
    as (st & Hpass & Hn & _ & _ & _ & Hlen & _).
  rewrite Hpass in Hr. simpl in Hr.
  destruct (Z.eqb_spec (n st) 0) as [E|E].
  - left. injection Hr as <-. split; [|done].
    destruct xs; [done|simpl in Hn; lia].
  - right. apply bind_Some in Hr as (std & _ & [= <-]).
    assert (sorted (sample st) <> []) as Hne.
    { intros Hnil. pose proof (sorted_permutation (sample st)) as Hp.
      rewrite Hnil in Hp. apply Permutation_nil_l in Hp.
      rewrite <- Hp in Hlen. simpl in Hlen. lia. }
    assert (forall p, q round (sorted (sample st)) p ∈ xs) as Hq.
    { intros p. pose proof (q_elem_of (sorted (sample st)) p Hne) as Hin.
      apply (elem_of_Permutation_proper _ _ _ (sorted_permutation (sample st))) in Hin.
      destruct (pass_sample xs _ _ _ Hpass Hin) as [?|Hx]; [done|].
      by apply elem_of_nil in Hx. }
    do 4 eexists. split; [done|]. split_and!; apply Hq.
Qed.

End Percentiles.

Lemma insert_float_permutation x l : insert_float x l ≡ₚ x :: l.
Proof.
  induction l as [|y l IH]; simpl; [done|].
  destruct (x <=? y)%float; [done|]. rewrite IH. apply Permutation_swap.
Qed.

Lemma insertion_sort_permutation l : insertion_sort l ≡ₚ l.
Proof.
  induction l as [|x l IH]; simpl; [done|].
  unfold insertion_sort in *. simpl. by rewrite insert_float_permutation, IH.
Qed.

Lemma X15_percentiles_are_matching_amounts_witness :
  exists r p50,
    amount_usd_analytics no_strip Z (fun seed => seed) lcg_randint insertion_sort
      (fun _ => 0) (fun _ => ""%string) no_filters 1 two_transfers_db = Some r
    /\ dict_get "approx_percentiles" r
       = Some (VDict [("p50"%string, VFloat p50); ("p90"%string, VFloat p50);
                      ("p95"%string, VFloat p50); ("p99"%string, VFloat p50)])
    /\ p50 ∈ _iter_amounts no_strip no_filters two_transfers_db.
Proof.
  assert (exists r,
    amount_usd_analytics no_strip Z (fun seed => seed) lcg_randint insertion_sort
      (fun _ => 0) (fun _ => ""%string) no_filters 1 two_transfers_db = Some r)
    as [r Hr].
  { eexists. vm_compute. reflexivity. }
  destruct (X15_percentiles_are_matching_amounts no_strip Z (fun seed => seed)
              lcg_randint insertion_sort (fun _ => 0) (fun _ => ""%string)
              lcg_randint_range insertion_sort_permutation 1 ltac:(lia)
              no_filters two_transfers_db r Hr)
    as [[Hnil _]|(p50 & p90 & p95 & p99 & Hd & H50 & _)].
  - vm_compute in Hnil. discriminate.
  - exists r, p50. split; [exact Hr|]. split; [|exact H50].
    rewrite Hd. vm_compute in Hr. injection Hr as <-.
    vm_compute in Hd. injection Hd as <- <- <- <-. reflexivity.
Defined.

End PercentileFacts.
